(** * IPTV channel pipeline: parse, group-and-prioritise, probe-and-repair

    A shallow embedding of [parse.py], [arrange_channel.py] and
    [re_check.py], and the properties of the three stages.

    Conventions of the embedding:
    - a Python [str] is the list of its code points ([list N]); ASCII
      literals are written with [lit];
    - a Python [dict] whose iteration order drives the program (the entry
      store, the grouped mapping, the final mapping) is an association
      list with the update-or-append behaviour of [d[k] = v]; the
      [attributes] dictionary, which is only stored and copied, is a [gmap];
    - [d.get(k)] of a JSON record is an [option]: [None] is Python's [None];
    - a Python exception that reaches the [except Exception] handler of a
      stage is the [None] of the option monad;
    - the network ([requests.head]) is a transition on an abstract world. *)

From Stdlib Require Import NArith String Ascii DecimalString DecimalNat.
From stdpp Require Import base option list gmap.

Set Default Proof Using "Type".

(** ** Python strings *)

Module Py.

(** An ASCII literal as a Python string. *)
Definition lit (s : string) : list N :=
  (λ a, N_of_ascii a) <$> list_ascii_of_string s.

(** [s.startswith(p)] *)
Fixpoint startswith (s p : list N) : bool :=
  match p, s with
  | [], _ => true
  | c :: p', d :: s' => if decide (c = d) then startswith s' p' else false
  | _ :: _, [] => false
  end.

(** [c in s] for a one-character [c] *)
Definition contains (c : N) (s : list N) : bool := bool_decide (c ∈ s).

(** The characters removed by [str.strip()] called without argument. *)
Definition isspace (c : N) : bool :=
  bool_decide (c ∈ [9; 10; 11; 12; 13; 28; 29; 30; 31; 32; 133; 160; 5760;
                    8192; 8193; 8194; 8195; 8196; 8197; 8198; 8199; 8200;
                    8201; 8202; 8232; 8233; 8239; 8287; 12288]%N).

Fixpoint lstrip (s : list N) : list N :=
  match s with
  | [] => []
  | c :: s' => if isspace c then lstrip s' else s
  end.

Definition rstrip (s : list N) : list N := reverse (lstrip (reverse s)).

(** [s.strip()] *)
Definition strip (s : list N) : list N := rstrip (lstrip s).

(** [s.split('\n')]: never empty, one more piece than there are newlines. *)
Fixpoint split_lines (s : list N) : list (list N) :=
  match s with
  | [] => [[]]
  | c :: s' =>
      if decide (c = 10%N) then [] :: split_lines s'
      else match split_lines s' with
           | [] => [[c]]
           | l :: ls => (c :: l) :: ls
           end
  end.

(** [str(n)] for a non-negative integer. *)
Definition str_of_nat (n : nat) : list N :=
  (λ a, N_of_ascii a) <$>
    list_ascii_of_string (NilZero.string_of_uint (Nat.to_uint n)).

End Py.

(** ** Insertion-ordered dictionaries *)

Module Dict.

Section Defs.
Context {V : Type}.

(** [d.get(k)] / [k in d] *)
Fixpoint get (k : list N) (d : list (list N * V)) : option V :=
  match d with
  | [] => None
  | (k', v) :: d' => if decide (k = k') then Some v else get k d'
  end.

(** [d[k] = v]: overwrite in place, or append a new key at the end. *)
Fixpoint set (k : list N) (v : V) (d : list (list N * V)) : list (list N * V) :=
  match d with
  | [] => [(k, v)]
  | (k', v') :: d' =>
      if decide (k = k') then (k', v) :: d' else (k', v') :: set k v d'
  end.

Definition keys (d : list (list N * V)) : list (list N) := d.*1.
End Defs.

End Dict.

(** ** Records of the pipeline *)

(** An entry of the entry store ([channels.json], [playable_channels.json]).
    A field is [None] when [.get] returns Python's [None]; for
    [channel_name] and [attributes], which are read with a default, [None]
    is the missing key. *)
Record ChannelInfo := {
  ci_source_url : option (list N);
  ci_channel_name : option (list N);
  ci_stream_url : option (list N);
  ci_attributes : option (gmap (list N) (list N))
}.

(** A member of a [childlist]: [{source_url, stream_url, attributes}]. *)
Record Child := {
  source_url : option (list N);
  stream_url : option (list N);
  attributes : gmap (list N) (list N)
}.

(** A channel group:
    [{source_url, channel_name, stream_url, attributes, childlist}]. *)
Record Group := {
  g_source_url : option (list N);
  g_channel_name : list N;
  g_stream_url : option (list N);
  g_attributes : gmap (list N) (list N);
  childlist : list Child
}.

#[global] Instance Child_eq_dec : EqDecision Child.
Proof. solve_decision. Defined.

(** ** arrange_channel.py *)

Module Arrange.
Import Py.

Definition Unknown : list N := lit "Unknown".

(** The record a store entry contributes to a group. *)
Definition child_of (info : ChannelInfo) : Child :=
  {| source_url := ci_source_url info;
     stream_url := ci_stream_url info;
     attributes := default ∅ (ci_attributes info) |}.

Definition name_of (info : ChannelInfo) : list N :=
  default Unknown (ci_channel_name info).

(** Body of the grouping loop (lines 25-43). *)
Definition group_step (grouped : list (list N * Group))
    (item : list N * ChannelInfo) : list (list N * Group) :=
  let channel_info := item.2 in
  let channel_name := name_of channel_info in
  match Dict.get channel_name grouped with
  | None =>
      Dict.set channel_name
        {| g_source_url := ci_source_url channel_info;
           g_channel_name := channel_name;
           g_stream_url := ci_stream_url channel_info;
           g_attributes := default ∅ (ci_attributes channel_info);
           childlist := [] |} grouped
  | Some g =>
      Dict.set channel_name
        {| g_source_url := g_source_url g;
           g_channel_name := g_channel_name g;
           g_stream_url := g_stream_url g;
           g_attributes := g_attributes g;
           childlist := childlist g ++ [child_of channel_info] |} grouped
  end.

Definition group_channels (channels : list (list N * ChannelInfo))
    : list (list N * Group) :=
  foldl group_step [] channels.

(** The members of [all_entries]: the group dictionary itself, then the
    dictionaries of its childlist. *)
Inductive entry :=
| Main (g : Group)
| Alt (c : Child).

Definition entry_stream_url (e : entry) : option (list N) :=
  match e with
  | Main g => g_stream_url g
  | Alt c => stream_url c
  end.

Definition all_entries (channel_group : Group) : list entry :=
  Main channel_group :: (Alt <$> childlist channel_group).

(** The four tests of lines 58, 66, 74 and 82. *)
Definition https_v4 (u : list N) : bool :=
  startswith u (lit "https://") && negb (contains 91 u).

Definition http_v4 (u : list N) : bool :=
  startswith u (lit "http://") && negb (contains 91 u).

Definition https_v6 (u : list N) : bool :=
  startswith u (lit "https://") && contains 91 u.

Definition http_v6 (u : list N) : bool :=
  startswith u (lit "http://") && contains 91 u.

(** One [for entry in all_entries: ... break] pass.  The key
    [stream_url] is present in every entry, so the default of [entry.get]
    is never used; on [None] the call [.startswith] raises. *)
Fixpoint scan (test : list N → bool) (es : list entry) : option (option entry) :=
  match es with
  | [] => Some None
  | e :: es' =>
      match entry_stream_url e with
      | None => None
      | Some u => if test u then Some (Some e) else scan test es'
      end
  end.

(** [if not best_entry: <pass>]; every entry is a non-empty dictionary,
    hence true once assigned. *)
Definition pass (test : list N → bool) (es : list entry)
    (best_entry : option entry) : option (option entry) :=
  match best_entry with
  | Some e => Some (Some e)
  | None => scan test es
  end.

Definition find_best (es : list entry) : option (option entry) :=
  b1 ← pass https_v4 es None;
  b2 ← pass http_v4 es b1;
  b3 ← pass https_v6 es b2;
  pass http_v6 es b3.

(** The record of a group's own entry, as the dictionary literal of lines
    89-93 builds it. *)
Definition primary (g : Group) : Child :=
  {| source_url := g_source_url g;
     stream_url := g_stream_url g;
     attributes := g_attributes g |}.

(** Lines 89-102: the swap of the group's own entry with [best]. *)
Definition promote (channel_group : Group) (best : Child) : Group :=
  let appended := childlist channel_group ++ [primary channel_group] in
  {| g_source_url := source_url best;
     g_channel_name := g_channel_name channel_group;
     g_stream_url := stream_url best;
     g_attributes := attributes best;
     childlist := filter (λ e, stream_url e ≠ stream_url best) appended |}.

(** Lines 49-102 for one group.  [best_entry != channel_group] compares
    dictionaries by value: the group compares equal to itself, and a
    childlist member, which has three keys where the group has five,
    never compares equal to it. *)
Definition reselect (channel_group : Group) : option Group :=
  best_entry ← find_best (all_entries channel_group);
  match best_entry with
  | Some (Alt best) => Some (promote channel_group best)
  | _ => Some channel_group
  end.

(** The mapping the loops of lines 23-102 build, which lines 105-106
    then write to [output_file]; [None] when a test of the priority pass
    raises on a stream URL that is [None], which ends the run in the
    [except Exception] handler before anything is written. *)
Definition arrange_channels (channels : list (list N * ChannelInfo))
    : option (list (list N * Group)) :=
  mapM (λ item : list N * Group, g ← reselect item.2; Some (item.1, g))
       (group_channels channels).

End Arrange.


(** ** re_check.py *)

Module Recheck.
Import Py.

(** State of the loop of [recheck_arranged_channels]: the accumulated
    mapping, the counter, the content of [output_file] ([None] while the
    file does not exist) and the network. *)
Record State (World : Type) := {
  final_channels : list (list N * Group);
  checked_groups : nat;
  output_file : option (list (list N * Group));
  world : World
}.
Arguments final_channels {World} _.
Arguments checked_groups {World} _.
Arguments output_file {World} _.
Arguments world {World} _.

Section WithNetwork.
Context {World : Type}.

(** [requests.head(url, timeout=timeout, allow_redirects=True)] inside its
    [try]: the answer is [true] exactly when a response arrived with
    [status_code == 200]; any other status and every exception caught by
    the handlers give [false]. *)
Context (head : list N → World → bool * World).

(** Lines 36-53: the primary is probed only when its URL is a non-empty
    string. *)
Definition check_main (channel_group : Group) (w : World) : bool * World :=
  match g_stream_url channel_group with
  | Some (c :: u) => head (c :: u) w
  | _ => (false, w)
  end.

(** Body of the loop over the childlist (lines 59-78). *)
Definition check_child (acc : list Child * World) (child_entry : Child)
    : list Child * World :=
  match stream_url child_entry with
  | Some (c :: u) =>
      let r := head (c :: u) acc.2 in
      (if r.1 then acc.1 ++ [child_entry] else acc.1, r.2)
  | _ => acc
  end.

Definition check_childlist (childlist : list Child) (w : World)
    : list Child * World :=
  foldl check_child ([], w) childlist.

(** Lines 81-104: the group to store, or [None] for [continue]. *)
Definition repaired (channel_group : Group) (main_playable : bool)
    (playable_childlist : list Child) : option Group :=
  if main_playable then
    Some {| g_source_url := g_source_url channel_group;
            g_channel_name := g_channel_name channel_group;
            g_stream_url := g_stream_url channel_group;
            g_attributes := g_attributes channel_group;
            childlist := playable_childlist |}
  else
    match playable_childlist with
    | first_playable :: rest =>
        Some {| g_source_url := source_url first_playable;
                g_channel_name := g_channel_name channel_group;
                g_stream_url := stream_url first_playable;
                g_attributes := attributes first_playable;
                childlist := rest |}
    | [] => None
    end.

(** The probes of one group followed by its decision. *)
Definition recheck_group (channel_group : Group) (w : World)
    : option Group * World :=
  let m := check_main channel_group w in
  let c := check_childlist (childlist channel_group) m.2 in
  (repaired channel_group m.1 c.1, c.2).

(** Body of the loop over [channels.items()] (lines 34-112); [total] is
    [len(channels)]. *)
Definition step (total : nat) (st : State World) (item : list N * Group)
    : State World :=
  let r := recheck_group item.2 (world st) in
  match r.1 with
  | None =>
      {| final_channels := final_channels st;
         checked_groups := checked_groups st;
         output_file := output_file st;
         world := r.2 |}
  | Some g =>
      let final := Dict.set item.1 g (final_channels st) in
      let checked := S (checked_groups st) in
      {| final_channels := final;
         checked_groups := checked;
         output_file :=
           if bool_decide (checked `mod` 10 = 0) || bool_decide (checked = total)
           then Some final else output_file st;
         world := r.2 |}
  end.

(** The loop from a given state. *)
Definition run (total : nat) (st : State World)
    (items : list (list N * Group)) : State World :=
  foldl (step total) st items.

Definition init (file0 : option (list (list N * Group))) (w : World)
    : State World :=
  {| final_channels := []; checked_groups := 0;
     output_file := file0; world := w |}.

(** The run on the mapping read from [input_file], started with the
    output file holding [file0]. *)
Definition recheck_arranged_channels (channels : list (list N * Group))
    (file0 : option (list (list N * Group))) (w : World) : State World :=
  run (length channels) (init file0 w) channels.

End WithNetwork.
End Recheck.

(** ** parse.py *)

Module Parse.
Import Py.

(** The literal returned when the name pattern does not match. *)
Definition unknown_channel : list N := [26410; 30693; 39057; 36947]%N.

(** [re.search(r',([^,]+)$', s)], group 1.  At a comma the class [[^,]+]
    takes the whole comma-free run that follows, and [$] then holds only
    if that run is not empty and reaches the end of the string; the search
    goes on to the next position otherwise. *)
Fixpoint search_name (s : list N) : option (list N) :=
  match s with
  | [] => None
  | c :: s' =>
      if decide (c = 44%N) then
        match s' with
        | _ :: _ => if contains 44 s' then search_name s' else Some s'
        | [] => None
        end
      else search_name s'
  end.

Definition extract_channel_name (extinf_line : list N) : list N :=
  match search_name extinf_line with
  | Some g => strip g
  | None => unknown_channel
  end.

(** The remainder of [s] after the prefix [p]. *)
Fixpoint after_prefix (p s : list N) : option (list N) :=
  match p, s with
  | [], _ => Some s
  | c :: p', d :: s' => if decide (c = d) then after_prefix p' s' else None
  | _ :: _, [] => None
  end.

(** The quoted value: the run of characters other than the double quote
    (code point 34) up to the next double quote, which must exist. *)
Fixpoint quoted (s : list N) : option (list N) :=
  match s with
  | [] => None
  | c :: s' => if decide (c = 34%N) then Some [] else (c ::.) <$> quoted s'
  end.

(** [re.search(pattern, s)], group 1, for the pattern of [key]: the key,
    an equals sign and a double quote, then the quoted value; the leftmost
    position where the pattern matches. *)
Fixpoint search_attr (key : list N) (s : list N) : option (list N) :=
  match after_prefix (key ++ [61; 34]%N) s ≫= quoted with
  | Some v => Some v
  | None =>
      match s with
      | [] => None
      | _ :: s' => search_attr key s'
      end
  end.

(** The keys of [patterns], in the order of the dictionary. *)
Definition patterns : list (list N) :=
  [lit "tvg-id"; lit "tvg-name"; lit "tvg-logo"; lit "group-title"].

Definition extract_attributes (extinf_line : list N) : gmap (list N) (list N) :=
  foldl (λ attributes key,
           match search_attr key extinf_line with
           | Some v => <[key := v]> attributes
           | None => attributes
           end) ∅ patterns.

(** State of the parsing loop of [parse_m3u_to_json]. *)
Record State := {
  channels : list (list N * ChannelInfo);
  current_channel_info : option (list N * gmap (list N) (list N));
  channel_index : nat
}.

Definition channel_key (m3u_url : list N) (channel_index : nat) : list N :=
  m3u_url ++ lit "_" ++ str_of_nat channel_index.

(** Body of the loop over the lines (lines 38-62).  The pending
    dictionary [{'name': .., 'attributes': ..}] is never empty, hence true
    whenever it is not [None]. *)
Definition step (m3u_url : list N) (st : State) (raw : list N) : State :=
  let line := strip raw in
  match line with
  | [] => st
  | _ :: _ =>
      if startswith line (lit "#EXTINF") then
        {| channels := channels st;
           current_channel_info :=
             Some (extract_channel_name line, extract_attributes line);
           channel_index := channel_index st |}
      else if startswith line (lit "http") then
        match current_channel_info st with
        | Some info =>
            {| channels :=
                 Dict.set (channel_key m3u_url (channel_index st))
                   {| ci_source_url := Some m3u_url;
                      ci_channel_name := Some info.1;
                      ci_stream_url := Some line;
                      ci_attributes := Some info.2 |} (channels st);
               current_channel_info := None;
               channel_index := S (channel_index st) |}
        | None => st
        end
      else st
  end.

Definition init : State :=
  {| channels := []; current_channel_info := None; channel_index := 0 |}.

Definition parse_lines (m3u_url : list N) (lines : list (list N)) : State :=
  foldl (step m3u_url) init lines.

(** The [channels] dictionary built from the downloaded text; [None] is
    the format error of lines 30-31. *)
Definition parse_m3u_to_json (m3u_url content : list N)
    : option (list (list N * ChannelInfo)) :=
  let lines := split_lines content in
  match lines with
  | first :: _ =>
      if startswith (strip first) (lit "#EXTM3U")
      then Some (channels (parse_lines m3u_url lines))
      else None
  | [] => None
  end.

End Parse.


(** * Further code of the pipeline *)

(** ** arrange_channel.py: the end of [arrange_channels] *)

Module ArrangeFile.
Import Py Arrange.

(** The dictionary returned: the two counts of a success, or an error. *)
Inductive Result :=
| success (total_channels grouped_channels : nat)
| error.

Section WithFile.
Context {World : Type}.

(** Lines 105-106, [open(output_file, 'w')] and [json.dump]: [false]
    when one of them raises, what was written until then being part of
    the world. *)
Context (dump : list (list N * Group) → World → bool * World).

(** [arrange_channels] on the mapping read from [input_file]: the loops
    of lines 23-102, then the write of lines 105-106, an exception of
    either ending the run in the handler of line 120. *)
Definition arrange_and_save (channels : list (list N * ChannelInfo))
    (w : World) : Result * World :=
  match arrange_channels channels with
  | Some grouped_channels =>
      let r := dump grouped_channels w in
      (if r.1 then success (length channels) (length grouped_channels)
       else error, r.2)
  | None => (error, w)
  end.

End WithFile.
End ArrangeFile.

(** ** parse.py: the store file and file names *)

Module ParseFile.
Import Py Parse.

(** [existing_channels.update(channels)]: the items of [channels] are
    assigned in their order. *)
Definition update {V : Type} (existing channels : list (list N * V))
    : list (list N * V) :=
  foldl (λ d item, Dict.set item.1 item.2 d) existing channels.

(** Lines 64-77: the mapping to write.  [existing] is the mapping held by
    [output_file]; it is [None] when the file does not exist or is not
    valid JSON. *)
Definition final_channels (existing : option (list (list N * ChannelInfo)))
    (channels : list (list N * ChannelInfo)) : list (list N * ChannelInfo) :=
  match existing with
  | Some existing_channels => update existing_channels channels
  | None => channels
  end.

(** The content of [output_file] after [parse_m3u_to_json] on the text
    downloaded from [m3u_url]: on the format error nothing is written. *)
Definition parse_and_save (m3u_url content : list N)
    (existing : option (list (list N * ChannelInfo)))
    : option (list (list N * ChannelInfo)) :=
  match parse_m3u_to_json m3u_url content with
  | Some channels => Some (final_channels existing channels)
  | None => existing
  end.

(** The characters of the class of [sanitize_filename]: the angle
    brackets, the colon, the double quote, the slash, the backslash, the
    bar, the question mark and the star. *)
Definition invalid_chars : list N := [60; 62; 58; 34; 47; 92; 124; 63; 42]%N.

(** [re.sub(invalid_chars, '_', filename)] *)
Definition sanitize_filename (filename : list N) : list N :=
  (λ c, if bool_decide (c ∈ invalid_chars) then 95%N else c) <$> filename.

End ParseFile.

(** ** check.py *)

Module Check.
Import Py.

(** State of the loop of [check_playable_channels_from_json]. *)
Record State (World : Type) := {
  playable_channels : list (list N * ChannelInfo);
  checked_count : nat;
  output_file : option (list (list N * ChannelInfo));
  world : World
}.
Arguments playable_channels {World} _.
Arguments checked_count {World} _.
Arguments output_file {World} _.
Arguments world {World} _.

Section WithNetwork.
Context {World : Type}.

(** [requests.head] inside its [try], as in [Recheck]: [true] exactly for
    a response with status 200. *)
Context (head : list N → World → bool * World).

(** Body of the loop (lines 33-60); [total] is [len(channels)].  An entry
    without a usable [stream_url] is skipped by [continue], before the
    counter. *)
Definition step (total : nat) (st : State World)
    (item : list N * ChannelInfo) : State World :=
  match ci_stream_url item.2 with
  | Some (c :: u) =>
      let r := head (c :: u) (world st) in
      let playable :=
        if r.1 then Dict.set item.1 item.2 (playable_channels st)
        else playable_channels st in
      let checked := S (checked_count st) in
      {| playable_channels := playable;
         checked_count := checked;
         output_file :=
           if bool_decide (checked `mod` 10 = 0) || bool_decide (checked = total)
           then Some playable else output_file st;
         world := r.2 |}
  | _ => st
  end.

Definition run (total : nat) (st : State World)
    (items : list (list N * ChannelInfo)) : State World :=
  foldl (step total) st items.

Definition init (file0 : option (list (list N * ChannelInfo))) (w : World)
    : State World :=
  {| playable_channels := []; checked_count := 0;
     output_file := file0; world := w |}.

Definition check_playable_channels_from_json
    (channels : list (list N * ChannelInfo))
    (file0 : option (list (list N * ChannelInfo))) (w : World) : State World :=
  run (length channels) (init file0 w) channels.

End WithNetwork.
End Check.

(** ** parse.py: main *)

Module ParseMain.
Import Py Parse ParseFile.

Section WithDownload.
Context {World : Type}.

(** [requests.get(m3u_url, timeout=30)] followed by [raise_for_status()]:
    the text of the response, or [None] for the request errors, which
    [parse_m3u_to_json] turns into its error result. *)
Context (get : list N → World → option (list N) * World).

(** One call [parse_m3u_to_json(url)] of the loop of [main], on the state
    made of the content of [channels.json] and of the network. *)
Definition parse_one (st : option (list (list N * ChannelInfo)) * World)
    (item : list N * list N) : option (list (list N * ChannelInfo)) * World :=
  let r := get item.2 st.2 in
  (match r.1 with
   | Some content => parse_and_save item.2 content st.1
   | None => st.1
   end, r.2).

(** [main]: [channels.json] is removed first; [manifests] is the mapping
    of [channels_url.json], from a label to the URL of a manifest. *)
Definition main (manifests : list (list N * list N)) (w : World)
    : option (list (list N * ChannelInfo)) * World :=
  foldl parse_one (None, w) manifests.

End WithDownload.
End ParseMain.

(** ** main.py: one file per channel *)

Module Split.
Import Py Parse ParseFile.

(** The dictionary [{'extinf', 'name', 'attributes', 'urls'}] of a
    channel. *)
Record Channel := {
  extinf : list N;
  name : list N;
  attributes : gmap (list N) (list N);
  urls : list (list N)
}.

(** State of the parsing loop of [split_m3u_by_channel]; the empty
    dictionary of [current_channel] is [None]. *)
Record State := {
  channels : list Channel;
  current_channel : option Channel
}.

(** Body of the loop (lines 40-58); [extract_channel_name] and
    [extract_attributes] of main.py are the functions of parse.py, word
    for word.  The copy appended to [channels]
    shares the list [urls], to which nothing is added afterwards since
    [current_channel] is replaced at once. *)
Definition step (st : State) (raw : list N) : State :=
  let line := strip raw in
  match line with
  | [] => st
  | _ :: _ =>
      if startswith line (lit "#EXTINF") then
        {| channels := channels st;
           current_channel :=
             Some {| extinf := line;
                     name := extract_channel_name line;
                     attributes := extract_attributes line;
                     urls := [] |} |}
      else if startswith line (lit "http") then
        match current_channel st with
        | Some ch =>
            {| channels :=
                 channels st ++ [{| extinf := extinf ch;
                                    name := name ch;
                                    attributes := attributes ch;
                                    urls := urls ch ++ [line] |}];
               current_channel := None |}
        | None => st
        end
      else st
  end.

Definition split_channels (lines : list (list N)) : list Channel :=
  channels (foldl step {| channels := []; current_channel := None |} lines).

(** The format [{:03d}] of a non-negative integer: at least three digits,
    zeros in front. *)
Definition pad3 (n : nat) : list N :=
  replicate (3 - length (str_of_nat n)) 48%N ++ str_of_nat n.

(** Line 66: the name of the file of the channel at index [i]. *)
Definition file_name (i : nat) (channel : Channel) : list N :=
  sanitize_filename (pad3 (i + 1) ++ lit "_" ++ name channel ++ lit ".m3u").

(** Lines 70-73: the text written to the file of a channel, the line
    separator being the newline. *)
Definition file_text (channel : Channel) : list N :=
  lit "#EXTM3U" ++ [10%N]
    ++ concat ((λ url, extinf channel ++ [10%N] ++ url ++ [10%N]) <$> urls channel).

(** An entry of [created_files]. *)
Record Created := {
  filename : list N;
  channel_name : list N;
  stream_count : nat
}.

Section WithFiles.
Context {World : Type}.

(** Lines 67-73, [open(filepath, 'w')] on the file [filename] of
    [output_dir] and the writes of its text: [false] when one of them
    raises, which ends the run in the handler of line 104. *)
Context (write_file : list N → list N → World → bool * World).

(** Lines 63-79 from the index [i] on: [created_files] when every file
    could be written, [None] as soon as one could not. *)
Fixpoint write_from (i : nat) (channels : list Channel)
    (created_files : list Created) (w : World)
    : option (list Created) * World :=
  match channels with
  | [] => (Some created_files, w)
  | channel :: rest =>
      match urls channel with
      | [] => write_from (S i) rest created_files w
      | _ :: _ =>
          let r := write_file (file_name i channel) (file_text channel) w in
          if r.1 then
            write_from (S i) rest
              (created_files ++ [{| filename := file_name i channel;
                                    channel_name := name channel;
                                    stream_count := length (urls channel) |}])
              r.2
          else (None, r.2)
      end
  end.

Definition write_files (channels : list Channel) (w : World)
    : option (list Created) * World :=
  write_from 0 channels [] w.

End WithFiles.

End Split.

(** ** main.py: the probe of a channel file *)

Module Playability.
Import Py.

(** The translation of line ends done when a text file is read: a
    carriage return, alone or before a newline, becomes a newline. *)
Fixpoint universal_newlines (s : list N) : list N :=
  match s with
  | [] => []
  | c :: s' =>
      if decide (c = 13%N) then
        match s' with
        | d :: s'' =>
            if decide (d = 10%N) then 10%N :: universal_newlines s''
            else 10%N :: universal_newlines s'
        | [] => [10%N]
        end
      else c :: universal_newlines s'
  end.

(** [f.readlines()] on the translated text: the pieces after each
    newline, each with its newline, and the rest if it is not empty. *)
Fixpoint keepends (s : list N) : list (list N) :=
  match s with
  | [] => []
  | c :: s' =>
      if decide (c = 10%N) then [10%N] :: keepends s'
      else match keepends s' with
           | [] => [[c]]
           | l :: ls => (c :: l) :: ls
           end
  end.

Definition readlines (content : list N) : list (list N) :=
  keepends (universal_newlines content).

(** Lines 225-229: the stream URLs of the file. *)
Definition stream_urls (content : list N) : list (list N) :=
  filter (λ line, startswith line (lit "http") = true) (strip <$> readlines content).

(** The [status] of the result, with the URL probed. *)
Inductive result :=
| error
| playable (url : list N)
| not_playable (url : list N).

Section WithNetwork.
Context {World : Type}.

(** [requests.head]: [Some true] for status 200, [Some false] for another
    status, a timeout or a request exception, [None] for any other
    exception, which reaches the outer handler. *)
Context (head : list N → World → option bool * World).

(** [check_m3u_playability] on a file that could be read: the first
    stream URL of the file is probed. *)
Definition check_m3u_playability (content : list N) (w : World)
    : result * World :=
  match stream_urls content with
  | [] => (error, w)
  | stream_url :: _ =>
      let r := head stream_url w in
      (match r.1 with
       | Some true => playable stream_url
       | Some false => not_playable stream_url
       | None => error
       end, r.2)
  end.

End WithNetwork.
End Playability.

(** ** sync_database.py *)

Module Sync.
Import Py.

(** The row sent to the table [channels]. *)
Record ChannelData := {
  channel_key : list N;
  cd_source_url : option (list N);
  cd_channel_name : list N;
  cd_stream_url : option (list N);
  cd_tvg_name : option (list N);
  cd_tvg_id : option (list N);
  cd_tvg_logo : option (list N);
  cd_group_title : option (list N)
}.

(** The row sent to the table [channel_sources]; [Value] is the type of
    the values of the columns of a stored row. *)
Record SourceData (Value : Type) := {
  parent_channel_id : Value;
  sd_source_url : option (list N);
  sd_stream_url : option (list N);
  sd_tvg_name : option (list N);
  sd_tvg_id : option (list N);
  sd_tvg_logo : option (list N);
  sd_group_title : option (list N)
}.
Arguments parent_channel_id {Value} _.
Arguments sd_source_url {Value} _.
Arguments sd_stream_url {Value} _.
Arguments sd_tvg_name {Value} _.
Arguments sd_tvg_id {Value} _.
Arguments sd_tvg_logo {Value} _.
Arguments sd_group_title {Value} _.

(** [table(..).insert(data)] *)
Inductive Request (Value : Type) :=
| InsertChannel (data : ChannelData)
| InsertSource (data : SourceData Value).
Arguments InsertChannel {Value} _.
Arguments InsertSource {Value} _.

(** The entries of [errors]: the insert of the group failed, or its
    processing raised an exception. *)
Inductive Error :=
| InsertFailed (channel_key : list N)
| Raised (channel_key : list N).

(** State of the loop of [batch_insert_channels_from_json]. *)
Record State (World : Type) := {
  success_count : nat;
  error_count : nat;
  errors : list Error;
  world : World
}.
Arguments success_count {World} _.
Arguments error_count {World} _.
Arguments errors {World} _.
Arguments world {World} _.

(** The dictionary returned when the file could be read. *)
Record Result := {
  total_processed : nat;
  r_success_count : nat;
  r_error_count : nat;
  r_errors : list Error
}.

Section WithDatabase.
Context {Value World : Type}.

(** A stored row, as the database returns it. *)
Definition Row : Type := gmap (list N) Value.

(** [.execute()]: [None] when it raises, else [result.data], the empty
    list standing for every false value. *)
Context (execute : Request Value → World → option (list Row) * World).

Definition first_row (data : option (list Row)) : option Row :=
  match data with
  | Some (row :: _) => Some row
  | _ => None
  end.

Definition insert_channel (channel_data : ChannelData) (w : World)
    : option Row * World :=
  let r := execute (InsertChannel channel_data) w in (first_row r.1, r.2).

Definition insert_channel_source (source_data : SourceData Value) (w : World)
    : option Row * World :=
  let r := execute (InsertSource source_data) w in (first_row r.1, r.2).

(** Lines 252-261. *)
Definition channel_data_of (channel_key : list N) (channel_info : Group)
    : ChannelData :=
  {| channel_key := channel_key;
     cd_source_url := g_source_url channel_info;
     cd_channel_name := g_channel_name channel_info;
     cd_stream_url := g_stream_url channel_info;
     cd_tvg_name := g_attributes channel_info !! lit "tvg-name";
     cd_tvg_id := g_attributes channel_info !! lit "tvg-id";
     cd_tvg_logo := g_attributes channel_info !! lit "tvg-logo";
     cd_group_title := g_attributes channel_info !! lit "group-title" |}.

(** Lines 271-279. *)
Definition source_data_of (channel_id : Value) (child_source : Child)
    : SourceData Value :=
  {| parent_channel_id := channel_id;
     sd_source_url := source_url child_source;
     sd_stream_url := stream_url child_source;
     sd_tvg_name := attributes child_source !! lit "tvg-name";
     sd_tvg_id := attributes child_source !! lit "tvg-id";
     sd_tvg_logo := attributes child_source !! lit "tvg-logo";
     sd_group_title := attributes child_source !! lit "group-title" |}.

(** Lines 270-280: the result of [insert_channel_source] is not used. *)
Definition insert_childlist (channel_id : Value) (childlist : list Child)
    (w : World) : World :=
  foldl (λ w child_source,
           (insert_channel_source (source_data_of channel_id child_source) w).2)
        w childlist.

(** Body of the loop (lines 249-286).  An empty row is false; a row
    without the column [id] raises at line 266, after the group has been
    counted as a success. *)
Definition step (st : State World) (item : list N * Group) : State World :=
  let channel_key := item.1 in
  let channel_info := item.2 in
  let r := insert_channel (channel_data_of channel_key channel_info) (world st) in
  let failed :=
    {| success_count := success_count st;
       error_count := S (error_count st);
       errors := errors st ++ [InsertFailed channel_key];
       world := r.2 |} in
  match r.1 with
  | Some channel_result =>
      if decide (size channel_result = 0) then failed
      else
        match channel_result !! lit "id" with
        | Some channel_id =>
            {| success_count := S (success_count st);
               error_count := error_count st;
               errors := errors st;
               world := insert_childlist channel_id (childlist channel_info) r.2 |}
        | None =>
            {| success_count := S (success_count st);
               error_count := S (error_count st);
               errors := errors st ++ [Raised channel_key];
               world := r.2 |}
        end
  | None => failed
  end.

Definition init (w : World) : State World :=
  {| success_count := 0; error_count := 0; errors := []; world := w |}.

Definition run (st : State World) (channels_data : list (list N * Group))
    : State World :=
  foldl step st channels_data.

(** [batch_insert_channels_from_json]; [file0] is the content of the
    file, [None] when it cannot be read, and the result is [None] for
    the dictionary with [success] false. *)
Definition batch_insert_channels_from_json
    (file0 : option (list (list N * Group))) (w : World)
    : option Result * World :=
  match file0 with
  | Some channels_data =>
      let st := run (init w) channels_data in
      (Some {| total_processed := success_count st + error_count st;
               r_success_count := success_count st;
               r_error_count := error_count st;
               r_errors := errors st |}, world st)
  | None => (None, w)
  end.

End WithDatabase.
End Sync.

(** * Vocabulary of the specification *)

Module ArrangeSpec.
Import Py Arrange.

(** The partition of a channel name: the store entries carrying that
    name, in the order of the store. *)
Definition members (name : list N) (channels : list (list N * ChannelInfo))
    : list (list N * ChannelInfo) :=
  filter (λ item, name_of item.2 = name) channels.

(** The same partition as records. *)
Definition member_records (name : list N)
    (channels : list (list N * ChannelInfo)) : list Child :=
  (λ item, child_of item.2) <$> members name channels.

(** The group of a partition before the priority pass: the first-seen
    member in the primary slot, the others in the childlist. *)
Definition grouped (name : list N) (items : list (list N * ChannelInfo))
    : option Group :=
  match items with
  | [] => None
  | first :: rest =>
      Some {| g_source_url := ci_source_url first.2;
              g_channel_name := name;
              g_stream_url := ci_stream_url first.2;
              g_attributes := default ∅ (ci_attributes first.2);
              childlist := (λ item, child_of item.2) <$> rest |}
  end.

(** The priority classes as lines 58-82 test them: the transport is
    the prefix [https://] or [http://], compared as written, and an
    endpoint counts as bracketed when an opening square bracket occurs
    anywhere in its URL. *)
Definition secure (u : list N) : bool := startswith u (lit "https://").

Definition plain (u : list N) : bool := startswith u (lit "http://").

Definition bracketed (u : list N) : bool := contains 91 u.

Definition priority_class (u : list N) : option nat :=
  if secure u then Some (if bracketed u then 3 else 1)
  else if plain u then Some (if bracketed u then 4 else 2)
  else None.

Definition class_of (c : Child) : option nat :=
  stream_url c ≫= priority_class.

(** The record an entry of [all_entries] stands for. *)
Definition record (e : entry) : Child :=
  match e with
  | Main g => primary g
  | Alt c => c
  end.

(** The test of the [k]-th pass. *)
Definition test_of (k : nat) : list N → bool :=
  match k with
  | 1 => https_v4
  | 2 => http_v4
  | 3 => https_v6
  | 4 => http_v6
  | _ => λ _, false
  end.

(** [rs] with the first occurrence of [r] taken out, the order kept. *)
Fixpoint without (r : Child) (rs : list Child) : list Child :=
  match rs with
  | [] => []
  | x :: rs' => if decide (x = r) then rs' else x :: without r rs'
  end.

(** [k] is the highest priority class that is not empty in [rs]. *)
Definition best_class (k : nat) (rs : list Child) : Prop :=
  (∃ r, r ∈ rs ∧ class_of r = Some k) ∧
  (∀ r j, r ∈ rs → class_of r = Some j → k ≤ j).

(** An entry on which the test of pass [k] was evaluated and failed. *)
Definition misses (k : nat) (e : entry) : Prop :=
  ∃ u, entry_stream_url e = Some u ∧ test_of k u = false.

(** [e] is the first entry of [es] of class [k], and no entry of [es] is
    of a class before [k]. *)
Definition first_of_class (k : nat) (es : list entry) (e : entry) : Prop :=
  ∃ pre post, es = pre ++ e :: post ∧ class_of (record e) = Some k ∧
    Forall (λ x, class_of (record x) ≠ Some k) pre ∧
    Forall (λ x, ∀ j, class_of (record x) = Some j → k ≤ j) es.

End ArrangeSpec.

Module RecheckSpec.
Import Py Recheck.

Section WithNetwork.
Context {World : Type} (head : list N → World → bool * World).

(** The probe of one childlist member: no request for a member without a
    usable URL, which counts as not reachable. *)
Definition probe_child (c : Child) (w : World) : bool * World :=
  match stream_url c with
  | Some (a :: u) => head (a :: u) w
  | _ => (false, w)
  end.

(** The outcomes of the probes of a childlist, in its order, the network
    evolving from one probe to the next. *)
Fixpoint outcomes (cl : list Child) (w : World) : list bool :=
  match cl with
  | [] => []
  | c :: cl' => (probe_child c w).1 :: outcomes cl' (probe_child c w).2
  end.

(** The members of [cl] at the positions marked [true], the order kept. *)
Fixpoint marked (cl : list Child) (bs : list bool) : list Child :=
  match cl, bs with
  | c :: cl', b :: bs' => if b then c :: marked cl' bs' else marked cl' bs'
  | _, _ => []
  end.

(** The childlist members that probe reachable, in the original order. *)
Definition reachable (cl : list Child) (w : World) : list Child :=
  marked cl (outcomes cl w).

(** The network after the probes of a childlist. *)
Fixpoint after_childlist (cl : list Child) (w : World) : World :=
  match cl with
  | [] => w
  | c :: cl' => after_childlist cl' (probe_child c w).2
  end.

(** The network when the group following the groups [pre] is reached. *)
Definition world_after (pre : list (list N * Group)) (w : World) : World :=
  world (run head 0 (init None w) pre).

End WithNetwork.
End RecheckSpec.

Module ParseSpec.
Import Py Parse.

(** The line has a token of [key] with the value [v]: the key, an equals
    sign, and [v] between double quotes, [v] itself without a double
    quote. *)
Definition token (key v line : list N) : Prop :=
  ∃ pre post, line = pre ++ key ++ [61; 34]%N ++ v ++ 34%N :: post ∧ 34%N ∉ v.

(** The kinds of lines of a manifest, after [strip]. *)
Inductive kind := Metadata | Endpoint | Ignored.

Definition classify (raw : list N) : kind :=
  match strip raw with
  | [] => Ignored
  | line =>
      if startswith line (lit "#EXTINF") then Metadata
      else if startswith line (lit "http") then Endpoint
      else Ignored
  end.

(** The pending entry a metadata line leaves. *)
Definition pending_of (raw : list N) : list N * gmap (list N) (list N) :=
  (extract_channel_name (strip raw), extract_attributes (strip raw)).

(** The entry an endpoint line completes. *)
Definition entry_of (m3u_url : list N)
    (info : list N * gmap (list N) (list N)) (raw : list N) : ChannelInfo :=
  {| ci_source_url := Some m3u_url;
     ci_channel_name := Some info.1;
     ci_stream_url := Some (strip raw);
     ci_attributes := Some info.2 |}.

(** The keys in use are those of the ordinals below the counter. *)
Definition keys_below (m3u_url : list N) (st : State) : Prop :=
  ∀ k, k ∈ Dict.keys (channels st) →
       ∃ j, j < channel_index st ∧ k = channel_key m3u_url j.

End ParseSpec.

(** * Sample data *)

Module Samples.
Import Py Arrange.

Definition info (src name url : string) : ChannelInfo :=
  {| ci_source_url := Some (lit src);
     ci_channel_name := Some (lit name);
     ci_stream_url := Some (lit url);
     ci_attributes := None |}.

Definition rec (src url : string) : Child :=
  {| source_url := Some (lit src); stream_url := Some (lit url);
     attributes := ∅ |}.

(** One name, three endpoints: http-ipv4, https-ipv6, https-ipv4. *)
Definition i_http4 : ChannelInfo := info "m1" "Channel A" "http://1.2.3.4/a".

Definition i_https6 : ChannelInfo := info "m1" "Channel A" "https://[2001:db8::1]/a".

Definition i_https4 : ChannelInfo := info "m1" "Channel A" "https://1.2.3.4/a".

Definition store_priority : list (list N * ChannelInfo) :=
  [(lit "m1_0", i_http4); (lit "m1_1", i_https6); (lit "m1_2", i_https4)].

Definition group_priority : Group :=
  {| g_source_url := Some (lit "m1");
     g_channel_name := lit "Channel A";
     g_stream_url := Some (lit "https://1.2.3.4/a");
     g_attributes := ∅;
     childlist := [rec "m1" "https://[2001:db8::1]/a"; rec "m1" "http://1.2.3.4/a"] |}.

(** The https-ipv4 endpoint listed a second time, by another manifest. *)
Definition store_shared : list (list N * ChannelInfo) :=
  [(lit "m1_0", i_http4); (lit "m1_1", i_https4);
   (lit "m2_0", info "m2" "Channel A" "https://1.2.3.4/a")].

Definition group_shared : Group :=
  {| g_source_url := Some (lit "m1");
     g_channel_name := lit "Channel A";
     g_stream_url := Some (lit "https://1.2.3.4/a");
     g_attributes := ∅;
     childlist := [rec "m1" "http://1.2.3.4/a"] |}.

(** One manifest listing the same pair twice. *)
Definition store_twice : list (list N * ChannelInfo) :=
  [(lit "m1_0", i_https4); (lit "m1_1", i_https4)].

Definition group_twice : Group :=
  {| g_source_url := Some (lit "m1");
     g_channel_name := lit "Channel A";
     g_stream_url := Some (lit "https://1.2.3.4/a");
     g_attributes := ∅;
     childlist := [rec "m1" "https://1.2.3.4/a"] |}.

(** A network in which exactly the URLs of [alive] answer with status 200. *)
Definition head_of (alive : list (list N)) (url : list N) (w : unit)
    : bool * unit :=
  (bool_decide (url ∈ alive), w).

Definition network : list N → unit → bool * unit :=
  head_of [lit "http://b/"; lit "http://c/"].

Definition g_dead : Group :=
  {| g_source_url := Some (lit "m1");
     g_channel_name := lit "Dead";
     g_stream_url := Some (lit "http://d0/");
     g_attributes := ∅;
     childlist := [rec "m2" "http://d1/"] |}.

(** A primary that does not answer, and the childlist [A; B; C] of which
    [B] and [C] answer. *)
Definition g_live : Group :=
  {| g_source_url := Some (lit "m1");
     g_channel_name := lit "Live";
     g_stream_url := Some (lit "http://p/");
     g_attributes := ∅;
     childlist := [rec "m1" "http://a/"; rec "m2" "http://b/";
                   rec "m3" "http://c/"] |}.

Definition arranged : list (list N * Group) :=
  [(lit "Dead", g_dead); (lit "Live", g_live)].

Definition g_repaired : Group :=
  {| g_source_url := Some (lit "m2");
     g_channel_name := lit "Live";
     g_stream_url := Some (lit "http://b/");
     g_attributes := ∅;
     childlist := [rec "m3" "http://c/"] |}.

(** The lines of a manifest: a metadata line that is dropped, a pair
    separated by a comment, and an endpoint line without metadata. *)
Definition manifest_head : list (list N) :=
  [lit "#EXTM3U"; lit "#EXTINF:-1,Dropped"].

Definition manifest_lines : list (list N) :=
  manifest_head ++ [lit "#EXTINF:-1,Channel A"; lit "# comment"].

(** Metadata lines: one with a [group-title] token, one whose [tvg-id]
    token has an empty value. *)
Definition line_news : list N :=
  lit "#EXTINF:-1 group-title=" ++ [34]%N ++ lit "News" ++ [34]%N
    ++ lit ",Channel A".

Definition line_empty_id : list N :=
  lit "tvg-id" ++ [61; 34; 34]%N ++ lit ",Channel A".

End Samples.

(** * Vocabulary of the further properties *)

Module ParseMoreSpec.
Import Py Parse ParseSpec.

#[global] Instance kind_eq_dec : EqDecision kind.
Proof. solve_decision. Defined.

(** The text before the first newline. *)
Fixpoint first_line (s : list N) : list N :=
  match s with
  | [] => []
  | c :: s' => if decide (c = 10%N) then [] else c :: first_line s'
  end.

(** The number of lines of a kind. *)
Definition count_kind (k : kind) (lines : list (list N)) : nat :=
  length (filter (λ raw, classify raw = k) lines).

(** An entry made of the metadata line [meta] and the endpoint line [raw]
    of the manifest [m3u_url]. *)
Definition entry_from (m3u_url meta raw : list N) (info : ChannelInfo) : Prop :=
  classify meta = Metadata ∧ classify raw = Endpoint ∧
  info = entry_of m3u_url (pending_of meta) raw.

End ParseMoreSpec.

Module CheckSpec.
Import Py Check.

(** An entry whose [stream_url] is a non-empty string. *)
Definition usable (info : ChannelInfo) : bool :=
  match ci_stream_url info with
  | Some (_ :: _) => true
  | _ => false
  end.

Section WithNetwork.
Context {World : Type} (head : list N → World → bool * World).

(** The entries that probe reachable, in the order of the store, the
    network evolving from one probe to the next. *)
Fixpoint playable_of (channels : list (list N * ChannelInfo)) (w : World)
    : list (list N * ChannelInfo) :=
  match channels with
  | [] => []
  | item :: rest =>
      match ci_stream_url item.2 with
      | Some (c :: u) =>
          (if (head (c :: u) w).1 then [item] else [])
            ++ playable_of rest (head (c :: u) w).2
      | _ => playable_of rest w
      end
  end.

End WithNetwork.
End CheckSpec.

Module RecheckMoreSpec.
Import Py Recheck RecheckSpec.

Section WithNetwork.
Context {World : Type} (head : list N → World → bool * World).

(** The groups kept, repaired, in the order of the input, the network
    evolving from one group to the next. *)
Fixpoint repair_all (channels : list (list N * Group)) (w : World)
    : list (list N * Group) :=
  match channels with
  | [] => []
  | item :: rest =>
      match (recheck_group head item.2 w).1 with
      | Some g => [(item.1, g)]
      | None => []
      end ++ repair_all rest (recheck_group head item.2 w).2
  end.

(** A network whose answer for a URL is always the same. *)
Definition stable (alive : list N → bool) : Prop :=
  ∀ url w, (head url w).1 = alive url.

End WithNetwork.

(** The answers of a stable network for the members of a group. *)
Definition alive_main (alive : list N → bool) (g : Group) : bool :=
  match g_stream_url g with
  | Some (c :: u) => alive (c :: u)
  | _ => false
  end.

Definition alive_child (alive : list N → bool) (c : Child) : bool :=
  match stream_url c with
  | Some (a :: u) => alive (a :: u)
  | _ => false
  end.

(** The repair of one group on a stable network. *)
Definition repair_pure (alive : list N → bool) (g : Group) : option Group :=
  repaired g (alive_main alive g)
    (filter (λ c, alive_child alive c = true) (childlist g)).

End RecheckMoreSpec.

Module MoreSamples.
Import Py.

(** A network in which the primary of [Samples.g_live] answers too. *)
Definition network_primary : list N → unit → bool * unit :=
  Samples.head_of [lit "http://p/"; lit "http://b/"].

Definition alive_b_c (url : list N) : bool :=
  bool_decide (url ∈ [lit "http://b/"; lit "http://c/"]).

(** [n] groups without alternates, all on one reachable URL. *)
Definition many (n : nat) : list (list N * Group) :=
  (λ i, (str_of_nat i,
         {| g_source_url := Some (lit "m1");
            g_channel_name := str_of_nat i;
            g_stream_url := Some (lit "http://b/");
            g_attributes := ∅;
            childlist := [] |})) <$> seq 0 n.

(** A store whose second entry of the name has no stream URL. *)
Definition i_no_url : ChannelInfo :=
  {| ci_source_url := Some (lit "m1");
     ci_channel_name := Some (lit "Channel A");
     ci_stream_url := None;
     ci_attributes := None |}.

Definition store_no_url : list (list N * ChannelInfo) :=
  [(lit "m1_0", Samples.i_http4); (lit "m1_1", i_no_url)].

(** The text of a manifest with one pair, and a download that only
    knows the manifest [m1]. *)
Definition manifest_text : list N :=
  lit "#EXTM3U" ++ [10%N] ++ lit "#EXTINF:-1,Channel A" ++ [10%N]
    ++ lit "http://1.2.3.4/a" ++ [10%N].

Definition download (url : list N) (w : unit) : option (list N) * unit :=
  (if bool_decide (url = lit "m1") then Some manifest_text else None, w).

Definition manifests : list (list N * list N) :=
  [(lit "a", lit "m1"); (lit "b", lit "m2")].

Definition entry_a : ChannelInfo :=
  {| ci_source_url := Some (lit "m1");
     ci_channel_name := Some (lit "Channel A");
     ci_stream_url := Some (lit "http://1.2.3.4/a");
     ci_attributes := Some ∅ |}.

End MoreSamples.

Module SplitSpec.
Import Py Parse ParseSpec.

(** The pending channel a metadata line leaves, and the channel an
    endpoint line completes. *)
Definition pending_channel (meta : list N) : Split.Channel :=
  {| Split.extinf := strip meta;
     Split.name := extract_channel_name (strip meta);
     Split.attributes := extract_attributes (strip meta);
     Split.urls := [] |}.

Definition channel_of (meta raw : list N) : Split.Channel :=
  {| Split.extinf := strip meta;
     Split.name := extract_channel_name (strip meta);
     Split.attributes := extract_attributes (strip meta);
     Split.urls := [strip raw] |}.

(** A channel made of two lines of [lines]. *)
Definition from_lines (lines : list (list N)) (ch : Split.Channel) : Prop :=
  ∃ meta raw, meta ∈ lines ∧ raw ∈ lines ∧
    classify meta = Metadata ∧ classify raw = Endpoint ∧
    ch = channel_of meta raw.

(** The entry of [parse_m3u_to_json] with the data of a channel. *)
Definition as_entry (m3u_url : list N) (ch : Split.Channel) : ChannelInfo :=
  {| ci_source_url := Some m3u_url;
     ci_channel_name := Some (Split.name ch);
     ci_stream_url := head (Split.urls ch);
     ci_attributes := Some (Split.attributes ch) |}.

(** The two loops run in step. *)
Definition in_step (m3u_url : list N) (lines : list (list N))
    (pst : Parse.State) (sst : Split.State) : Prop :=
  (Parse.channels pst).*2 = as_entry m3u_url <$> Split.channels sst ∧
  Forall (from_lines lines) (Split.channels sst) ∧
  ((current_channel_info pst = None ∧ Split.current_channel sst = None) ∨
   (∃ meta, meta ∈ lines ∧ classify meta = Metadata ∧
      current_channel_info pst = Some (pending_of meta) ∧
      Split.current_channel sst = Some (pending_channel meta))).

(** The digits of a decimal number, as characters. *)
Definition digits (d : Decimal.uint) : list N :=
  (λ a, N_of_ascii a) <$> list_ascii_of_string (NilEmpty.string_of_uint d).

(** The first and the last character of a stripped string are not
    removed by [strip]. *)
Inductive trimmed : list N → Prop :=
| trimmed_nil : trimmed []
| trimmed_one c : isspace c = false → trimmed [c]
| trimmed_ends c s d : isspace c = false → isspace d = false → trimmed (c :: s ++ [d]).

(** The file of the channel at index [i], as name and text, and its
    entry of [created_files]. *)
Definition file_of (i : nat) (ch : Split.Channel) : list N * list N :=
  (Split.file_name i ch, Split.file_text ch).

Definition created_of (i : nat) (ch : Split.Channel) : Split.Created :=
  {| Split.filename := Split.file_name i ch;
     Split.channel_name := Split.name ch;
     Split.stream_count := length (Split.urls ch) |}.

(** The files [write_file] together with the list of the writes asked
    of it, done or not. *)
Definition logged_files {World}
    (write_file : list N → list N → World → bool * World)
    (filename text : list N) (lw : list (list N * list N) * World)
    : bool * (list (list N * list N) * World) :=
  ((write_file filename text lw.2).1,
   (lw.1 ++ [(filename, text)], (write_file filename text lw.2).2)).

(** The result of the probe of [url]. *)
Definition verdict {World} (head : list N → World → option bool * World)
    (url : list N) (w : World) : Playability.result * World :=
  (match (head url w).1 with
   | Some true => Playability.playable url
   | Some false => Playability.not_playable url
   | None => Playability.error
   end, (head url w).2).

End SplitSpec.

Module SplitSamples.
Import Py.

(** A manifest with carriage returns before the newlines. *)
Definition manifest_crlf : list N :=
  lit "#EXTM3U" ++ [13; 10]%N ++ lit "#EXTINF:-1,News" ++ [13; 10]%N
    ++ lit "http://a/1" ++ [13; 10]%N.

Definition news : Split.Channel :=
  SplitSpec.channel_of (lit "#EXTINF:-1,News") (lit "http://a/1").

Definition answers (url : list N) (w : unit) : option bool * unit :=
  (Some (bool_decide (url = lit "http://a/1")), w).

End SplitSamples.

Module SyncSpec.
Import Py Sync.

(** The errors of line 286, and the key an error is about. *)
Definition raised (e : Error) : bool :=
  match e with
  | Raised _ => true
  | InsertFailed _ => false
  end.

Definition error_key (e : Error) : list N :=
  match e with
  | Raised k => k
  | InsertFailed k => k
  end.

Section WithDatabase.
Context {Value World : Type}.
Context (execute : Request Value → World → option (list (gmap (list N) Value)) * World).

(** The database [execute] together with the list of the requests it
    has received. *)
Definition logged (req : Request Value) (lw : list (Request Value) * World)
    : option (list (gmap (list N) Value)) * (list (Request Value) * World) :=
  ((execute req lw.2).1, (lw.1 ++ [req], (execute req lw.2).2)).

(** A state of the loop over the logged database. *)
Definition with_log (log : list (Request Value)) (st : State World)
    : State (list (Request Value) * World) :=
  {| success_count := success_count st;
     error_count := error_count st;
     errors := errors st;
     world := (log, world st) |}.

End WithDatabase.

(** The key of a request to [channels], the stream URL of a request to
    [channel_sources]. *)
Definition channel_request {Value} (req : Request Value) : option (list N) :=
  match req with
  | InsertChannel data => Some (channel_key data)
  | InsertSource _ => None
  end.

Definition source_request {Value} (req : Request Value)
    : option (option (list N)) :=
  match req with
  | InsertChannel _ => None
  | InsertSource data => Some (sd_stream_url data)
  end.

(** The stream URLs of all the alternates of a file, in order. *)
Definition all_children (channels_data : list (list N * Group))
    : list (option (list N)) :=
  mjoin ((λ item, stream_url <$> childlist item.2) <$> channels_data).

End SyncSpec.

Module SyncSamples.
Import Py Sync.

(** A database that stores nothing and answers every insert with a row
    whose [id] is 7. *)
Definition always_7 (req : Request N) (w : unit)
    : option (list (gmap (list N) N)) * unit :=
  (Some [{[ lit "id" := 7%N ]}], w).

End SyncSamples.

Module SpecClasses.
Import Py.

(** The priority classes in the words of the specification: by the
    scheme of the endpoint and by its host. *)

(** ASCII lower case; the scheme of a URL is read without regard to
    case. *)
Definition lower (c : N) : N :=
  if ((65 <=? c) && (c <=? 90))%N then (c + 32)%N else c.

(** A URL as its scheme and what follows [://]: the scheme is the text
    before the first colon. *)
Fixpoint split_scheme (u : list N) : option (list N * list N) :=
  match u with
  | [] => None
  | c :: u' =>
      if decide (c = 58%N) then
        match u' with
        | a :: b :: rest =>
            if decide (a = 47%N ∧ b = 47%N) then Some ([], rest) else None
        | _ => None
        end
      else
        match split_scheme u' with
        | Some (scheme, rest) => Some (c :: scheme, rest)
        | None => None
        end
  end.

(** The authority: what follows [://] up to the first slash, question
    mark or number sign. *)
Fixpoint authority (rest : list N) : list N :=
  match rest with
  | [] => []
  | c :: rest' =>
      if bool_decide (c ∈ [47; 63; 35]%N) then [] else c :: authority rest'
  end.

(** The host and port: the authority after its last at sign, if any. *)
Fixpoint host (auth : list N) : list N :=
  match auth with
  | [] => []
  | c :: auth' =>
      if bool_decide (64%N ∈ auth') then host auth'
      else if decide (c = 64%N) then auth' else auth
  end.

(** The host is a literal bracketed address. *)
Definition bracketed_host (rest : list N) : bool :=
  match host (authority rest) with
  | c :: _ => bool_decide (c = 91%N)
  | [] => false
  end.

Definition worded_class (u : list N) : option nat :=
  match split_scheme u with
  | Some (scheme, rest) =>
      if decide (lower <$> scheme = lit "https")
      then Some (if bracketed_host rest then 3 else 1)
      else if decide (lower <$> scheme = lit "http")
      then Some (if bracketed_host rest then 4 else 2)
      else None
  | None => None
  end.

Definition worded_class_of (c : Child) : option nat :=
  stream_url c ≫= worded_class.

(** [k] is the highest priority class, so worded, that is not empty in
    [rs]. *)
Definition worded_best_class (k : nat) (rs : list Child) : Prop :=
  (∃ r, r ∈ rs ∧ worded_class_of r = Some k) ∧
  (∀ r j, r ∈ rs → worded_class_of r = Some j → k ≤ j).

(** One name, two endpoints on the host [h]: http, then https with a
    bracket in the query. *)
Definition store_query : list (list N * ChannelInfo) :=
  [(lit "m1_0", Samples.info "m1" "Channel A" "http://h/q");
   (lit "m1_1", Samples.info "m1" "Channel A" "https://h/p?x=[1]")].

Definition group_query : Group :=
  {| g_source_url := Some (lit "m1");
     g_channel_name := lit "Channel A";
     g_stream_url := Some (lit "http://h/q");
     g_attributes := ∅;
     childlist := [Samples.rec "m1" "https://h/p?x=[1]"] |}.

End SpecClasses.

Module ArrangeMoreSpec.
Import Py Arrange ArrangeSpec.

(** Some partition has a member without stream URL that no member of
    class 1 precedes. *)
Definition unscannable (channels : list (list N * ChannelInfo)) : Prop :=
  ∃ name pre r post,
    member_records name channels = pre ++ r :: post ∧
    stream_url r = None ∧
    Forall (λ x, class_of x ≠ Some 1) pre.

(** An output file that can always be written. *)
Definition dump_done (grouped : list (list N * Group)) (w : unit)
    : bool * unit := (true, w).

End ArrangeMoreSpec.

(** * Properties *)

(** ** Dictionaries *)

Module DictFacts.

Section Facts.
Context {V : Type}.
Implicit Types (k : list N) (v : V) (d : list (list N * V)).

Lemma get_set_eq k v d : Dict.get k (Dict.set k v d) = Some v.
Proof.
  induction d as [|[k' v'] d IH]; simpl.
  - by rewrite decide_True.
  - destruct (decide (k = k')) as [->|Hne]; simpl.
    + by rewrite decide_True.
    + by rewrite decide_False.
Qed.

Lemma get_set_ne k k' v d : k ≠ k' → Dict.get k' (Dict.set k v d) = Dict.get k' d.
Proof.
  intros Hne. induction d as [|[k0 v0] d IH]; simpl.
  - by rewrite decide_False.
  - destruct (decide (k = k0)) as [->|Hne0]; simpl.
    + by rewrite !(decide_False (P := k' = k0)).
    + by rewrite IH.
Qed.

Lemma get_Some_elem k v d : Dict.get k d = Some v → (k, v) ∈ d.
Proof.
  induction d as [|[k' v'] d IH]; simpl; [done|].
  case_decide as Hk.
  - intros [= ->]. subst. apply list_elem_of_here.
  - intros H. apply list_elem_of_further. auto.
Qed.

Lemma get_None_keys k d : Dict.get k d = None ↔ k ∉ Dict.keys d.
Proof.
  unfold Dict.keys. induction d as [|[k' v'] d IH]; simpl.
  - split; [intros _ | done]. apply not_elem_of_nil.
  - rewrite not_elem_of_cons. case_decide as Hk.
    + split; [done | intros [Hne _]; done].
    + rewrite IH. split; [by intros ? | by intros [_ ?]].
Qed.

Lemma elem_get k v d : NoDup (Dict.keys d) → (k, v) ∈ d → Dict.get k d = Some v.
Proof.
  unfold Dict.keys. induction d as [|[k' v'] d IH]; simpl.
  - intros _ H. by apply elem_of_nil in H.
  - intros [Hk' Hd]%NoDup_cons [Heq | Hin]%elem_of_cons.
    + injection Heq as -> ->. by rewrite decide_True.
    + rewrite decide_False; [auto|].
      intros ->. apply Hk'. apply list_elem_of_fmap. by exists (k', v).
Qed.

Lemma elem_set k v d x : x ∈ Dict.set k v d → x = (k, v) ∨ x ∈ d.
Proof.
  induction d as [|[k' v'] d IH]; simpl.
  - intros ->%list_elem_of_singleton. by left.
  - case_decide as Hk.
    + intros [-> | Hin]%elem_of_cons; [left; by subst | right].
      by apply list_elem_of_further.
    + intros [-> | Hin]%elem_of_cons; [right; apply list_elem_of_here|].
      destruct (IH Hin) as [-> | Hd]; [by left | right].
      by apply list_elem_of_further.
Qed.

Lemma keys_set k v d :
  Dict.keys (Dict.set k v d) =
    if decide (k ∈ Dict.keys d) then Dict.keys d else Dict.keys d ++ [k].
Proof.
  unfold Dict.keys. induction d as [|[k' v'] d IH]; csimpl.
  - done.
  - destruct (decide (k = k')) as [->|Hne]; csimpl.
    + rewrite (decide_True (P := k' ∈ k' :: d.*1)); [done|].
      apply list_elem_of_here.
    + rewrite IH. destruct (decide (k ∈ d.*1)) as [Hin|Hnin].
      * rewrite (decide_True (P := k ∈ k' :: d.*1)); [done|].
        by apply list_elem_of_further.
      * rewrite (decide_False (P := k ∈ k' :: d.*1)); [done|].
        by intros [?|?]%elem_of_cons.
Qed.

Lemma NoDup_keys_set k v d :
  NoDup (Dict.keys d) → NoDup (Dict.keys (Dict.set k v d)).
Proof.
  intros Hd. rewrite keys_set. case_decide as Hin; [done|].
  apply NoDup_app. split_and!; [done | | apply NoDup_singleton].
  intros x Hx ->%list_elem_of_singleton. done.
Qed.

End Facts.
End DictFacts.

(** ** Grouping *)

Module ArrangeFacts.
Import Py Arrange ArrangeSpec DictFacts.

Lemma members_snoc name channels item :
  members name (channels ++ [item]) =
    members name channels ++ (if decide (name_of item.2 = name) then [item] else []).
Proof.
  unfold members. by rewrite filter_app.
Qed.

Lemma group_channels_snoc channels item :
  group_channels (channels ++ [item]) = group_step (group_channels channels) item.
Proof. unfold group_channels. by rewrite foldl_snoc. Qed.

(** The grouping loop builds, under every name, the group of its partition. *)
Lemma group_channels_get channels name :
  Dict.get name (group_channels channels) = grouped name (members name channels).
Proof.
  induction channels as [|item channels IH] using rev_ind; [done|].
  rewrite group_channels_snoc, members_snoc. unfold group_step.
  destruct (decide (name_of item.2 = name)) as [<-|Hne].
  - rewrite IH. destruct (members (name_of item.2) channels) as [|first rest]; simpl.
    + by rewrite get_set_eq.
    + rewrite get_set_eq. by rewrite fmap_app.
  - rewrite app_nil_r.
    destruct (Dict.get (name_of item.2) (group_channels channels));
      by rewrite get_set_ne.
Qed.

Lemma group_channels_NoDup channels : NoDup (Dict.keys (group_channels channels)).
Proof.
  induction channels as [|item channels IH] using rev_ind; [apply NoDup_nil_2|].
  rewrite group_channels_snoc. unfold group_step.
  destruct (Dict.get (name_of item.2) (group_channels channels));
    by apply NoDup_keys_set.
Qed.

(** Every group of the output is the re-selected group of its partition. *)
Lemma arrange_channels_elem channels groups name g' :
  arrange_channels channels = Some groups →
  (name, g') ∈ groups →
  ∃ g, grouped name (members name channels) = Some g ∧ reselect g = Some g'.
Proof.
  unfold arrange_channels. intros Hm%mapM_Some_1 Hin.
  apply list_elem_of_lookup_1 in Hin as [i Hi].
  destruct (Forall2_lookup_r _ _ _ _ _ Hm Hi) as ([n g] & Hg & Hf).
  simpl in Hf. destruct (reselect g) as [g0|] eqn:Hr; simplify_eq/=.
  exists g. split; [|done].
  rewrite <- group_channels_get. apply elem_get.
  - apply group_channels_NoDup.
  - by eapply list_elem_of_lookup_2.
Qed.

(** ** The four passes *)

Lemma secure_not_plain u : secure u = true → plain u = false.
Proof.
  unfold secure, plain.
  change (lit "https://") with [104; 116; 116; 112; 115; 58; 47; 47]%N.
  change (lit "http://") with [104; 116; 116; 112; 58; 47; 47]%N.
  destruct u as [|c1 [|c2 [|c3 [|c4 [|c5 u]]]]]; cbn [startswith];
    repeat (case_decide; [subst|done]); done.
Qed.

Lemma test_of_class u k : test_of k u = true ↔ priority_class u = Some k.
Proof.
  unfold priority_class.
  destruct (secure u) eqn:Hs; [pose proof (secure_not_plain u Hs) as Hp|];
    destruct (bracketed u) eqn:Hb; try destruct (plain u) eqn:Hp;
    destruct k as [|[|[|[|[|k]]]]];
    unfold test_of, https_v4, http_v4, https_v6, http_v6;
    fold (secure u) (plain u) (bracketed u);
    rewrite ?Hs, ?Hp, ?Hb; simpl; split; congruence.
Qed.

Lemma priority_class_range u k : priority_class u = Some k → 1 ≤ k ≤ 4.
Proof.
  unfold priority_class.
  destruct (secure u), (plain u), (bracketed u); intros [= <-]; lia.
Qed.

Lemma entry_stream_url_record e : entry_stream_url e = stream_url (record e).
Proof. by destruct e. Qed.

Lemma all_entries_records g : record <$> all_entries g = primary g :: childlist g.
Proof.
  unfold all_entries. rewrite fmap_cons, <- list_fmap_compose. simpl.
  f_equal. apply list_fmap_id.
Qed.

Lemma misses_class k e : misses k e → class_of (record e) ≠ Some k.
Proof.
  intros (u & Hu & Ht). unfold class_of. rewrite <- entry_stream_url_record, Hu.
  simpl. rewrite <- test_of_class. congruence.
Qed.

Lemma scan_found k es e :
  scan (test_of k) es = Some (Some e) →
  ∃ pre post, es = pre ++ e :: post ∧ class_of (record e) = Some k ∧
              Forall (misses k) pre.
Proof.
  induction es as [|x es IH]; simpl; [done|].
  destruct (entry_stream_url x) as [u|] eqn:Hu; [|done].
  destruct (test_of k u) eqn:Ht.
  - intros [= ->]. exists [], es. split_and!; [done| |done].
    unfold class_of. rewrite <- entry_stream_url_record, Hu. simpl.
    by apply test_of_class.
  - intros (pre & post & -> & Hc & Hpre)%IH.
    exists (x :: pre), post. split_and!; [done|done|].
    constructor; [by exists u | done].
Qed.

Lemma scan_none k es : scan (test_of k) es = Some None → Forall (misses k) es.
Proof.
  induction es as [|x es IH]; simpl; [done|].
  destruct (entry_stream_url x) as [u|] eqn:Hu; [|done].
  destruct (test_of k u) eqn:Ht; [done|].
  intros H. constructor; [by exists u | auto].
Qed.

Lemma pass_found k es e :
  (∀ j, 1 ≤ j < k → Forall (misses j) es) →
  scan (test_of k) es = Some (Some e) →
  first_of_class k es e.
Proof.
  intros Hbefore (pre & post & -> & Hc & Hpre)%scan_found.
  exists pre, post. split_and!; [done|done| |].
  - eapply Forall_impl; [exact Hpre|]. intros x. apply misses_class.
  - apply Forall_forall. intros x Hx j Hj.
    destruct (decide (k ≤ j)) as [|Hlt]; [done|]. exfalso.
    assert (1 ≤ j ≤ 4) as Hrange.
    { unfold class_of in Hj. destruct (stream_url (record x)); [|done].
      by eapply priority_class_range. }
    assert (Forall (misses j) (pre ++ e :: post)) as Hm by (apply Hbefore; lia).
    rewrite Forall_forall in Hm. by apply (misses_class j x (Hm x Hx)).
Qed.

Lemma find_best_spec es r :
  find_best es = Some r →
  match r with
  | Some e => ∃ k, first_of_class k es e
  | None => Forall (λ x, class_of (record x) = None ∧ is_Some (entry_stream_url x)) es
  end.
Proof.
  unfold find_best, pass.
  destruct (scan https_v4 es) as [[e1|]|] eqn:H1; simpl; [| |done].
  { intros [= <-]. exists 1. apply pass_found; [intros; lia | done]. }
  apply (scan_none 1) in H1.
  destruct (scan http_v4 es) as [[e2|]|] eqn:H2; simpl; [| |done].
  { intros [= <-]. exists 2. apply pass_found; [|done].
    intros j Hj. by replace j with 1 by lia. }
  apply (scan_none 2) in H2.
  destruct (scan https_v6 es) as [[e3|]|] eqn:H3; simpl; [| |done].
  { intros [= <-]. exists 3. apply pass_found; [|done].
    intros j Hj. assert (j = 1 ∨ j = 2) as [-> | ->] by lia; done. }
  apply (scan_none 3) in H3.
  destruct (scan http_v6 es) as [[e4|]|] eqn:H4; simpl; [| |done].
  { intros [= <-]. exists 4. apply pass_found; [|done].
    intros j Hj. assert (j = 1 ∨ j = 2 ∨ j = 3) as [-> | [-> | ->]] by lia; done. }
  apply (scan_none 4) in H4. intros [= <-].
  apply Forall_forall. intros x Hx. rewrite Forall_forall in H1, H2, H3, H4.
  destruct (H1 x Hx) as (u & Hu & _). split; [|by rewrite Hu].
  destruct (class_of (record x)) as [j|] eqn:Hj; [exfalso|done].
  assert (1 ≤ j ≤ 4) as Hrange.
  { unfold class_of in Hj. destruct (stream_url (record x)); [|done].
    by eapply priority_class_range. }
  assert (j = 1 ∨ j = 2 ∨ j = 3 ∨ j = 4) as [-> | [-> | [-> | ->]]] by lia;
    [apply (misses_class 1 x) | apply (misses_class 2 x)
    | apply (misses_class 3 x) | apply (misses_class 4 x)]; auto.
Qed.

(** ** Re-selection of one group *)

Lemma primary_promote g best : primary (promote g best) = best.
Proof. by destruct best. Qed.

Lemma Main_all_entries g e pre post :
  all_entries g = pre ++ Main e :: post → pre = [] ∧ e = g.
Proof.
  unfold all_entries. destruct pre as [|x pre]; simpl.
  - by intros [= ->].
  - intros [= _ Hcl].
    assert (Main e ∈ Alt <$> childlist g) as Hin.
    { rewrite Hcl. apply elem_of_app. right. apply list_elem_of_here. }
    apply list_elem_of_fmap in Hin as (c & Hc & _). done.
Qed.

(** The outcome of the priority pass on one group: nothing changes when no
    entry has a class or the group's own entry is the best one; a
    childlist member that is the best one is promoted. *)
Lemma reselect_cases g g' :
  reselect g = Some g' →
  (g' = g ∧
     Forall (λ x, class_of (record x) = None ∧ is_Some (entry_stream_url x))
            (all_entries g)) ∨
  (g' = g ∧ ∃ k, first_of_class k (all_entries g) (Main g)) ∨
  (∃ best k, g' = promote g best ∧ first_of_class k (all_entries g) (Alt best)).
Proof.
  unfold reselect. destruct (find_best (all_entries g)) as [r|] eqn:Hf; [|done].
  apply find_best_spec in Hf. simpl. destruct r as [[e|best]|].
  - intros [= <-]. right. left. split; [done|].
    destruct Hf as (k & pre & post & Heq & Hrest). exists k.
    destruct (Main_all_entries _ _ _ _ Heq) as [-> ->]. by exists [], post.
  - intros [= <-]. right. right. destruct Hf as [k Hk]. by exists best, k.
  - intros [= <-]. by left.
Qed.

(** In a promotion the demoted entry does not carry the promoted URL: it
    is scanned first and would have been the match. *)
Lemma promoted_url_differs g best k :
  first_of_class k (all_entries g) (Alt best) →
  best ∈ childlist g ∧ stream_url (primary g) ≠ stream_url best.
Proof.
  intros (pre & post & Heq & Hc & Hpre & _). unfold all_entries in Heq.
  destruct pre as [|x pre]; [done|]. simpl in Heq. injection Heq as <- Hcl.
  split.
  - assert (Alt best ∈ Alt <$> childlist g) as Hin.
    { rewrite Hcl. apply elem_of_app. right. apply list_elem_of_here. }
    apply list_elem_of_fmap in Hin as (c & [= ->] & Hin). done.
  - apply Forall_cons in Hpre as [Hne _]. simpl in Hne.
    intros Hurl. apply Hne. unfold class_of in *. by rewrite Hurl.
Qed.

Lemma childlist_promote g best k :
  first_of_class k (all_entries g) (Alt best) →
  childlist (promote g best) =
    filter (λ e, stream_url e ≠ stream_url best) (childlist g) ++ [primary g].
Proof.
  intros [_ Hne]%promoted_url_differs. unfold promote. simpl.
  rewrite filter_app. f_equal. by rewrite filter_cons_True.
Qed.

(** Every group of the output comes from the group of its partition. *)
Lemma arrange_channels_group channels groups name g :
  arrange_channels channels = Some groups →
  (name, g) ∈ groups →
  ∃ g0, member_records name channels = primary g0 :: childlist g0 ∧
        reselect g0 = Some g.
Proof.
  intros Ha Hin.
  destruct (arrange_channels_elem _ _ _ _ Ha Hin) as (g0 & Hg0 & Hr).
  exists g0. split; [|done]. unfold member_records.
  destruct (members name channels) as [|first rest]; simpl in Hg0; [done|].
  by injection Hg0 as <-.
Qed.

Lemma test_of_other u k j : priority_class u = Some j → j ≠ k → test_of k u = false.
Proof.
  intros Hj Hne. destruct (test_of k u) eqn:Ht; [|done].
  apply test_of_class in Ht. congruence.
Qed.

(** The entries of one name, in the order http-ipv4, https-ipv6,
    https-ipv4: the third one becomes the primary. *)
Lemma arrange_three key1 key2 key3 i1 i2 i3 u1 u2 u3 :
  name_of i2 = name_of i1 → name_of i3 = name_of i1 →
  ci_stream_url i1 = Some u1 → ci_stream_url i2 = Some u2 →
  ci_stream_url i3 = Some u3 →
  priority_class u1 = Some 2 → priority_class u2 = Some 3 →
  priority_class u3 = Some 1 →
  ∃ g, arrange_channels [(key1, i1); (key2, i2); (key3, i3)]
         = Some [(name_of i1, g)] ∧
       primary g = child_of i3.
Proof.
  intros Hn2 Hn3 Hu1 Hu2 Hu3 Hc1 Hc2 Hc3.
  pose (g0 cl := {| g_source_url := ci_source_url i1;
                    g_channel_name := name_of i1;
                    g_stream_url := ci_stream_url i1;
                    g_attributes := default ∅ (ci_attributes i1);
                    childlist := cl |}).
  assert (group_step [] (key1, i1) = [(name_of i1, g0 [])]) as H1 by done.
  assert (group_step [(name_of i1, g0 [])] (key2, i2)
          = [(name_of i1, g0 [child_of i2])]) as H2.
  { unfold group_step. simpl. rewrite Hn2, !decide_True by done. done. }
  assert (group_step [(name_of i1, g0 [child_of i2])] (key3, i3)
          = [(name_of i1, g0 [child_of i2; child_of i3])]) as H3.
  { unfold group_step. simpl. rewrite Hn3, !decide_True by done. done. }
  unfold arrange_channels, group_channels. cbn [foldl]. rewrite H1, H2, H3.
  assert (find_best (all_entries (g0 [child_of i2; child_of i3]))
          = Some (Some (Alt (child_of i3)))) as Hbest.
  { unfold find_best, all_entries. simpl. rewrite Hu1, Hu2, Hu3.
    change https_v4 with (test_of 1).
    rewrite (test_of_other u1 1 2), (test_of_other u2 1 3) by done.
    by rewrite (proj2 (test_of_class u3 1) Hc3). }
  simpl. unfold reselect. rewrite Hbest. simpl.
  eexists. split; [done|]. by rewrite primary_promote.
Qed.

Lemma first_of_class_records k k' g0 e :
  first_of_class k' (all_entries g0) e →
  best_class k (primary g0 :: childlist g0) →
  ∃ pre post,
    primary g0 :: childlist g0 = pre ++ record e :: post ∧
    class_of (record e) = Some k ∧
    Forall (λ r, class_of r ≠ Some k) pre.
Proof.
  intros (pre & post & Heq & Hc & Hpre & Hmin) [(r & Hr & Hrk) Hleast].
  rewrite <- all_entries_records in Hr, Hleast |- *.
  assert (k' = k) as ->.
  { apply Nat.le_antisymm.
    - apply list_elem_of_fmap in Hr as (x & -> & Hx).
      rewrite Forall_forall in Hmin. by apply (Hmin x).
    - apply (Hleast (record e)); [|done]. apply list_elem_of_fmap.
      exists e. split; [done|]. rewrite Heq. apply elem_of_app. right.
      apply list_elem_of_here. }
  exists (record <$> pre), (record <$> post).
  split_and!; [by rewrite Heq, fmap_app | done | by apply Forall_fmap].
Qed.

(** ** The run succeeds on a store whose entries all have a stream URL *)

Lemma scan_is_Some test es :
  Forall (λ e, is_Some (entry_stream_url e)) es → is_Some (scan test es).
Proof.
  induction 1 as [|e es [u Hu] _ IH]; simpl; [done|].
  rewrite Hu. by destruct (test u).
Qed.

Lemma find_best_is_Some es :
  Forall (λ e, is_Some (entry_stream_url e)) es → is_Some (find_best es).
Proof.
  intros Hes. unfold find_best, pass.
  destruct (scan_is_Some https_v4 es Hes) as [[?|] ->]; simpl; [done|].
  destruct (scan_is_Some http_v4 es Hes) as [[?|] ->]; simpl; [done|].
  destruct (scan_is_Some https_v6 es Hes) as [[?|] ->]; simpl; [done|].
  by apply scan_is_Some.
Qed.

Lemma reselect_is_Some g :
  Forall (λ c, is_Some (stream_url c)) (primary g :: childlist g) →
  is_Some (reselect g).
Proof.
  intros Hg. unfold reselect.
  destruct (find_best_is_Some (all_entries g)) as [r ->].
  - rewrite <- all_entries_records in Hg. rewrite Forall_fmap in Hg.
    eapply Forall_impl; [exact Hg|]. intros e. simpl.
    by rewrite entry_stream_url_record.
  - simpl. by destruct r as [[|]|].
Qed.

Lemma arrange_channels_total channels :
  Forall (λ item, is_Some (ci_stream_url item.2)) channels →
  is_Some (arrange_channels channels).
Proof.
  intros Hall. apply mapM_is_Some_2, Forall_forall. intros [name g] Hin.
  apply elem_get in Hin; [|apply group_channels_NoDup].
  rewrite group_channels_get in Hin. simpl.
  assert (Forall (λ item, is_Some (ci_stream_url item.2)) (members name channels))
    as Hm.
  { unfold members. apply Forall_forall. intros x [_ Hx]%list_elem_of_filter.
    rewrite Forall_forall in Hall. auto. }
  destruct (members name channels) as [|first rest]; simpl in Hin; [done|].
  injection Hin as <-.
  destruct (reselect_is_Some
              {| g_source_url := ci_source_url first.2;
                 g_channel_name := name;
                 g_stream_url := ci_stream_url first.2;
                 g_attributes := default ∅ (ci_attributes first.2);
                 childlist := (λ item, child_of item.2) <$> rest |}) as [g' ->];
    [|done].
  apply Forall_cons in Hm as [Hfirst Hrest].
  constructor; [done|]. simpl. by apply Forall_fmap.
Qed.

(** The shape of every group of the output, by whether the first-seen
    member stayed in the primary slot. *)
Lemma arrange_channels_shape channels groups name g :
  arrange_channels channels = Some groups →
  (name, g) ∈ groups →
  ∃ first rest,
    member_records name channels = first :: rest ∧
    ((primary g = first ∧ childlist g = rest) ∨
     (primary g ∈ rest ∧ stream_url (primary g) ≠ stream_url first ∧
      childlist g =
        filter (λ e, stream_url e ≠ stream_url (primary g)) rest ++ [first])).
Proof.
  intros Ha Hin.
  destruct (arrange_channels_group _ _ _ _ Ha Hin) as (g0 & Hrec & Hr).
  exists (primary g0), (childlist g0). split; [done|].
  destruct (reselect_cases _ _ Hr)
    as [[-> _] | [[-> _] | (best & k & -> & Hf)]]; [by left | by left |].
  right. rewrite primary_promote.
  destruct (promoted_url_differs _ _ _ Hf) as [Hbest Hne].
  split_and!; [done | congruence | by eapply childlist_promote].
Qed.

End ArrangeFacts.

(** ** The repair loop *)

Module RecheckFacts.
Import Py Recheck RecheckSpec DictFacts.

Section WithNetwork.
Context {World : Type} (head : list N → World → bool * World).
Implicit Types (w : World) (st : State World) (cl : list Child).

Lemma check_child_spec acc c :
  check_child head acc c =
    (acc.1 ++ (if (probe_child head c acc.2).1 then [c] else []),
     (probe_child head c acc.2).2).
Proof.
  unfold check_child, probe_child. destruct acc as [l w]. simpl.
  destruct (stream_url c) as [[|a u]|]; simpl; rewrite ?app_nil_r; try done.
  destruct (head (a :: u) w) as [[] w']; simpl; by rewrite ?app_nil_r.
Qed.

Lemma foldl_check_child cl acc w :
  foldl (check_child head) (acc, w) cl =
    (acc ++ reachable head cl w, after_childlist head cl w).
Proof.
  revert acc w. induction cl as [|c cl IH]; intros acc w; simpl.
  - by rewrite app_nil_r.
  - rewrite check_child_spec. simpl. rewrite IH. unfold reachable. simpl.
    destruct (probe_child head c w).1; simpl; [|by rewrite app_nil_r].
    by rewrite <- app_assoc.
Qed.

(** The loop over the childlist keeps the members that probe reachable. *)
Lemma check_childlist_spec cl w :
  check_childlist head cl w = (reachable head cl w, after_childlist head cl w).
Proof. unfold check_childlist. by rewrite foldl_check_child. Qed.

Lemma run_app total st items1 items2 :
  run head total st (items1 ++ items2) =
    run head total (run head total st items1) items2.
Proof. unfold run. apply foldl_app. Qed.

Lemma world_step total total' st st' item :
  world st = world st' →
  world (step head total st item) = world (step head total' st' item).
Proof.
  intros Hw. unfold step. rewrite Hw.
  by destruct (recheck_group head item.2 (world st')).1.
Qed.

(** The network does not depend on the counter or on the file. *)
Lemma world_run total total' st st' items :
  world st = world st' →
  world (run head total st items) = world (run head total' st' items).
Proof.
  revert st st'. induction items as [|item items IH]; intros st st' Hw; [done|].
  simpl. apply IH. by apply world_step.
Qed.

Lemma step_final total st item :
  final_channels (step head total st item) =
    match (recheck_group head item.2 (world st)).1 with
    | Some g => Dict.set item.1 g (final_channels st)
    | None => final_channels st
    end.
Proof. unfold step. by destruct (recheck_group head item.2 (world st)).1. Qed.

Lemma run_get_other total st items name :
  name ∉ Dict.keys items →
  Dict.get name (final_channels (run head total st items)) =
    Dict.get name (final_channels st).
Proof.
  revert st. unfold Dict.keys.
  induction items as [|item items IH]; intros st Hname; [done|].
  rewrite fmap_cons in Hname. apply not_elem_of_cons in Hname as [Hne Hname].
  simpl. rewrite IH by done. rewrite step_final.
  destruct (recheck_group head item.2 (world st)).1; [|done].
  by rewrite get_set_ne.
Qed.

Lemma run_keys total st items name :
  name ∈ Dict.keys (final_channels (run head total st items)) →
  name ∈ Dict.keys (final_channels st) ∨ name ∈ Dict.keys items.
Proof.
  intros Hin. destruct (decide (name ∈ Dict.keys items)) as [|Hnin]; [by right|].
  left. destruct (Dict.get name (final_channels st)) as [g|] eqn:Hg.
  - apply get_Some_elem in Hg. apply list_elem_of_fmap. by exists (name, g).
  - exfalso. rewrite <- (run_get_other total st items name Hnin) in Hg.
    by apply get_None_keys in Hg.
Qed.

(** The entry of a group in the final mapping is decided when the group is
    processed: it is the repaired group, or missing. *)
Lemma recheck_get channels file0 w pre name g post :
  NoDup (Dict.keys channels) →
  channels = pre ++ (name, g) :: post →
  Dict.get name (final_channels (recheck_arranged_channels head channels file0 w))
    = (recheck_group head g (world_after head pre w)).1.
Proof.
  intros Hnd ->. unfold recheck_arranged_channels.
  set (total := length (pre ++ (name, g) :: post)).
  unfold Dict.keys in Hnd. rewrite fmap_app, fmap_cons in Hnd.
  apply NoDup_app in Hnd as (_ & Hpre & [Hpost _]%NoDup_cons). simpl in *.
  rewrite run_app. simpl. fold (run head total).
  rewrite run_get_other by done. rewrite step_final. simpl.
  unfold world_after.
  rewrite (world_run total 0 (init file0 w) (init None w) pre) by done.
  unfold recheck_group. simpl.
  destruct (repaired _ _ _) as [g'|]; [by rewrite get_set_eq|].
  apply get_None_keys. intros [Hin | Hin]%run_keys.
  - by apply elem_of_nil in Hin.
  - eapply Hpre; [exact Hin | apply list_elem_of_here].
Qed.

Lemma marked_all_false cl bs : Forall (λ b, b = false) bs → marked cl bs = [].
Proof.
  intros Hbs. revert cl. induction Hbs as [|b bs -> _ IH]; intros [|c cl]; simpl; auto.
Qed.

Lemma marked_nil_outcomes cl w :
  reachable head cl w = [] → Forall (λ b, b = false) (outcomes head cl w).
Proof.
  unfold reachable. revert w. induction cl as [|c cl IH]; intros w; simpl; [done|].
  destruct (probe_child head c w).1; [done|]. intros H. constructor; auto.
Qed.

(** Every entry of the final mapping is the repaired form of a group of
    the input. *)
Lemma run_elem total items st name g' :
  (name, g') ∈ final_channels (run head total st items) →
  (name, g') ∈ final_channels st ∨
  ∃ pre g post, items = pre ++ (name, g) :: post ∧
    (recheck_group head g (world (run head total st pre))).1 = Some g'.
Proof.
  revert st. induction items as [|item items IH]; intros st; simpl; [by left|].
  intros [Hin | (pre & g & post & -> & Hg)]%IH.
  - rewrite step_final in Hin.
    destruct (recheck_group head item.2 (world st)).1 as [g0|] eqn:Hr; [|by left].
    apply elem_set in Hin as [[= -> ->] | Hin]; [right | by left].
    exists [], item.2, items. split; [by destruct item | done].
  - right. by exists (item :: pre), g, post.
Qed.

(** ** The writes of the output file *)

Lemma step_kept total st item g :
  (recheck_group head item.2 (world st)).1 = Some g →
  checked_groups (step head total st item) = S (checked_groups st) ∧
  (S (checked_groups st) = total →
   output_file (step head total st item)
     = Some (final_channels (step head total st item))).
Proof.
  intros Hg. unfold step. rewrite Hg. simpl. split; [done|].
  intros ->. rewrite (bool_decide_eq_true_2 (total = total)) by done.
  by rewrite orb_true_r.
Qed.

Lemma kept_count total st items :
  (∀ pre name g post, items = pre ++ (name, g) :: post →
     is_Some (recheck_group head g (world (run head total st pre))).1) →
  checked_groups (run head total st items) = checked_groups st + length items.
Proof.
  induction items as [|[name g] items IH] using rev_ind; intros Hkept.
  - simpl. lia.
  - rewrite run_app, length_app. simpl.
    destruct (Hkept items name g []) as [g' Hg']; [done|].
    destruct (step_kept total (run head total st items) (name, g) g' Hg')
      as [-> _].
    rewrite IH; [lia|]. intros pre n0 g0 post ->.
    apply (Hkept pre n0 g0 (post ++ [(name, g)])).
    by rewrite <- app_assoc.
Qed.

(** When no group is removed, the last group triggers the write of the
    whole final mapping. *)
Lemma all_kept_written channels file0 w :
  channels ≠ [] →
  (∀ pre name g post, channels = pre ++ (name, g) :: post →
     is_Some (recheck_group head g (world_after head pre w)).1) →
  output_file (recheck_arranged_channels head channels file0 w)
    = Some (final_channels (recheck_arranged_channels head channels file0 w)).
Proof.
  intros Hne Hkept. unfold recheck_arranged_channels.
  set (total := length channels).
  assert (∀ pre name g post, channels = pre ++ (name, g) :: post →
            is_Some (recheck_group head g
                       (world (run head total (init file0 w) pre))).1) as Hk.
  { intros pre name g post Heq.
    rewrite (world_run total 0 (init file0 w) (init None w) pre) by done.
    by eapply Hkept. }
  clear Hkept. subst total.
  destruct channels as [|last channels _] using rev_ind; [done|]. clear Hne.
  destruct last as [name g]. rewrite run_app. simpl.
  destruct (Hk channels name g []) as [g' Hg']; [done|].
  set (total := length (channels ++ [(name, g)])) in *.
  destruct (step_kept total (run head total (init file0 w) channels)
              (name, g) g' Hg') as [_ Hw].
  apply Hw. rewrite kept_count.
  - subst total. rewrite length_app. simpl. lia.
  - intros pre n0 g0 post ->. apply (Hk pre n0 g0 (post ++ [(name, g)])).
    by rewrite <- app_assoc.
Qed.

End WithNetwork.

(** A member kept by [marked] stands at a position marked [true]. *)
Lemma marked_lookup (cl : list Child) (bs : list bool) (c : Child) :
  c ∈ marked cl bs → ∃ i, cl !! i = Some c ∧ bs !! i = Some true.
Proof.
  revert bs. induction cl as [|x cl IH]; intros [|b bs]; simpl;
    try (by intros ?%elem_of_nil).
  destruct b.
  - intros [->|Hc]%elem_of_cons; [by exists 0|].
    destruct (IH bs Hc) as (i & ? & ?). by exists (S i).
  - intros Hc. destruct (IH bs Hc) as (i & ? & ?). by exists (S i).
Qed.

End RecheckFacts.

(** * The grouped mapping of [arrange_channels] *)

Module ArrangeClaims.
Import Py Arrange ArrangeSpec DictFacts ArrangeFacts.

(** C1, as stated, fails on a store of one name whose endpoints are
    [http://h/q] and [https://h/p?x=[1]], in this order.  By its scheme and
    its host the second is of class 1, secure with a host that is not
    bracketed, and the first of class 2, so that class 1 is the highest
    class that is not empty; yet the first endpoint stays primary, because
    line 58 looks for the bracket in the whole URL, not in the host. *)
Lemma primary_not_of_best_worded_class :
  arrange_channels SpecClasses.store_query
    = Some [(lit "Channel A", SpecClasses.group_query)] ∧
  member_records (lit "Channel A") SpecClasses.store_query
    = [Samples.rec "m1" "http://h/q"; Samples.rec "m1" "https://h/p?x=[1]"] ∧
  SpecClasses.worded_best_class 1
    (member_records (lit "Channel A") SpecClasses.store_query) ∧
  SpecClasses.worded_class_of (primary SpecClasses.group_query) = Some 2 ∧
  class_of (Samples.rec "m1" "https://h/p?x=[1]") = Some 3.
Proof.
  split; [vm_compute; reflexivity|]. split; [vm_compute; reflexivity|].
  split; [|split; vm_compute; reflexivity]. split.
  - exists (Samples.rec "m1" "https://h/p?x=[1]").
    split; [|vm_compute; reflexivity].
    change (member_records (lit "Channel A") SpecClasses.store_query)
      with [Samples.rec "m1" "http://h/q"; Samples.rec "m1" "https://h/p?x=[1]"].
    apply list_elem_of_further, list_elem_of_here.
  - intros r j Hr Hj.
    change (member_records (lit "Channel A") SpecClasses.store_query)
      with [Samples.rec "m1" "http://h/q"; Samples.rec "m1" "https://h/p?x=[1]"]
      in Hr.
    repeat (apply elem_of_cons in Hr as [-> | Hr]);
      [vm_compute in Hj; injection Hj as <-; lia ..
      | by apply elem_of_nil in Hr].
Qed.

(** C1, amended.  In every group of the mapping built by
    [arrange_channels] the primary is the first member of the partition, in
    the order of the store (the primary slot before the childlist), whose
    endpoint is of the highest priority class that is not empty, the
    classes being those of the tests of lines 58-82: class 1 is a URL that
    starts with [https://] and has no opening square bracket anywhere,
    class 2 one that starts with [http://] and has none, class 3 one that
    starts with [https://] and has one, class 4 one that starts with
    [http://] and has one.  In particular three entries of one name, in the
    order http-ipv4, https-ipv6, https-ipv4, give a group whose primary is
    the https-ipv4 entry. *)
Theorem primary_first_of_best_class :
  (∀ channels groups name g k,
      arrange_channels channels = Some groups →
      (name, g) ∈ groups →
      best_class k (member_records name channels) →
      ∃ pre post,
        member_records name channels = pre ++ primary g :: post ∧
        class_of (primary g) = Some k ∧
        Forall (λ r, class_of r ≠ Some k) pre) ∧
  (∀ key1 key2 key3 i1 i2 i3 u1 u2 u3,
      name_of i2 = name_of i1 → name_of i3 = name_of i1 →
      ci_stream_url i1 = Some u1 → ci_stream_url i2 = Some u2 →
      ci_stream_url i3 = Some u3 →
      priority_class u1 = Some 2 → priority_class u2 = Some 3 →
      priority_class u3 = Some 1 →
      ∃ g, arrange_channels [(key1, i1); (key2, i2); (key3, i3)]
             = Some [(name_of i1, g)] ∧
           primary g = child_of i3).
Proof.
  split; [|apply arrange_three].
  intros channels groups name g k Ha Hin Hbest.
  destruct (arrange_channels_group _ _ _ _ Ha Hin) as (g0 & Hrec & Hr).
  rewrite Hrec in Hbest |- *.
  destruct (reselect_cases _ _ Hr)
    as [[-> Hnone] | [[-> [k' Hf]] | (best & k' & -> & Hf)]].
  - destruct Hbest as [(r & Hin' & Hrk) _].
    rewrite <- all_entries_records in Hin'.
    apply list_elem_of_fmap in Hin' as (x & -> & Hx).
    rewrite Forall_forall in Hnone. destruct (Hnone x Hx) as [Hn _]. congruence.
  - apply (first_of_class_records k k' g0 (Main g0) Hf Hbest).
  - rewrite primary_promote.
    apply (first_of_class_records k k' g0 (Alt best) Hf Hbest).
Qed.

Lemma primary_first_of_best_class_witness :
  (∃ pre post,
      member_records (lit "Channel A") Samples.store_priority
        = pre ++ primary Samples.group_priority :: post ∧
      class_of (primary Samples.group_priority) = Some 1 ∧
      Forall (λ r, class_of r ≠ Some 1) pre) ∧
  (∃ g, arrange_channels Samples.store_priority
          = Some [(name_of Samples.i_http4, g)] ∧
        primary g = child_of Samples.i_https4).
Proof.
  split.
  - apply (proj1 primary_first_of_best_class Samples.store_priority
             [(lit "Channel A", Samples.group_priority)]).
    + vm_compute. reflexivity.
    + apply list_elem_of_here.
    + split.
      * exists (child_of Samples.i_https4). split; [|vm_compute; reflexivity].
        do 2 apply list_elem_of_further. apply list_elem_of_here.
      * intros r j Hr Hj.
        change (member_records (lit "Channel A") Samples.store_priority)
          with [child_of Samples.i_http4; child_of Samples.i_https6;
                child_of Samples.i_https4] in Hr.
        repeat (apply elem_of_cons in Hr as [-> | Hr]);
          [vm_compute in Hj; injection Hj as <-; lia ..
          | by apply elem_of_nil in Hr].
  - apply (proj2 primary_first_of_best_class _ _ _ _ _ _
             (lit "http://1.2.3.4/a") (lit "https://[2001:db8::1]/a")
             (lit "https://1.2.3.4/a")); vm_compute; reflexivity.
Defined.

(** C2, as stated, fails on the sample store: the https-ipv4 member is
    promoted and the demoted http-ipv4 member, first in the store, is last
    in the childlist. *)
Lemma overflow_not_in_store_order :
  arrange_channels Samples.store_priority
    = Some [(lit "Channel A", Samples.group_priority)] ∧
  childlist Samples.group_priority
    ≠ without (primary Samples.group_priority)
        (member_records (lit "Channel A") Samples.store_priority).
Proof. split; [vm_compute; reflexivity | vm_compute; discriminate]. Qed.

(** C2, amended.  In every group of the mapping built by
    [arrange_channels], when the first-seen member of the partition stays
    primary the childlist is the other members in the order of the store;
    when a later member is promoted the childlist is the later members in
    the order of the store, without the records carrying the promoted
    stream URL, followed by the demoted first-seen member. *)
Theorem overflow_after_selection channels groups name g :
  arrange_channels channels = Some groups →
  (name, g) ∈ groups →
  ∃ first rest,
    member_records name channels = first :: rest ∧
    ((primary g = first ∧ childlist g = rest) ∨
     (primary g ∈ rest ∧ stream_url (primary g) ≠ stream_url first ∧
      childlist g =
        filter (λ e, stream_url e ≠ stream_url (primary g)) rest ++ [first])).
Proof.
  intros Ha Hin.
  destruct (arrange_channels_group _ _ _ _ Ha Hin) as (g0 & Hrec & Hr).
  exists (primary g0), (childlist g0). split; [done|].
  destruct (reselect_cases _ _ Hr)
    as [[-> _] | [[-> _] | (best & k & -> & Hf)]].
  - (* no entry has a class: the group is left as grouped *)
    by left.
  - (* the first-seen member is the best entry *)
    by left.
  - (* a childlist member is promoted *)
    right. rewrite primary_promote.
    destruct (promoted_url_differs _ _ _ Hf) as [Hbest Hne].
    split_and!; [done | congruence |].
    unfold promote. simpl. rewrite filter_app. f_equal.
    by rewrite filter_cons_True.
Qed.

Lemma overflow_after_selection_witness :
  ∃ first rest,
    member_records (lit "Channel A") Samples.store_priority = first :: rest ∧
    ((primary Samples.group_priority = first ∧
      childlist Samples.group_priority = rest) ∨
     (primary Samples.group_priority ∈ rest ∧
      stream_url (primary Samples.group_priority) ≠ stream_url first ∧
      childlist Samples.group_priority =
        filter (λ e, stream_url e ≠ stream_url (primary Samples.group_priority))
               rest ++ [first])).
Proof.
  apply (overflow_after_selection Samples.store_priority
           [(lit "Channel A", Samples.group_priority)]).
  - vm_compute. reflexivity.
  - apply list_elem_of_here.
Defined.

(** C5, as stated, fails on a store listing one pair twice: the first
    occurrence stays primary and the second is in the childlist. *)
Lemma primary_repeated_in_overflow :
  arrange_channels Samples.store_twice
    = Some [(lit "Channel A", Samples.group_twice)] ∧
  primary Samples.group_twice ∈ childlist Samples.group_twice.
Proof. split; [vm_compute; reflexivity | apply list_elem_of_here]. Qed.

(** C5, amended.  In every group of the mapping built by
    [arrange_channels] the primary record is a member of the childlist
    exactly when the first-seen member of the partition stayed primary and
    its record occurs again among the later members. *)
Theorem primary_in_overflow_iff channels groups name g first rest :
  arrange_channels channels = Some groups →
  (name, g) ∈ groups →
  member_records name channels = first :: rest →
  primary g ∈ childlist g ↔ primary g = first ∧ first ∈ rest.
Proof.
  intros Ha Hin Hrec.
  destruct (arrange_channels_shape _ _ _ _ Ha Hin)
    as (first' & rest' & Hrec' & Hshape).
  rewrite Hrec in Hrec'. injection Hrec' as <- <-.
  destruct Hshape as [[Hp Hc] | (Hp & Hne & Hc)].
  - rewrite Hc, Hp. split; [by intros ? | by intros [_ ?]].
  - rewrite Hc. split.
    + intros [Hf | Hl]%elem_of_app.
      * apply list_elem_of_filter in Hf as [Hf _]. done.
      * apply list_elem_of_singleton in Hl. congruence.
    + intros [Heq _]. congruence.
Qed.

Lemma primary_in_overflow_iff_witness :
  primary Samples.group_priority ∈ childlist Samples.group_priority ↔
  primary Samples.group_priority = child_of Samples.i_http4 ∧
  child_of Samples.i_http4
    ∈ [child_of Samples.i_https6; child_of Samples.i_https4].
Proof.
  apply (primary_in_overflow_iff Samples.store_priority
           [(lit "Channel A", Samples.group_priority)] (lit "Channel A")).
  - vm_compute. reflexivity.
  - apply list_elem_of_here.
  - vm_compute. reflexivity.
Defined.

(** C10.  When a later member of the partition is promoted (the primary of
    the group is then not the first-seen record), every childlist record
    carrying the promoted stream URL is removed: no record with that URL is
    in the childlist of the group, be it the promoted one or another record
    sharing its URL, and the later members with another URL are kept. *)
Theorem promotion_drops_promoted_url channels groups name g first rest :
  arrange_channels channels = Some groups →
  (name, g) ∈ groups →
  member_records name channels = first :: rest →
  primary g ≠ first →
  primary g ∈ rest ∧
  (∀ c, stream_url c = stream_url (primary g) → c ∉ childlist g) ∧
  (∀ c, c ∈ rest → stream_url c ≠ stream_url (primary g) → c ∈ childlist g).
Proof.
  intros Ha Hin Hrec Hpromoted.
  destruct (arrange_channels_shape _ _ _ _ Ha Hin)
    as (first' & rest' & Hrec' & Hshape).
  rewrite Hrec in Hrec'. injection Hrec' as <- <-.
  destruct Hshape as [[Hp _] | (Hp & Hne & Hc)]; [done|].
  split_and!; [done | |].
  - intros c Hurl. rewrite Hc. intros [Hf | Hl]%elem_of_app.
    + apply list_elem_of_filter in Hf as [Hf _]. done.
    + apply list_elem_of_singleton in Hl. congruence.
  - intros c Hc' Hurl. rewrite Hc. apply elem_of_app. left.
    by apply list_elem_of_filter.
Qed.

Lemma promotion_drops_promoted_url_witness :
  primary Samples.group_shared
    ∈ [child_of Samples.i_https4; Samples.rec "m2" "https://1.2.3.4/a"] ∧
  (∀ c, stream_url c = stream_url (primary Samples.group_shared) →
        c ∉ childlist Samples.group_shared) ∧
  (∀ c, c ∈ [child_of Samples.i_https4; Samples.rec "m2" "https://1.2.3.4/a"] →
        stream_url c ≠ stream_url (primary Samples.group_shared) →
        c ∈ childlist Samples.group_shared).
Proof.
  apply (promotion_drops_promoted_url Samples.store_shared
           [(lit "Channel A", Samples.group_shared)] (lit "Channel A")
           Samples.group_shared (child_of Samples.i_http4)).
  - vm_compute. reflexivity.
  - apply list_elem_of_here.
  - vm_compute. reflexivity.
  - vm_compute. discriminate.
Defined.

End ArrangeClaims.

(** * The final mapping of [recheck_arranged_channels] *)

Module RecheckClaims.
Import Py Recheck RecheckSpec DictFacts RecheckFacts.

Section WithNetwork.
Context {World : Type} (head : list N → World → bool * World).

(** C3.  A group whose primary probes not reachable while some member of
    its childlist probes reachable is stored with the first reachable
    member of the childlist, in the original order, as its primary, and
    with the remaining reachable members, in that order, as its childlist.
    In particular, with the childlist [A; B; C] probing not reachable,
    reachable, reachable, the stored group has the primary [B] and the
    childlist [C]. *)
Theorem promotes_first_reachable :
  (∀ channels file0 w pre name g post,
      NoDup (Dict.keys channels) →
      channels = pre ++ (name, g) :: post →
      let m := check_main head g (world_after head pre w) in
      m.1 = false →
      true ∈ outcomes head (childlist g) m.2 →
      ∃ first_playable rest,
        reachable head (childlist g) m.2 = first_playable :: rest ∧
        Dict.get name
          (final_channels (recheck_arranged_channels head channels file0 w))
          = Some {| g_source_url := source_url first_playable;
                    g_channel_name := g_channel_name g;
                    g_stream_url := stream_url first_playable;
                    g_attributes := attributes first_playable;
                    childlist := rest |}) ∧
  (∀ channels file0 w pre name g post A B C,
      NoDup (Dict.keys channels) →
      channels = pre ++ (name, g) :: post →
      let m := check_main head g (world_after head pre w) in
      m.1 = false →
      childlist g = [A; B; C] →
      outcomes head [A; B; C] m.2 = [false; true; true] →
      Dict.get name
        (final_channels (recheck_arranged_channels head channels file0 w))
        = Some {| g_source_url := source_url B;
                  g_channel_name := g_channel_name g;
                  g_stream_url := stream_url B;
                  g_attributes := attributes B;
                  childlist := [C] |}).
Proof.
  split.
  - intros channels file0 w pre name g post Hnd Heq m Hmain Hsome.
    rewrite (recheck_get head channels file0 w pre name g post Hnd Heq).
    unfold recheck_group. fold m. rewrite check_childlist_spec. simpl.
    rewrite Hmain. unfold repaired.
    destruct (reachable head (childlist g) m.2) as [|c cs] eqn:Hr.
    + apply marked_nil_outcomes in Hr. rewrite Forall_forall in Hr.
      by specialize (Hr true Hsome).
    + by exists c, cs.
  - intros channels file0 w pre name g post A B C Hnd Heq m Hmain Hcl Hout.
    rewrite (recheck_get head channels file0 w pre name g post Hnd Heq).
    unfold recheck_group. fold m. rewrite check_childlist_spec. simpl.
    rewrite Hmain. unfold repaired, reachable. by rewrite Hcl, Hout.
Qed.

(** C4.  A group whose primary and childlist members all probe not
    reachable has no entry in the final mapping, and every group of the
    final mapping has a member that probed reachable, namely its primary:
    it comes from a group of the input of the same name, and its primary
    is either the primary of that group, whose probe succeeded, or, that
    probe having failed, a member of the childlist of that group whose own
    probe succeeded. *)
Theorem dead_groups_removed :
  (∀ channels file0 w pre name g post,
      NoDup (Dict.keys channels) →
      channels = pre ++ (name, g) :: post →
      let m := check_main head g (world_after head pre w) in
      m.1 = false →
      Forall (λ b, b = false) (outcomes head (childlist g) m.2) →
      Dict.get name
        (final_channels (recheck_arranged_channels head channels file0 w))
        = None) ∧
  (∀ channels file0 w name g',
      (name, g')
        ∈ final_channels (recheck_arranged_channels head channels file0 w) →
      ∃ pre g post,
        channels = pre ++ (name, g) :: post ∧
        let m := check_main head g (world_after head pre w) in
        (m.1 = true ∧ Arrange.primary g' = Arrange.primary g) ∨
        (m.1 = false ∧
         ∃ i c, childlist g !! i = Some c ∧
                outcomes head (childlist g) m.2 !! i = Some true ∧
                Arrange.primary g' = c)).
Proof.
  split.
  - intros channels file0 w pre name g post Hnd Heq m Hmain Hdead.
    rewrite (recheck_get head channels file0 w pre name g post Hnd Heq).
    unfold recheck_group. fold m. rewrite check_childlist_spec. simpl.
    rewrite Hmain. unfold repaired, reachable.
    by rewrite marked_all_false.
  - intros channels file0 w name g' Hin. unfold recheck_arranged_channels in Hin.
    apply run_elem in Hin as [Hin | (pre & g & post & -> & Hg)];
      [by apply elem_of_nil in Hin|].
    exists pre, g, post. split; [done|]. intros m.
    unfold recheck_group in Hg. rewrite check_childlist_spec in Hg. simpl in Hg.
    rewrite (world_run head _ 0 _ (init None w) pre) in Hg by done.
    fold (world_after head pre w) in Hg. fold m in Hg.
    unfold repaired in Hg. destruct m.1.
    + left. split; [done|]. by injection Hg as <-.
    + right. split; [done|].
      destruct (reachable head (childlist g) m.2) as [|first rest] eqn:Hr;
        [done|].
      injection Hg as <-.
      assert (first ∈ marked (childlist g) (outcomes head (childlist g) m.2))
        as Hfirst.
      { unfold reachable in Hr. rewrite Hr. apply list_elem_of_here. }
      apply marked_lookup in Hfirst as (i & Hi & Hb).
      exists i, first. split; [done|]. split; [done|]. by destruct first.
Qed.

End WithNetwork.

Lemma promotes_first_reachable_witness :
  (∃ first_playable rest,
      reachable Samples.network (childlist Samples.g_live) ()
        = first_playable :: rest ∧
      Dict.get (lit "Live")
        (final_channels
           (recheck_arranged_channels Samples.network Samples.arranged None ()))
        = Some {| g_source_url := source_url first_playable;
                  g_channel_name := lit "Live";
                  g_stream_url := stream_url first_playable;
                  g_attributes := attributes first_playable;
                  childlist := rest |}) ∧
  Dict.get (lit "Live")
    (final_channels
       (recheck_arranged_channels Samples.network Samples.arranged None ()))
    = Some Samples.g_repaired.
Proof.
  split.
  - apply (proj1 (promotes_first_reachable Samples.network)
             Samples.arranged None () [(lit "Dead", Samples.g_dead)]
             (lit "Live") Samples.g_live []).
    + apply (bool_decide_unpack _). vm_compute. exact I.
    + reflexivity.
    + reflexivity.
    + vm_compute. apply list_elem_of_further, list_elem_of_here.
  - apply (proj2 (promotes_first_reachable Samples.network)
             Samples.arranged None () [(lit "Dead", Samples.g_dead)]
             (lit "Live") Samples.g_live []
             (Samples.rec "m1" "http://a/") (Samples.rec "m2" "http://b/")
             (Samples.rec "m3" "http://c/")).
    + apply (bool_decide_unpack _). vm_compute. exact I.
    + reflexivity.
    + reflexivity.
    + reflexivity.
    + vm_compute. reflexivity.
Defined.

Lemma dead_groups_removed_witness :
  Dict.get (lit "Dead")
    (final_channels
       (recheck_arranged_channels Samples.network Samples.arranged None ()))
    = None ∧
  ∃ pre g post,
    Samples.arranged = pre ++ (lit "Live", g) :: post ∧
    let m := check_main Samples.network g (world_after Samples.network pre ()) in
    (m.1 = true ∧ Arrange.primary Samples.g_repaired = Arrange.primary g) ∨
    (m.1 = false ∧
     ∃ i c, childlist g !! i = Some c ∧
            outcomes Samples.network (childlist g) m.2 !! i = Some true ∧
            Arrange.primary Samples.g_repaired = c).
Proof.
  split.
  - apply (proj1 (dead_groups_removed Samples.network)
             Samples.arranged None () [] (lit "Dead") Samples.g_dead
             [(lit "Live", Samples.g_live)]).
    + apply (bool_decide_unpack _). vm_compute. exact I.
    + reflexivity.
    + reflexivity.
    + vm_compute. repeat constructor.
  - apply (proj2 (dead_groups_removed Samples.network)
             Samples.arranged None () (lit "Live") Samples.g_repaired).
    vm_compute. apply list_elem_of_here.
Defined.

(** C8, on the sample mapping: the first group is removed, the second is
    kept, and the run ends with the final mapping of one group while the
    output file was never written.  The counter only counts the groups
    kept, so it is 1 after the last group, neither a multiple of 10 nor the
    number of groups read. *)
Lemma final_mapping_not_written :
  let st := recheck_arranged_channels Samples.network Samples.arranged None () in
  final_channels st = [(lit "Live", Samples.g_repaired)] ∧
  checked_groups st = 1 ∧
  output_file st = None.
Proof. vm_compute. done. Qed.

End RecheckClaims.

(** * The entries of [parse_m3u_to_json] *)

Module ParseFacts.
Import Py Parse ParseSpec DictFacts.

(** ** The channel name *)

Lemma contains_true c s : contains c s = true ↔ c ∈ s.
Proof. unfold contains. apply bool_decide_eq_true. Qed.

Lemma contains_false c s : contains c s = false ↔ c ∉ s.
Proof. unfold contains. apply bool_decide_eq_false. Qed.

Lemma search_name_last pre post :
  44%N ∉ post → post ≠ [] → search_name (pre ++ 44%N :: post) = Some post.
Proof.
  intros Hpost Hne. induction pre as [|c pre IH]; simpl.
  - destruct post as [|d post]; [done|].
    by rewrite (proj2 (contains_false _ _) Hpost).
  - destruct (decide (c = 44%N)) as [->|Hc]; [|done].
    assert (contains 44 (pre ++ 44%N :: post) = true) as Hin.
    { apply contains_true, elem_of_app. right. apply list_elem_of_here. }
    destruct (pre ++ 44%N :: post) eqn:Heq; [by destruct pre|].
    by rewrite Hin.
Qed.

Lemma search_name_no_comma s : 44%N ∉ s → search_name s = None.
Proof.
  induction s as [|c s IH]; simpl; [done|].
  intros [Hc Hs]%not_elem_of_cons. rewrite decide_False by done. auto.
Qed.

Lemma search_name_trailing s : search_name (s ++ [44%N]) = None.
Proof.
  induction s as [|c s IH]; simpl; [done|].
  destruct (decide (c = 44%N)) as [->|Hc]; [|done].
  assert (contains 44 (s ++ [44%N]) = true) as Hin.
  { apply contains_true, elem_of_app. right. apply list_elem_of_here. }
  destruct (s ++ [44%N]) eqn:Heq; [done|]. by rewrite Hin.
Qed.

(** ** The attributes *)

Lemma after_prefix_Some p s r : after_prefix p s = Some r ↔ s = p ++ r.
Proof.
  revert s. induction p as [|c p IH]; intros s; simpl.
  - destruct s; split; congruence.
  - destruct s as [|d s]; [done|]. case_decide as Hcd.
    + subst. rewrite IH. split; congruence.
    + split; [done | congruence].
Qed.

Lemma quoted_app v post : 34%N ∉ v → quoted (v ++ 34%N :: post) = Some v.
Proof.
  induction v as [|c v IH]; simpl; [done|].
  intros [Hc Hv]%not_elem_of_cons. rewrite decide_False by done.
  by rewrite IH.
Qed.

Lemma quoted_Some s v :
  quoted s = Some v ↔ ∃ post, s = v ++ 34%N :: post ∧ 34%N ∉ v.
Proof.
  split; [|by intros (post & -> & Hv); apply quoted_app].
  revert v. induction s as [|c s IH]; intros v; simpl; [done|].
  destruct (decide (c = 34%N)) as [->|Hc].
  - intros [= <-]. exists s. split; [done | apply not_elem_of_nil].
  - destruct (quoted s) as [v'|]; simpl; [|done]. intros [= <-].
    destruct (IH v' eq_refl) as (post & -> & Hv').
    exists post. split; [done|]. by apply not_elem_of_cons.
Qed.

Lemma search_attr_unfold key s :
  search_attr key s =
    match after_prefix (key ++ [61; 34]%N) s ≫= quoted with
    | Some v => Some v
    | None => match s with [] => None | _ :: s' => search_attr key s' end
    end.
Proof. by destruct s. Qed.

(** A value found for a key is the value of a token of the line. *)
Lemma search_attr_token key s v : search_attr key s = Some v → token key v s.
Proof.
  unfold token. induction s as [|c s IH]; rewrite search_attr_unfold.
  - destruct (after_prefix _ _ ≫= quoted) as [v0|] eqn:Hm; [|done].
    apply bind_Some in Hm as (r & Hr%after_prefix_Some & _). by destruct key.
  - destruct (after_prefix _ _ ≫= quoted) as [v0|] eqn:Hm.
    + intros [= ->]. apply bind_Some in Hm as (r & Hr%after_prefix_Some & Hq).
      apply quoted_Some in Hq as (post & -> & Hv).
      exists [], post. rewrite Hr. by rewrite <- app_assoc.
    + intros (pre & post & -> & Hv)%IH. by exists (c :: pre), post.
Qed.

Lemma search_attr_here key v post :
  34%N ∉ v → search_attr key (key ++ [61; 34]%N ++ v ++ 34%N :: post) = Some v.
Proof.
  intros Hv. rewrite search_attr_unfold, app_assoc.
  rewrite (proj2 (after_prefix_Some _ _ (v ++ 34%N :: post)) eq_refl). simpl.
  by rewrite quoted_app.
Qed.

(** A key with a token on the line gets a value. *)
Lemma token_search_attr key s v : token key v s → is_Some (search_attr key s).
Proof.
  intros (pre & post & -> & Hv). induction pre as [|c pre IH].
  - change ([] ++ key ++ [61; 34]%N ++ v ++ 34%N :: post)
      with (key ++ [61; 34]%N ++ v ++ 34%N :: post).
    by rewrite search_attr_here.
  - rewrite search_attr_unfold.
    destruct (after_prefix _ _ ≫= quoted); [done|]. exact IH.
Qed.

Lemma search_attr_empty key post :
  search_attr key (key ++ [61; 34; 34]%N ++ post) = Some [].
Proof. apply (search_attr_here key [] post), not_elem_of_nil. Qed.

Lemma foldl_attributes (line : list N) (ks : list (list N))
    (m : gmap (list N) (list N)) (k : list N) :
  foldl (λ attributes key,
           match search_attr key line with
           | Some v => <[key := v]> attributes
           | None => attributes
           end) m ks !! k =
    if decide (k ∈ ks)
    then match search_attr k line with Some v => Some v | None => m !! k end
    else m !! k.
Proof.
  revert m. induction ks as [|key ks IH]; intros m; simpl; [done|].
  rewrite IH. clear IH.
  assert (match search_attr key line with
          | Some v => <[key := v]> m
          | None => m
          end !! k =
          if decide (k = key)
          then match search_attr k line with Some v => Some v | None => m !! k end
          else m !! k) as ->.
  { destruct (decide (k = key)) as [->|Hne].
    - destruct (search_attr key line); [by rewrite lookup_insert_eq | done].
    - destruct (search_attr key line); [by rewrite lookup_insert_ne | done]. }
  destruct (decide (k = key)) as [->|Hne].
  - rewrite (decide_True (P := key ∈ key :: ks)) by apply list_elem_of_here.
    destruct (decide (key ∈ ks)); by destruct (search_attr key line).
  - destruct (decide (k ∈ ks)) as [Hin|Hnin].
    + rewrite (decide_True (P := k ∈ key :: ks)); [done|].
      by apply list_elem_of_further.
    + rewrite (decide_False (P := k ∈ key :: ks)); [done|].
      by intros [?|?]%elem_of_cons.
Qed.

(** The attributes hold, for each of the four keys, the value found on the
    line, and nothing else. *)
Lemma extract_attributes_lookup line k :
  extract_attributes line !! k =
    if decide (k ∈ patterns) then search_attr k line else None.
Proof.
  unfold extract_attributes. rewrite foldl_attributes, lookup_empty.
  case_decide; [|done]. by destruct (search_attr k line).
Qed.

(** ** The pairing loop *)

Lemma to_uint_nonnil n : Nat.to_uint n ≠ Decimal.Nil.
Proof.
  intros Hn. pose proof (DecimalNat.Unsigned.of_to n) as Hof.
  rewrite Hn in Hof. simpl in Hof. subst n. discriminate Hn.
Qed.

Lemma N_of_ascii_inj : Inj (=) (=) (λ a, N_of_ascii a).
Proof.
  intros a b Hab.
  rewrite <- (ascii_N_embedding a), <- (ascii_N_embedding b). by f_equal.
Qed.

Lemma str_of_nat_inj i j : str_of_nat i = str_of_nat j → i = j.
Proof.
  unfold str_of_nat. intros Heq.
  apply (list_fmap_eq_inj _ N_of_ascii_inj) in Heq.
  apply DecimalNat.Unsigned.to_uint_inj.
  assert (NilZero.string_of_uint (Nat.to_uint i)
          = NilZero.string_of_uint (Nat.to_uint j)) as Hs.
  { rewrite <- (string_of_list_ascii_of_string (NilZero.string_of_uint _)).
    rewrite Heq. apply string_of_list_ascii_of_string. }
  pose proof (NilZero.usu _ (to_uint_nonnil i)) as Hi.
  pose proof (NilZero.usu _ (to_uint_nonnil j)) as Hj.
  congruence.
Qed.

Lemma channel_key_inj m3u_url i j :
  channel_key m3u_url i = channel_key m3u_url j → i = j.
Proof.
  unfold channel_key. intros Heq. apply app_inv_head in Heq.
  apply app_inv_head in Heq. by apply str_of_nat_inj.
Qed.

Lemma set_fresh {V} k (v : V) d : k ∉ Dict.keys d → Dict.set k v d = d ++ [(k, v)].
Proof.
  unfold Dict.keys. induction d as [|[k' v'] d IH]; csimpl; [done|].
  intros [Hne Hk]%not_elem_of_cons. rewrite decide_False by done.
  by rewrite IH.
Qed.

Lemma step_metadata m3u_url st raw :
  classify raw = Metadata →
  step m3u_url st raw =
    {| channels := channels st;
       current_channel_info := Some (pending_of raw);
       channel_index := channel_index st |}.
Proof.
  unfold classify, step, pending_of. destruct (strip raw) as [|c line]; [done|].
  destruct (startswith (c :: line) (lit "#EXTINF")); [done|].
  by destruct (startswith (c :: line) (lit "http")).
Qed.

Lemma step_ignored m3u_url st raw : classify raw = Ignored → step m3u_url st raw = st.
Proof.
  unfold classify, step. destruct (strip raw) as [|c line]; [done|].
  destruct (startswith (c :: line) (lit "#EXTINF")); [done|].
  by destruct (startswith (c :: line) (lit "http")).
Qed.

Lemma step_endpoint m3u_url st raw :
  classify raw = Endpoint →
  step m3u_url st raw =
    match current_channel_info st with
    | Some info =>
        {| channels :=
             Dict.set (channel_key m3u_url (channel_index st))
                      (entry_of m3u_url info raw) (channels st);
           current_channel_info := None;
           channel_index := S (channel_index st) |}
    | None => st
    end.
Proof.
  unfold classify, step, entry_of. destruct (strip raw) as [|c line]; [done|].
  destruct (startswith (c :: line) (lit "#EXTINF")); [done|].
  by destruct (startswith (c :: line) (lit "http")).
Qed.

Lemma foldl_ignored m3u_url st skipped :
  Forall (λ raw, classify raw = Ignored) skipped →
  foldl (step m3u_url) st skipped = st.
Proof.
  induction 1 as [|raw skipped Hraw _ IH]; simpl; [done|].
  by rewrite step_ignored.
Qed.

Lemma keys_below_step m3u_url st raw :
  keys_below m3u_url st → keys_below m3u_url (step m3u_url st raw).
Proof.
  intros Hst. destruct (classify raw) eqn:Hk.
  - by rewrite step_metadata.
  - rewrite step_endpoint by done.
    destruct (current_channel_info st) as [info|]; [|done].
    intros k. simpl. rewrite keys_set.
    destruct (decide (_ ∈ Dict.keys (channels st))) as [Hin|_].
    + intros (j & Hj & ->)%Hst. exists j. split; [lia | done].
    + intros [(j & Hj & ->)%Hst | ->%list_elem_of_singleton]%elem_of_app.
      * exists j. split; [lia | done].
      * exists (channel_index st). split; [lia | done].
  - by rewrite step_ignored.
Qed.

Lemma keys_below_parse_lines m3u_url lines :
  keys_below m3u_url (parse_lines m3u_url lines).
Proof.
  unfold parse_lines. induction lines as [|raw lines IH] using rev_ind.
  - intros k Hk. by apply elem_of_nil in Hk.
  - rewrite foldl_snoc. by apply keys_below_step.
Qed.

Lemma next_key_fresh m3u_url st :
  keys_below m3u_url st →
  channel_key m3u_url (channel_index st) ∉ Dict.keys (channels st).
Proof.
  intros Hst (j & Hj & Heq%channel_key_inj)%Hst. lia.
Qed.

End ParseFacts.

Module ParseClaims.
Import Py Parse ParseSpec DictFacts ParseFacts.

(** C6, as stated, fails on a metadata line without a comma: the name is
    the literal of [extract_channel_name], which is not the string
    Unknown. *)
Lemma name_without_comma_not_Unknown :
  startswith (lit "#EXTINF:-1 News") (lit "#EXTINF") = true ∧
  (44%N ∉ lit "#EXTINF:-1 News") ∧
  extract_channel_name (lit "#EXTINF:-1 News") ≠ lit "Unknown".
Proof.
  split_and!; [vm_compute; reflexivity | | vm_compute; discriminate].
  apply (bool_decide_unpack _). vm_compute. exact I.
Qed.

(** C6, amended.  The channel name of a line is the text after its last
    comma without the surrounding whitespace, when that text is not empty;
    for a line without a comma, and for a line ending with a comma, it is
    the literal of four code points 26410, 30693, 39057, 36947. *)
Theorem channel_name_after_last_comma :
  (∀ pre post, 44%N ∉ post → post ≠ [] →
     extract_channel_name (pre ++ 44%N :: post) = strip post) ∧
  (∀ line, 44%N ∉ line → extract_channel_name line = unknown_channel) ∧
  (∀ pre, extract_channel_name (pre ++ [44%N]) = unknown_channel).
Proof.
  unfold extract_channel_name. split_and!.
  - intros pre post Hpost Hne. by rewrite search_name_last.
  - intros line Hline. by rewrite search_name_no_comma.
  - intros pre. by rewrite search_name_trailing.
Qed.

Lemma channel_name_after_last_comma_witness :
  extract_channel_name
    (lit "#EXTINF:-1 tvg-name=x,y" ++ 44%N :: lit " Channel A ")
    = strip (lit " Channel A ") ∧
  extract_channel_name (lit "#EXTINF:-1 News") = unknown_channel.
Proof.
  split.
  - apply (proj1 channel_name_after_last_comma).
    + apply (bool_decide_unpack _). vm_compute. exact I.
    + vm_compute. discriminate.
  - apply (proj1 (proj2 channel_name_after_last_comma)).
    apply (bool_decide_unpack _). vm_compute. exact I.
Defined.

(** C9, as stated, fails on a line whose [tvg-id] token has an empty
    value: the attribute is stored with the empty string. *)
Lemma empty_attribute_stored :
  extract_attributes
    (lit "#EXTINF:-1 tvg-id=" ++ [34; 34]%N ++ lit " group-title="
       ++ [34]%N ++ lit "News" ++ [34]%N ++ lit ",Channel A")
    !! lit "tvg-id" = Some [].
Proof. vm_compute. reflexivity. Qed.

(** C9, amended.  The attributes of a metadata line have keys among
    [tvg-id], [tvg-name], [tvg-logo] and [group-title] only; each value
    stored is the value of a token of its key on the line; a key without a
    token on the line is omitted; and a token with an empty value stores
    the empty string. *)
Theorem attributes_closed_keys line :
  (∀ k v, extract_attributes line !! k = Some v →
          k ∈ [lit "tvg-id"; lit "tvg-name"; lit "tvg-logo"; lit "group-title"]
          ∧ token k v line) ∧
  (∀ k, (∀ v, ¬ token k v line) → extract_attributes line !! k = None) ∧
  (∀ k v, k ∈ patterns → token k v line →
          is_Some (extract_attributes line !! k)) ∧
  (∀ k post, k ∈ patterns →
          extract_attributes (k ++ [61; 34; 34]%N ++ post) !! k = Some []).
Proof.
  split_and!.
  - intros k v. rewrite extract_attributes_lookup. case_decide as Hk; [|done].
    intros Hs. split; [exact Hk | by apply search_attr_token].
  - intros k Hnone. rewrite extract_attributes_lookup. case_decide; [|done].
    destruct (search_attr k line) as [v|] eqn:Hs; [|done].
    destruct (Hnone v). by apply search_attr_token.
  - intros k v Hk Ht. rewrite extract_attributes_lookup, decide_True by done.
    by eapply token_search_attr.
  - intros k post Hk. rewrite extract_attributes_lookup, decide_True by done.
    apply search_attr_empty.
Qed.

Lemma attributes_closed_keys_witness :
  is_Some (extract_attributes Samples.line_news !! lit "group-title") ∧
  extract_attributes Samples.line_empty_id !! lit "tvg-id" = Some [].
Proof.
  split.
  - apply (proj1 (proj2 (proj2 (attributes_closed_keys Samples.line_news)))
             (lit "group-title") (lit "News")).
    + apply (bool_decide_unpack _). vm_compute. exact I.
    + exists (lit "#EXTINF:-1 "), (lit ",Channel A").
      split; [vm_compute; reflexivity|].
      apply (bool_decide_unpack _). vm_compute. exact I.
  - apply (proj2 (proj2 (proj2 (attributes_closed_keys Samples.line_empty_id)))
             (lit "tvg-id") (lit ",Channel A")).
    apply (bool_decide_unpack _). vm_compute. exact I.
Defined.

(** C7.  From the state reached after any lines: a metadata line makes
    its name and attributes the pending entry and adds no entry; lines that
    are neither metadata nor endpoint lines change nothing, so that the
    pending entry waits for the next endpoint line, which completes
    exactly one entry, made of the metadata line and of this endpoint line
    under the key of the next ordinal, and clears the pending entry; an
    endpoint line met while an entry is pending does so whatever line made
    the entry pending; an endpoint line met while nothing is pending
    changes nothing; a metadata line followed, after lines that are neither
    metadata nor endpoint lines, by another metadata line leaves no trace;
    and a metadata line followed only by such lines up to the end of the
    input adds no entry. *)
Theorem metadata_endpoint_pairing m3u_url lines :
  let st := parse_lines m3u_url lines in
  (∀ raw, classify raw = Metadata →
     parse_lines m3u_url (lines ++ [raw]) =
       {| channels := channels st;
          current_channel_info := Some (pending_of raw);
          channel_index := channel_index st |}) ∧
  (∀ skipped,
     Forall (λ raw, classify raw = Ignored) skipped →
     parse_lines m3u_url (lines ++ skipped) = st) ∧
  (∀ raw1 skipped raw2,
     classify raw1 = Metadata →
     Forall (λ raw, classify raw = Ignored) skipped →
     classify raw2 = Endpoint →
     parse_lines m3u_url (lines ++ raw1 :: skipped ++ [raw2]) =
       {| channels :=
            channels st ++ [(channel_key m3u_url (channel_index st),
                             entry_of m3u_url (pending_of raw1) raw2)];
          current_channel_info := None;
          channel_index := S (channel_index st) |}) ∧
  (∀ raw info, classify raw = Endpoint →
     current_channel_info st = Some info →
     parse_lines m3u_url (lines ++ [raw]) =
       {| channels :=
            channels st ++ [(channel_key m3u_url (channel_index st),
                             entry_of m3u_url info raw)];
          current_channel_info := None;
          channel_index := S (channel_index st) |}) ∧
  (∀ raw, classify raw = Endpoint →
     current_channel_info st = None →
     parse_lines m3u_url (lines ++ [raw]) = st) ∧
  (∀ raw1 skipped raw2 rest,
     classify raw1 = Metadata →
     Forall (λ raw, classify raw = Ignored) skipped →
     classify raw2 = Metadata →
     parse_lines m3u_url (lines ++ raw1 :: skipped ++ raw2 :: rest) =
       parse_lines m3u_url (lines ++ skipped ++ raw2 :: rest)) ∧
  (∀ raw skipped,
     classify raw = Metadata →
     Forall (λ raw, classify raw = Ignored) skipped →
     channels (parse_lines m3u_url (lines ++ raw :: skipped)) = channels st).
Proof.
  intros st. unfold parse_lines in *. split_and!.
  - intros raw Hraw. by rewrite foldl_snoc, step_metadata.
  - intros skipped Hskipped. rewrite foldl_app. fold st.
    by apply foldl_ignored.
  - intros raw1 skipped raw2 Hraw1 Hskipped Hraw2.
    rewrite foldl_app. simpl. rewrite foldl_app. simpl. fold st.
    rewrite (foldl_ignored _ _ skipped Hskipped).
    rewrite step_endpoint by done. rewrite (step_metadata _ st raw1) by done.
    cbn [current_channel_info channels channel_index]. f_equal.
    apply set_fresh, (next_key_fresh m3u_url st).
    apply keys_below_parse_lines.
  - intros raw info Hraw Hpending. rewrite foldl_snoc, step_endpoint by done.
    fold st. rewrite Hpending. f_equal. apply set_fresh, next_key_fresh.
    apply keys_below_parse_lines.
  - intros raw Hraw Hidle. rewrite foldl_snoc, step_endpoint by done.
    fold st. by rewrite Hidle.
  - intros raw1 skipped raw2 rest Hraw1 Hskipped Hraw2.
    rewrite !foldl_app. simpl. rewrite !foldl_app. simpl. fold st.
    rewrite !(foldl_ignored _ _ skipped Hskipped). f_equal.
    by rewrite !step_metadata.
  - intros raw skipped Hraw Hskipped. rewrite foldl_app. simpl. fold st.
    rewrite (foldl_ignored _ _ skipped Hskipped). by rewrite step_metadata.
Qed.

Lemma metadata_endpoint_pairing_witness :
  parse_lines (lit "m1")
    ([lit "#EXTM3U"] ++ lit "#EXTINF:-1,Channel A"
       :: [lit "#EXTVLCOPT:http-user-agent=x"; []] ++ [lit "http://1.2.3.4/a"]) =
    {| channels :=
         [(lit "m1_0",
           entry_of (lit "m1") (pending_of (lit "#EXTINF:-1,Channel A"))
             (lit "http://1.2.3.4/a"))];
       current_channel_info := None;
       channel_index := 1 |} ∧
  parse_lines (lit "m1") (Samples.manifest_lines ++ [lit "http://1.2.3.4/a"]) =
    {| channels :=
         [(lit "m1_0",
           entry_of (lit "m1") (lit "Channel A", ∅) (lit "http://1.2.3.4/a"))];
       current_channel_info := None;
       channel_index := 1 |} ∧
  parse_lines (lit "m1")
    (Samples.manifest_head ++ [lit "http://orphan/"] ++ [lit "http://1.2.3.4/a"])
    = parse_lines (lit "m1") (Samples.manifest_head ++ [lit "http://orphan/"]) ∧
  parse_lines (lit "m1")
    ([lit "#EXTM3U"] ++ lit "#EXTINF:-1,Dropped" :: [lit "# comment"]
       ++ lit "#EXTINF:-1,Channel A" :: [lit "http://1.2.3.4/a"])
    = parse_lines (lit "m1")
        ([lit "#EXTM3U"] ++ [lit "# comment"]
           ++ lit "#EXTINF:-1,Channel A" :: [lit "http://1.2.3.4/a"]).
Proof.
  split_and!.
  - apply (proj1 (proj2 (proj2 (metadata_endpoint_pairing (lit "m1")
                                  [lit "#EXTM3U"])))
             (lit "#EXTINF:-1,Channel A")
             [lit "#EXTVLCOPT:http-user-agent=x"; []]
             (lit "http://1.2.3.4/a")).
    + vm_compute. reflexivity.
    + repeat constructor.
    + vm_compute. reflexivity.
  - apply (proj1 (proj2 (proj2 (proj2 (metadata_endpoint_pairing (lit "m1")
                                         Samples.manifest_lines))))
             (lit "http://1.2.3.4/a") (lit "Channel A", ∅));
      vm_compute; reflexivity.
  - rewrite app_assoc.
    apply (proj1 (proj2 (proj2 (proj2 (proj2
                   (metadata_endpoint_pairing (lit "m1")
                      (Samples.manifest_head ++ [lit "http://orphan/"]))))))
             (lit "http://1.2.3.4/a")); vm_compute; reflexivity.
  - apply (proj1 (proj2 (proj2 (proj2 (proj2 (proj2
                   (metadata_endpoint_pairing (lit "m1") [lit "#EXTM3U"]))))))
             (lit "#EXTINF:-1,Dropped") [lit "# comment"]
             (lit "#EXTINF:-1,Channel A") [lit "http://1.2.3.4/a"]).
    + vm_compute. reflexivity.
    + repeat constructor.
    + vm_compute. reflexivity.
Defined.

End ParseClaims.

(** * Further properties of [parse.py] *)

Module ParseMoreFacts.
Import Py Parse ParseSpec ParseMoreSpec ParseFile DictFacts ParseFacts.

Lemma parse_lines_snoc m3u_url lines raw :
  parse_lines m3u_url (lines ++ [raw]) = step m3u_url (parse_lines m3u_url lines) raw.
Proof. unfold parse_lines. by rewrite foldl_snoc. Qed.

Lemma classify_endpoint raw :
  classify raw = Endpoint →
  strip raw ≠ [] ∧ startswith (strip raw) (lit "http") = true.
Proof.
  unfold classify. destruct (strip raw) as [|c line]; [done|].
  destruct (startswith (c :: line) (lit "#EXTINF")); [done|].
  by destruct (startswith (c :: line) (lit "http")).
Qed.

Lemma count_kind_snoc k lines raw :
  count_kind k (lines ++ [raw]) =
    count_kind k lines + (if decide (classify raw = k) then 1 else 0).
Proof.
  unfold count_kind. rewrite filter_app, length_app. f_equal.
  rewrite filter_cons, filter_nil. by case_decide.
Qed.

Lemma split_lines_first s : ∃ rest, split_lines s = first_line s :: rest.
Proof.
  induction s as [|c s [rest IH]]; simpl; [by exists []|].
  case_decide; [by eexists|]. rewrite IH. by eexists.
Qed.

(** Where the entries and the pending entry of a state come from. *)
Lemma parse_lines_origin m3u_url lines :
  (∀ key info, (key, info) ∈ channels (parse_lines m3u_url lines) →
     ∃ l1 meta l2 raw l3,
       lines = l1 ++ meta :: l2 ++ raw :: l3 ∧
       Forall (λ l, classify l = Ignored) l2 ∧
       entry_from m3u_url meta raw info) ∧
  (∀ p, current_channel_info (parse_lines m3u_url lines) = Some p →
     ∃ l1 meta l2,
       lines = l1 ++ meta :: l2 ∧
       Forall (λ l, classify l = Ignored) l2 ∧
       classify meta = Metadata ∧ p = pending_of meta).
Proof.
  induction lines as [|raw lines [IHc IHp]] using rev_ind.
  - split; [intros key info Hin; by apply elem_of_nil in Hin | done].
  - assert (∀ key info, (key, info) ∈ channels (parse_lines m3u_url lines) →
              ∃ l1 meta l2 raw0 l3,
                lines ++ [raw] = l1 ++ meta :: l2 ++ raw0 :: l3 ∧
                Forall (λ l, classify l = Ignored) l2 ∧
                entry_from m3u_url meta raw0 info) as Hold.
    { intros key info (l1 & meta & l2 & raw0 & l3 & -> & Hl2 & He)%IHc.
      exists l1, meta, l2, raw0. exists (l3 ++ [raw]).
      split_and!; [|done..]. by simplify_list_eq. }
    rewrite parse_lines_snoc. destruct (classify raw) eqn:Hk.
    + rewrite step_metadata by done. split; [exact Hold|].
      intros p [= <-]. exists lines, raw, []. by split_and!.
    + rewrite step_endpoint by done.
      destruct (current_channel_info (parse_lines m3u_url lines)) as [p|] eqn:Hp.
      * split; [|done]. intros key info [[= -> ->] | Hin]%elem_set; [|eauto].
        destruct (IHp p eq_refl) as (l1 & meta & l2 & -> & Hl2 & Hm & ->).
        exists l1, meta, l2, raw, []. split_and!; [|done..].
        by simplify_list_eq.
      * split; [exact Hold|]. rewrite Hp. done.
    + rewrite step_ignored by done. split; [exact Hold|].
      intros p (l1 & meta & l2 & -> & Hl2 & Hm & ->)%IHp.
      exists l1, meta. exists (l2 ++ [raw]).
      split_and!; [by simplify_list_eq | | done..].
      apply Forall_app. split; [done|]. by constructor.
Qed.

(** The counter against the entries, the pending entry and the lines. *)
Lemma parse_lines_counts m3u_url lines :
  let st := parse_lines m3u_url lines in
  length (channels st) = channel_index st ∧
  channel_index st
    + (match current_channel_info st with Some _ => 1 | None => 0 end)
    ≤ count_kind Metadata lines ∧
  channel_index st ≤ count_kind Endpoint lines.
Proof.
  induction lines as [|raw lines IH] using rev_ind; [simpl; lia|].
  cbn zeta in *. rewrite parse_lines_snoc, !count_kind_snoc.
  destruct IH as (Hlen & Hmeta & Hend). destruct (classify raw) eqn:Hk.
  - rewrite step_metadata by done. cbn [channels channel_index current_channel_info].
    rewrite decide_True, decide_False by done.
    destruct (current_channel_info (parse_lines m3u_url lines)); lia.
  - rewrite step_endpoint by done.
    rewrite decide_False, decide_True by done.
    destruct (current_channel_info (parse_lines m3u_url lines)) eqn:Hp.
    + cbn [channels channel_index current_channel_info].
      rewrite set_fresh by apply next_key_fresh, keys_below_parse_lines.
      rewrite length_app. simpl. lia.
    + rewrite Hp. lia.
  - rewrite step_ignored by done. rewrite !decide_False by done. lia.
Qed.

Lemma parse_keys_NoDup m3u_url lines :
  NoDup (Dict.keys (channels (parse_lines m3u_url lines))).
Proof.
  induction lines as [|raw lines IH] using rev_ind; [apply NoDup_nil_2|].
  rewrite parse_lines_snoc. destruct (classify raw) eqn:Hk.
  - by rewrite step_metadata.
  - rewrite step_endpoint by done.
    destruct (current_channel_info (parse_lines m3u_url lines)); [|done].
    by apply NoDup_keys_set.
  - by rewrite step_ignored.
Qed.

(** ** The store file *)

Section Update.
Context {V : Type}.
Implicit Types (existing channels d : list (list N * V)).

Lemma update_cons existing k v channels :
  update existing ((k, v) :: channels) = update (Dict.set k v existing) channels.
Proof. done. Qed.

Lemma get_update existing channels k :
  NoDup (Dict.keys channels) →
  Dict.get k (update existing channels) =
    match Dict.get k channels with
    | Some v => Some v
    | None => Dict.get k existing
    end.
Proof.
  revert existing. unfold Dict.keys.
  induction channels as [|[k0 v0] channels IH]; intros existing Hnd; [done|].
  rewrite fmap_cons in Hnd. apply NoDup_cons in Hnd as [Hk0 Hnd].
  rewrite update_cons, IH by done. simpl.
  destruct (decide (k = k0)) as [->|Hne].
  - rewrite (proj2 (get_None_keys k0 channels) Hk0). apply get_set_eq.
  - by rewrite get_set_ne.
Qed.

Lemma keys_set_prefix k v d : Dict.keys d `prefix_of` Dict.keys (Dict.set k v d).
Proof. rewrite keys_set. case_decide; [done | by apply prefix_app_r]. Qed.

Lemma keys_set_elem k v d k' :
  k' ∈ Dict.keys (Dict.set k v d) ↔ k' = k ∨ k' ∈ Dict.keys d.
Proof.
  rewrite keys_set. case_decide as Hin.
  - split; [by right | by intros [-> | ?]].
  - rewrite elem_of_app, list_elem_of_singleton. tauto.
Qed.

Lemma keys_update existing channels :
  Dict.keys existing `prefix_of` Dict.keys (update existing channels) ∧
  (NoDup (Dict.keys existing) → NoDup (Dict.keys (update existing channels))) ∧
  (∀ k, k ∈ Dict.keys (update existing channels) ↔
        k ∈ Dict.keys existing ∨ k ∈ Dict.keys channels).
Proof.
  revert existing.
  induction channels as [|[k0 v0] channels IH]; intros existing.
  - split_and!; [done | done |]. intros k. split; [by left|].
    intros [?|Hin]; [done|]. by apply elem_of_nil in Hin.
  - rewrite update_cons. destruct (IH (Dict.set k0 v0 existing)) as (Hp & Hn & He).
    split_and!.
    + etrans; [apply (keys_set_prefix k0 v0) | exact Hp].
    + intros Hnd. by apply Hn, NoDup_keys_set.
    + intros k. rewrite He, keys_set_elem.
      change (Dict.keys ((k0, v0) :: channels)) with (k0 :: Dict.keys channels).
      rewrite elem_of_cons. tauto.
Qed.

Lemma set_same k v d : Dict.get k d = Some v → Dict.set k v d = d.
Proof.
  induction d as [|[k' v'] d IH]; simpl; [done|].
  case_decide as Hk; [by intros [= ->] | intros H; by rewrite IH].
Qed.

Lemma update_same d channels :
  (∀ k v, (k, v) ∈ channels → Dict.get k d = Some v) → update d channels = d.
Proof.
  induction channels as [|[k0 v0] channels IH]; intros Hall; [done|].
  rewrite update_cons, set_same by (apply Hall, list_elem_of_here).
  apply IH. intros k v Hin. by apply Hall, list_elem_of_further.
Qed.

Lemma update_idempotent existing channels :
  NoDup (Dict.keys channels) →
  update (update existing channels) channels = update existing channels.
Proof.
  intros Hnd. apply update_same. intros k v Hin.
  by rewrite get_update, (elem_get k v channels Hnd Hin).
Qed.

Lemma update_self channels :
  NoDup (Dict.keys channels) → update channels channels = channels.
Proof.
  intros Hnd. apply update_same. intros k v Hin. by apply elem_get.
Qed.

End Update.

(** ** The keys of the store *)

Lemma digits_no_underscore d :
  95%N ∉ (λ a, N_of_ascii a) <$> list_ascii_of_string (NilEmpty.string_of_uint d).
Proof.
  induction d; cbn [NilEmpty.string_of_uint list_ascii_of_string];
    rewrite ?fmap_cons; [apply not_elem_of_nil | apply not_elem_of_cons; split; [done|exact IHd] ..].
Qed.

Lemma str_of_nat_no_underscore n : 95%N ∉ str_of_nat n.
Proof.
  unfold str_of_nat, NilZero.string_of_uint.
  destruct (Nat.to_uint n) as [|d|d|d|d|d|d|d|d|d|d];
    [by intros [?|?%elem_of_nil]%elem_of_cons | apply digits_no_underscore ..].
Qed.

Lemma split_at_last (c : N) l1 r1 l2 r2 :
  c ∉ r1 → c ∉ r2 → l1 ++ c :: r1 = l2 ++ c :: r2 → l1 = l2 ∧ r1 = r2.
Proof.
  intros Hr1 Hr2. revert l2. induction l1 as [|x l1 IH]; intros [|y l2]; simpl.
  - by intros [= ->].
  - intros [= <- ->]. destruct Hr1. apply elem_of_app. right.
    apply list_elem_of_here.
  - intros [= -> <-]. destruct Hr2. apply elem_of_app. right.
    apply list_elem_of_here.
  - intros [= -> Heq]. destruct (IH l2 Heq) as [-> ->]. done.
Qed.

(** A key determines its manifest and its ordinal. *)
Lemma channel_key_inj2 url1 i url2 j :
  channel_key url1 i = channel_key url2 j → url1 = url2 ∧ i = j.
Proof.
  unfold channel_key. change (lit "_") with [95%N]. simpl.
  intros [-> Heq]%split_at_last; [|apply str_of_nat_no_underscore ..].
  split; [done|]. by apply str_of_nat_inj.
Qed.

End ParseMoreFacts.

Module ParseExtras.
Import Py Parse ParseSpec ParseMoreSpec ParseFile DictFacts ParseFacts
  ParseMoreFacts.

(** X1.  The keys of the entries parsed from a manifest are the keys of
    the ordinals 0, 1, ... in this order, as many as the counter: no
    ordinal is skipped or used twice, whatever lines were dropped. *)
Theorem parse_keys_ordinals m3u_url lines :
  Dict.keys (channels (parse_lines m3u_url lines)) =
    channel_key m3u_url <$> seq 0 (channel_index (parse_lines m3u_url lines)).
Proof.
  induction lines as [|raw lines IH] using rev_ind; [done|].
  rewrite parse_lines_snoc. destruct (classify raw) eqn:Hk.
  - by rewrite step_metadata.
  - rewrite step_endpoint by done.
    destruct (current_channel_info (parse_lines m3u_url lines)); [|done].
    cbn [channels channel_index].
    rewrite set_fresh
      by apply next_key_fresh, keys_below_parse_lines.
    unfold Dict.keys in *. rewrite fmap_app, IH, seq_S, fmap_app. done.
  - by rewrite step_ignored.
Qed.

(** X2.  Every entry parsed from a manifest is made of a metadata line
    and of the first endpoint line after it, only lines of neither kind
    lying between the two; its source is the manifest, and its stream URL is
    the endpoint line stripped, which is not empty and starts with [http]. *)
Theorem parsed_entry_origin m3u_url lines key info :
  (key, info) ∈ channels (parse_lines m3u_url lines) →
  ∃ l1 meta l2 raw l3,
    lines = l1 ++ meta :: l2 ++ raw :: l3 ∧
    Forall (λ l, classify l = Ignored) l2 ∧
    classify meta = Metadata ∧ classify raw = Endpoint ∧
    info = entry_of m3u_url (pending_of meta) raw ∧
    ci_source_url info = Some m3u_url ∧
    ci_stream_url info = Some (strip raw) ∧
    strip raw ≠ [] ∧ startswith (strip raw) (lit "http") = true.
Proof.
  intros Hin.
  destruct (proj1 (parse_lines_origin m3u_url lines) key info Hin)
    as (l1 & meta & l2 & raw & l3 & Hlines & Hl2 & Hmeta & Hraw & ->).
  destruct (classify_endpoint raw Hraw) as [Hne Hhttp].
  exists l1, meta, l2, raw, l3. by split_and!.
Qed.

Lemma parsed_entry_origin_witness :
  ∃ l1 meta l2 raw l3,
    Samples.manifest_lines ++ [lit "http://1.2.3.4/a"]
      = l1 ++ meta :: l2 ++ raw :: l3 ∧
    Forall (λ l, classify l = Ignored) l2 ∧
    classify meta = Metadata ∧ classify raw = Endpoint ∧
    entry_of (lit "m1") (lit "Channel A", ∅) (lit "http://1.2.3.4/a")
      = entry_of (lit "m1") (pending_of meta) raw ∧
    ci_source_url
      (entry_of (lit "m1") (lit "Channel A", ∅) (lit "http://1.2.3.4/a"))
      = Some (lit "m1") ∧
    ci_stream_url
      (entry_of (lit "m1") (lit "Channel A", ∅) (lit "http://1.2.3.4/a"))
      = Some (strip raw) ∧
    strip raw ≠ [] ∧ startswith (strip raw) (lit "http") = true.
Proof.
  apply (parsed_entry_origin (lit "m1")
           (Samples.manifest_lines ++ [lit "http://1.2.3.4/a"]) (lit "m1_0")).
  vm_compute. apply list_elem_of_here.
Defined.

(** X3.  The number of entries parsed is the value of the counter, and it
    exceeds neither the number of metadata lines nor the number of endpoint
    lines. *)
Theorem parse_count_bounds m3u_url lines :
  length (channels (parse_lines m3u_url lines))
    = channel_index (parse_lines m3u_url lines) ∧
  length (channels (parse_lines m3u_url lines)) ≤ count_kind Metadata lines ∧
  length (channels (parse_lines m3u_url lines)) ≤ count_kind Endpoint lines.
Proof.
  destruct (parse_lines_counts m3u_url lines) as (Hlen & Hmeta & Hend).
  rewrite Hlen. split_and!; [done | lia | done].
Qed.

(** X4.  [parse_m3u_to_json] ends in the format error exactly when the
    text before the first newline, stripped, does not start with the
    header [#EXTM3U]; the empty text is such a text.  Otherwise its entries
    are those of the loop over all the lines. *)
Theorem parse_header_guard m3u_url content :
  (parse_m3u_to_json m3u_url content = None ↔
     startswith (strip (first_line content)) (lit "#EXTM3U") = false) ∧
  (startswith (strip (first_line content)) (lit "#EXTM3U") = true →
     parse_m3u_to_json m3u_url content
       = Some (channels (parse_lines m3u_url (split_lines content)))) ∧
  parse_m3u_to_json m3u_url [] = None.
Proof.
  unfold parse_m3u_to_json.
  destruct (split_lines_first content) as [rest ->].
  destruct (startswith (strip (first_line content)) (lit "#EXTM3U"));
    split_and!; done.
Qed.

Lemma parse_header_guard_witness :
  parse_m3u_to_json (lit "m1") (lit "#EXTM3U x")
    = Some (channels (parse_lines (lit "m1") (split_lines (lit "#EXTM3U x")))).
Proof.
  apply (proj1 (proj2 (parse_header_guard (lit "m1") (lit "#EXTM3U x")))).
  vm_compute. reflexivity.
Defined.

(** X5.  In the mapping [parse_m3u_to_json] writes over an existing store
    file, a key of the fresh parse holds the freshly parsed entry and every
    other key holds the entry the file had. *)
Theorem saved_lookup m3u_url lines existing k :
  Dict.get k (final_channels (Some existing)
                (channels (parse_lines m3u_url lines))) =
    match Dict.get k (channels (parse_lines m3u_url lines)) with
    | Some info => Some info
    | None => Dict.get k existing
    end.
Proof. apply get_update, parse_keys_NoDup. Qed.

(** X6.  Merging a parse into an existing store file deletes nothing: the
    keys of the file stay where they were, at the head of the new mapping,
    also those the fresh parse no longer produces; the keys of the new
    mapping are those of the file and of the parse, and they stay distinct. *)
Theorem saved_keys existing (channels : list (list N * ChannelInfo)) :
  Dict.keys existing `prefix_of` Dict.keys (final_channels (Some existing) channels) ∧
  (NoDup (Dict.keys existing) →
   NoDup (Dict.keys (final_channels (Some existing) channels))) ∧
  (∀ k, k ∈ Dict.keys (final_channels (Some existing) channels) ↔
        k ∈ Dict.keys existing ∨ k ∈ Dict.keys channels).
Proof. apply keys_update. Qed.

Lemma saved_keys_witness :
  NoDup (Dict.keys (final_channels (Some Samples.store_priority)
                      Samples.store_twice)).
Proof.
  apply (proj1 (proj2 (saved_keys Samples.store_priority Samples.store_twice))).
  apply (bool_decide_unpack _). vm_compute. exact I.
Defined.

(** X7.  Parsing the same text of the same manifest a second time leaves
    the store file as the first parse left it. *)
Theorem reparse_idempotent m3u_url content existing :
  parse_and_save m3u_url content (parse_and_save m3u_url content existing)
    = parse_and_save m3u_url content existing.
Proof.
  unfold parse_and_save, parse_m3u_to_json.
  destruct (split_lines content) as [|first rest]; [done|].
  destruct (startswith (strip first) (lit "#EXTM3U")); [|done].
  f_equal. destruct existing as [existing|]; simpl.
  - apply update_idempotent, parse_keys_NoDup.
  - apply update_self, parse_keys_NoDup.
Qed.

(** X8.  A key names one manifest and one ordinal, so the entries a store
    file holds for another manifest are not touched when a parse is merged
    into it. *)
Theorem other_manifest_untouched m3u_url lines existing other j :
  other ≠ m3u_url →
  Dict.get (channel_key other j)
    (final_channels (Some existing) (channels (parse_lines m3u_url lines)))
    = Dict.get (channel_key other j) existing.
Proof.
  intros Hother. simpl. rewrite get_update by apply parse_keys_NoDup.
  destruct (Dict.get _ (channels _)) as [info|] eqn:Hget; [exfalso|done].
  apply get_Some_elem in Hget.
  assert (channel_key other j ∈ Dict.keys (channels (parse_lines m3u_url lines)))
    as Hin by (apply list_elem_of_fmap; by exists (channel_key other j, info)).
  destruct (keys_below_parse_lines m3u_url lines _ Hin) as (i & _ & Heq).
  by apply channel_key_inj2 in Heq as [? _].
Qed.

Lemma other_manifest_untouched_witness :
  Dict.get (channel_key (lit "m1") 0)
    (final_channels (Some Samples.store_priority)
       (channels (parse_lines (lit "m2")
                    (Samples.manifest_lines ++ [lit "http://1.2.3.4/a"]))))
    = Dict.get (channel_key (lit "m1") 0) Samples.store_priority.
Proof.
  apply (other_manifest_untouched (lit "m2")). vm_compute. discriminate.
Defined.

(** X9.  [sanitize_filename] keeps the length of the name and every
    character outside its class in place, leaves none of the nine
    characters of its class in the result, and changes nothing when applied
    a second time. *)
Theorem sanitize_filename_clean filename :
  length (sanitize_filename filename) = length filename ∧
  (∀ c, c ∈ sanitize_filename filename → c ∉ invalid_chars) ∧
  (∀ i c, filename !! i = Some c → c ∉ invalid_chars →
          sanitize_filename filename !! i = Some c) ∧
  sanitize_filename (sanitize_filename filename) = sanitize_filename filename.
Proof.
  unfold sanitize_filename. split_and!.
  - apply length_fmap.
  - intros c (x & -> & _)%list_elem_of_fmap.
    case_bool_decide; [|done]. apply (bool_decide_unpack _). vm_compute. exact I.
  - intros i c Hi Hc. rewrite list_lookup_fmap, Hi. simpl.
    by rewrite bool_decide_eq_false_2.
  - rewrite <- list_fmap_compose. apply list_fmap_ext. intros i x _. simpl.
    destruct (bool_decide (x ∈ invalid_chars)) eqn:Hx; [done|]. by rewrite Hx.
Qed.

Lemma sanitize_filename_clean_witness :
  sanitize_filename (lit "001_A/B: C?.m3u") !! 3 = Some 95%N.
Proof.
  apply (proj1 (proj2 (proj2 (sanitize_filename_clean (lit "001_A/B: C?.m3u"))))).
  - vm_compute. reflexivity.
  - apply (bool_decide_unpack _). vm_compute. exact I.
Defined.

End ParseExtras.

(** * Further properties of [check.py] *)

Module CheckFacts.
Import Py Check CheckSpec DictFacts.

Section WithNetwork.
Context {World : Type} (head : list N → World → bool * World).
Implicit Types (st : State World) (items : list (list N * ChannelInfo)).

Lemma step_usable total st item c u :
  ci_stream_url item.2 = Some (c :: u) →
  step head total st item =
    let r := head (c :: u) (world st) in
    let playable :=
      if r.1 then Dict.set item.1 item.2 (playable_channels st)
      else playable_channels st in
    {| playable_channels := playable;
       checked_count := S (checked_count st);
       output_file :=
         if bool_decide (S (checked_count st) `mod` 10 = 0)
            || bool_decide (S (checked_count st) = total)
         then Some playable else output_file st;
       world := r.2 |}.
Proof. intros Hu. unfold step. by rewrite Hu. Qed.

Lemma step_unusable total st item :
  usable item.2 = false → step head total st item = st.
Proof.
  unfold usable, step. by destruct (ci_stream_url item.2) as [[|c u]|].
Qed.

Lemma usable_true info :
  usable info = true → ∃ c u, ci_stream_url info = Some (c :: u).
Proof.
  unfold usable. destruct (ci_stream_url info) as [[|c u]|]; [done| |done].
  intros _. by exists c, u.
Qed.

Lemma run_snoc total st items item :
  run head total st (items ++ [item]) = step head total (run head total st items) item.
Proof. unfold run. by rewrite foldl_snoc. Qed.

(** Only usable entries are stored, and they are stored as they are. *)
Lemma run_playable_elem total st items key info :
  (key, info) ∈ playable_channels (run head total st items) →
  (key, info) ∈ playable_channels st ∨ ((key, info) ∈ items ∧ usable info = true).
Proof.
  induction items as [|item items IH] using rev_ind; [by left|].
  rewrite run_snoc. destruct (usable item.2) eqn:Hu.
  - destruct (usable_true _ Hu) as (c & u & Hurl).
    rewrite (step_usable _ _ _ c u Hurl). cbn [playable_channels].
    destruct (head (c :: u) _).1.
    + intros [[= -> ->] | Hin]%elem_set.
      * right. split; [|done]. apply elem_of_app. right.
        destruct item. apply list_elem_of_here.
      * destruct (IH Hin) as [? | [? ?]]; [by left | right].
        split; [|done]. apply elem_of_app. by left.
    + intros Hin. destruct (IH Hin) as [? | [? ?]]; [by left | right].
      split; [|done]. apply elem_of_app. by left.
  - rewrite step_unusable by done. intros Hin.
    destruct (IH Hin) as [? | [? ?]]; [by left | right].
    split; [|done]. apply elem_of_app. by left.
Qed.

Lemma run_playable total st items :
  NoDup (Dict.keys items) →
  (∀ k, k ∈ Dict.keys items → k ∉ Dict.keys (playable_channels st)) →
  playable_channels (run head total st items) =
    playable_channels st ++ playable_of head items (world st).
Proof.
  revert st. unfold Dict.keys.
  induction items as [|item items IH]; intros st Hnd Hfresh; simpl.
  - by rewrite app_nil_r.
  - rewrite fmap_cons in Hnd, Hfresh. apply NoDup_cons in Hnd as [Hitem Hnd].
    fold (run head total (step head total st item) items).
    destruct (ci_stream_url item.2) as [[|c u]|] eqn:Hurl.
    + rewrite step_unusable by (unfold usable; by rewrite Hurl).
      apply IH; [done|]. intros k Hk. apply Hfresh. by apply list_elem_of_further.
    + rewrite (step_usable _ _ _ c u Hurl). cbn zeta.
      rewrite IH; [|done|]; cbn [playable_channels world].
      * destruct (head (c :: u) (world st)).1; [|done].
        rewrite ParseFacts.set_fresh by (apply Hfresh, list_elem_of_here).
        destruct item. by rewrite <- app_assoc.
      * intros k Hk. destruct (head (c :: u) (world st)).1.
        -- rewrite ParseFacts.set_fresh by (apply Hfresh, list_elem_of_here).
           unfold Dict.keys. rewrite fmap_app. apply not_elem_of_app. split.
           ++ apply Hfresh. by apply list_elem_of_further.
           ++ intros ->%list_elem_of_singleton. done.
        -- apply Hfresh. by apply list_elem_of_further.
    + rewrite step_unusable by (unfold usable; by rewrite Hurl).
      apply IH; [done|]. intros k Hk. apply Hfresh. by apply list_elem_of_further.
Qed.

Lemma playable_of_sublist items w : playable_of head items w `sublist_of` items.
Proof.
  revert w. induction items as [|item items IH]; intros w; simpl; [done|].
  destruct (ci_stream_url item.2) as [[|c u]|]; [by apply sublist_cons| |by apply sublist_cons].
  destruct (head (c :: u) w).1; simpl; [by apply sublist_skip | by apply sublist_cons].
Qed.

Lemma run_checked total st items :
  checked_count (run head total st items) =
    checked_count st + length (filter (λ item, usable item.2 = true) items).
Proof.
  induction items as [|item items IH] using rev_ind; [simpl; lia|].
  rewrite run_snoc, filter_app, length_app, filter_cons, filter_nil.
  destruct (usable item.2) eqn:Hu.
  - destruct (usable_true _ Hu) as (c & u & Hurl).
    rewrite (step_usable _ _ _ c u Hurl). cbn [checked_count].
    rewrite IH, decide_True by done. simpl. lia.
  - rewrite step_unusable, IH, decide_False by done. simpl. lia.
Qed.

Lemma run_last_write channels file0 w :
  channels ≠ [] →
  Forall (λ item, usable item.2 = true) channels →
  output_file (check_playable_channels_from_json head channels file0 w)
    = Some (playable_channels
              (check_playable_channels_from_json head channels file0 w)).
Proof.
  unfold check_playable_channels_from_json. intros Hne Hall.
  destruct channels as [|last channels _] using rev_ind; [done|]. clear Hne.
  apply Forall_app in Hall as [Hall Hlast]. apply Forall_cons in Hlast as [Hlast _].
  destruct (usable_true _ Hlast) as (c & u & Hurl).
  rewrite run_snoc, (step_usable _ _ _ c u Hurl). cbn zeta.
  cbn [output_file playable_channels].
  rewrite run_checked. cbn [checked_count init].
  assert (filter (λ item, usable item.2 = true) channels = channels) as ->.
  { clear -Hall. induction Hall as [|x l Hx _ IH]; [done|].
    by rewrite filter_cons_True, IH. }
  rewrite (bool_decide_eq_true_2 (S (0 + length channels) = _)),
    orb_true_r; [done|].
  rewrite length_app. simpl. lia.
Qed.

End WithNetwork.
End CheckFacts.

Module CheckExtras.
Import Py Check CheckSpec DictFacts CheckFacts.

Section WithNetwork.
Context {World : Type} (head : list N → World → bool * World).

(** X10.  The mapping [check_playable_channels_from_json] accumulates is
    made of the entries of the store whose probe answered with status 200,
    in the order of the store and as they were read: nothing is added,
    changed or reordered. *)
Theorem playable_are_reachable_entries channels file0 w :
  NoDup (Dict.keys channels) →
  playable_channels (check_playable_channels_from_json head channels file0 w)
    = playable_of head channels w ∧
  playable_channels (check_playable_channels_from_json head channels file0 w)
    `sublist_of` channels.
Proof.
  intros Hnd.
  assert (playable_channels
            (check_playable_channels_from_json head channels file0 w)
          = playable_of head channels w) as ->.
  { unfold check_playable_channels_from_json. rewrite run_playable; [done..|].
    intros k _ Hk. by apply elem_of_nil in Hk. }
  split; [done | apply playable_of_sublist].
Qed.

(** X11.  The counter of [check_playable_channels_from_json] ends at the
    number of entries that have a non-empty stream URL; when the store is
    not empty and every entry has one, the last entry triggers a write and
    the output file holds the whole result. *)
Theorem check_counter_and_last_write channels file0 w :
  checked_count (check_playable_channels_from_json head channels file0 w)
    = length (filter (λ item, usable item.2 = true) channels) ∧
  (channels ≠ [] →
   Forall (λ item, usable item.2 = true) channels →
   output_file (check_playable_channels_from_json head channels file0 w)
     = Some (playable_channels
               (check_playable_channels_from_json head channels file0 w))).
Proof.
  split.
  - unfold check_playable_channels_from_json. by rewrite run_checked.
  - apply run_last_write.
Qed.

End WithNetwork.

Lemma playable_are_reachable_entries_witness :
  playable_channels
    (check_playable_channels_from_json
       (Samples.head_of [lit "https://1.2.3.4/a"]) Samples.store_priority None ())
    = playable_of (Samples.head_of [lit "https://1.2.3.4/a"])
        Samples.store_priority () ∧
  playable_channels
    (check_playable_channels_from_json
       (Samples.head_of [lit "https://1.2.3.4/a"]) Samples.store_priority None ())
    `sublist_of` Samples.store_priority.
Proof.
  apply (playable_are_reachable_entries
           (Samples.head_of [lit "https://1.2.3.4/a"]) Samples.store_priority).
  apply (bool_decide_unpack _). vm_compute. exact I.
Defined.

Lemma check_counter_and_last_write_witness :
  output_file
    (check_playable_channels_from_json
       (Samples.head_of [lit "https://1.2.3.4/a"]) Samples.store_priority None ())
    = Some (playable_channels
              (check_playable_channels_from_json
                 (Samples.head_of [lit "https://1.2.3.4/a"])
                 Samples.store_priority None ())).
Proof.
  apply (proj2 (check_counter_and_last_write
                  (Samples.head_of [lit "https://1.2.3.4/a"])
                  Samples.store_priority None ())).
  - vm_compute. discriminate.
  - vm_compute. repeat constructor.
Defined.

End CheckExtras.

(** * The stages chained *)

Module PipelineExtras.
Import Py Parse ParseSpec ParseMoreSpec Check CheckSpec Arrange ArrangeFile
  DictFacts ParseFacts ParseMoreFacts CheckFacts ArrangeFacts.

Section WithNetwork.
Context {World : Type} (head : list N → World → bool * World).
Context (dump : list (list N * Group) → World → bool * World).

(** X12.  On a mapping accumulated by
    [check_playable_channels_from_json], whatever the store and the
    network, the loops of [arrange_channels] do not raise, every entry kept
    by the check having a non-empty stream URL: the grouped mapping is
    built and handed to the write of lines 105-106, and the run returns its
    two counts when that write is done and an error only when it raises. *)
Theorem arrange_succeeds_after_check channels file0 w w' :
  Forall (λ item, usable item.2 = true)
    (playable_channels (check_playable_channels_from_json head channels file0 w)) ∧
  ∃ grouped,
    arrange_channels
      (playable_channels (check_playable_channels_from_json head channels file0 w))
      = Some grouped ∧
    arrange_and_save dump
      (playable_channels (check_playable_channels_from_json head channels file0 w))
      w'
      = (if (dump grouped w').1
         then success
                (length (playable_channels
                           (check_playable_channels_from_json head channels file0 w)))
                (length grouped)
         else error, (dump grouped w').2).
Proof.
  assert (Forall (λ item, usable item.2 = true)
            (playable_channels
               (check_playable_channels_from_json head channels file0 w))) as Hall.
  { apply Forall_forall. intros [key info] Hin.
    unfold check_playable_channels_from_json in Hin.
    apply run_playable_elem in Hin as [Hin | [_ Hu]]; [|done].
    by apply elem_of_nil in Hin. }
  split; [done|].
  destruct (arrange_channels_total
              (playable_channels
                 (check_playable_channels_from_json head channels file0 w)))
    as [grouped Hg].
  { eapply Forall_impl; [exact Hall|]. intros item Hu.
    destruct (usable_true _ Hu) as (c & u & ->). done. }
  exists grouped. split; [exact Hg|].
  unfold arrange_and_save. by rewrite Hg.
Qed.

(** X13.  On the entries parsed from a manifest, the check probes every
    entry: the counter ends at the number of entries and, when there is at
    least one entry, the output file holds the whole result. *)
Theorem check_after_parse m3u_url lines file0 w :
  checked_count
    (check_playable_channels_from_json head
       (channels (parse_lines m3u_url lines)) file0 w)
    = length (channels (parse_lines m3u_url lines)) ∧
  (channels (parse_lines m3u_url lines) ≠ [] →
   output_file
     (check_playable_channels_from_json head
        (channels (parse_lines m3u_url lines)) file0 w)
     = Some (playable_channels
               (check_playable_channels_from_json head
                  (channels (parse_lines m3u_url lines)) file0 w))).
Proof.
  assert (Forall (λ item, usable item.2 = true)
            (channels (parse_lines m3u_url lines))) as Hall.
  { apply Forall_forall. intros [key info] Hin.
    destruct (proj1 (parse_lines_origin m3u_url lines) key info Hin)
      as (l1 & meta & l2 & raw & l3 & _ & _ & _ & Hraw & ->).
    destruct (classify_endpoint raw Hraw) as [Hne _].
    unfold usable, entry_of. simpl. by destruct (strip raw). }
  split.
  - unfold check_playable_channels_from_json. rewrite run_checked. simpl.
    f_equal. clear -Hall. induction Hall as [|x l Hx _ IH]; [done|].
    by rewrite filter_cons_True, IH.
  - intros Hne. by apply run_last_write.
Qed.

End WithNetwork.

Lemma check_after_parse_witness :
  output_file
    (check_playable_channels_from_json (Samples.head_of [])
       (channels (parse_lines (lit "m1")
                    (Samples.manifest_lines ++ [lit "http://1.2.3.4/a"])))
       None ())
    = Some (playable_channels
              (check_playable_channels_from_json (Samples.head_of [])
                 (channels (parse_lines (lit "m1")
                              (Samples.manifest_lines ++ [lit "http://1.2.3.4/a"])))
                 None ())).
Proof.
  apply (proj2 (check_after_parse (Samples.head_of []) (lit "m1")
                  (Samples.manifest_lines ++ [lit "http://1.2.3.4/a"]) None ())).
  vm_compute. discriminate.
Defined.

End PipelineExtras.

(** * Further properties of [re_check.py] *)

Module RecheckMoreFacts.
Import Py Recheck RecheckSpec RecheckMoreSpec DictFacts RecheckFacts.

Section WithNetwork.
Context {World : Type} (head : list N → World → bool * World).
Implicit Types (w : World) (st : State World) (cl : list Child).

Lemma step_world total st item :
  world (step head total st item) = (recheck_group head item.2 (world st)).2.
Proof. unfold step. by destruct (recheck_group head item.2 (world st)).1. Qed.

Lemma step_checked total st item :
  checked_groups (step head total st item) =
    checked_groups st +
    match (recheck_group head item.2 (world st)).1 with Some _ => 1 | None => 0 end.
Proof.
  unfold step. destruct (recheck_group head item.2 (world st)).1; simpl; lia.
Qed.

(** With distinct names the final mapping only grows at its end. *)
Lemma run_final total st items :
  NoDup (Dict.keys items) →
  (∀ k, k ∈ Dict.keys items → k ∉ Dict.keys (final_channels st)) →
  final_channels (run head total st items) =
    final_channels st ++ repair_all head items (world st) ∧
  checked_groups (run head total st items) =
    checked_groups st + length (repair_all head items (world st)).
Proof.
  revert st. unfold Dict.keys.
  induction items as [|item items IH]; intros st Hnd Hfresh.
  - simpl. rewrite app_nil_r. split; [done | lia].
  - rewrite fmap_cons in Hnd, Hfresh. apply NoDup_cons in Hnd as [Hitem Hnd].
    change (run head total st (item :: items))
      with (run head total (step head total st item) items).
    cbn [repair_all].
    destruct (IH (step head total st item) Hnd) as [-> ->].
    + intros k Hk. rewrite step_final.
      destruct (recheck_group head item.2 (world st)).1.
      * rewrite ParseFacts.set_fresh by (apply Hfresh, list_elem_of_here).
        unfold Dict.keys. rewrite fmap_app. apply not_elem_of_app. split.
        -- apply Hfresh. by apply list_elem_of_further.
        -- intros ->%list_elem_of_singleton. done.
      * apply Hfresh. by apply list_elem_of_further.
    + rewrite step_final, step_world, step_checked.
      destruct (recheck_group head item.2 (world st)).1 as [g|].
      * rewrite ParseFacts.set_fresh by (apply Hfresh, list_elem_of_here).
        rewrite <- app_assoc, length_app. simpl. split; [done | lia].
      * simpl. split; [done | lia].
Qed.

Lemma repair_all_keys items w :
  Dict.keys (repair_all head items w) `sublist_of` Dict.keys items.
Proof.
  unfold Dict.keys. revert w.
  induction items as [|item items IH]; intros w; [done|].
  cbn [repair_all]. rewrite fmap_app, fmap_cons.
  destruct (recheck_group head item.2 w).1.
  - change ([(item.1, g)].*1) with [item.1]. simpl. by apply sublist_skip.
  - change (([] : list (list N * Group)).*1) with ([] : list (list N)). simpl.
    by apply sublist_cons.
Qed.

Lemma marked_sublist cl bs : marked cl bs `sublist_of` cl.
Proof.
  revert bs. induction cl as [|c cl IH]; intros [|[] bs]; simpl;
    try apply sublist_nil_l.
  - by apply sublist_skip.
  - by apply sublist_cons.
Qed.

(** The members of a repaired group are members of the group, in their
    order. *)
Lemma recheck_group_sublist g w g' :
  (recheck_group head g w).1 = Some g' →
  g_channel_name g' = g_channel_name g ∧
  Arrange.primary g' :: childlist g' `sublist_of` Arrange.primary g :: childlist g.
Proof.
  unfold recheck_group. rewrite check_childlist_spec. simpl. unfold repaired.
  pose proof (marked_sublist (childlist g)
                (outcomes head (childlist g) (check_main head g w).2)) as Hsub.
  fold (reachable head (childlist g) (check_main head g w).2) in Hsub.
  destruct (check_main head g w).1.
  - intros [= <-]. split; [done|]. by apply sublist_skip.
  - destruct (reachable head (childlist g) _) as [|c cs]; [done|].
    intros [= <-]. split; [done|]. simpl. apply sublist_cons.
    by destruct c.
Qed.

(** ** The snapshot in the output file *)

Lemma succ_mod_10 (c : nat) :
  S c `mod` 10 ≠ 0 → 10 ≤ S c → S c `mod` 10 = c `mod` 10 + 1 ∧ 10 ≤ c.
Proof.
  intros H1 H2.
  pose proof (Nat.div_mod_eq (S c) 10) as E1.
  pose proof (Nat.div_mod_eq c 10) as E2.
  pose proof (Nat.mod_upper_bound (S c) 10 ltac:(lia)) as B1.
  pose proof (Nat.mod_upper_bound c 10 ltac:(lia)) as B2.
  split; [|destruct (decide (c = 9)) as [->|]; [done|lia]].
  nia.
Qed.

Lemma run_snapshot total file0 w items :
  NoDup (Dict.keys items) →
  10 ≤ checked_groups (run head total (init file0 w) items) →
  ∃ m, output_file (run head total (init file0 w) items) = Some m ∧
       m `prefix_of` final_channels (run head total (init file0 w) items) ∧
       length (final_channels (run head total (init file0 w) items))
         ≤ length m + checked_groups (run head total (init file0 w) items) `mod` 10.
Proof.
  induction items as [|item items IH] using rev_ind; intros Hnd.
  - simpl. lia.
  - unfold Dict.keys in Hnd. rewrite fmap_app in Hnd.
    apply NoDup_app in Hnd as (Hitems & Hfresh & _).
    destruct (run_final total (init file0 w) items Hitems) as [Hfinal Hchecked].
    { intros k _ Hk. by apply elem_of_nil in Hk. }
    simpl in Hfinal, Hchecked.
    assert (item.1 ∉ Dict.keys (final_channels (run head total (init file0 w) items)))
      as Hitem.
    { rewrite Hfinal. intros Hin.
      apply (λ H, elem_of_sublist _ _ _ H (repair_all_keys items w)) in Hin.
      apply (Hfresh _ Hin). apply list_elem_of_here. }
    specialize (IH Hitems). rewrite run_app. cbn [run foldl].
    fold (run head total (init file0 w) items).
    set (st := run head total (init file0 w) items) in *.
    unfold step. destruct (recheck_group head item.2 (world st)).1 as [g|];
      cbn [checked_groups output_file final_channels]; [|exact IH].
    rewrite ParseFacts.set_fresh by done.
    destruct (bool_decide (S (checked_groups st) `mod` 10 = 0)
              || bool_decide (S (checked_groups st) = total)) eqn:Hwrite.
    + intros _. eexists. split; [done|]. split; [done | lia].
    + apply orb_false_iff in Hwrite as [Hmod%bool_decide_eq_false _].
      intros Hten. destruct (succ_mod_10 _ Hmod Hten) as [-> Hge].
      destruct (IH Hge) as (m & Hm & Hpre & Hlen).
      exists m. split_and!; [done | by apply prefix_app_r |].
      rewrite length_app. cbn [length]. lia.
Qed.

(** ** A stable network *)

Lemma reachable_stable alive cl w :
  stable head alive →
  reachable head cl w = filter (λ c, alive_child alive c = true) cl.
Proof.
  intros Hstable.
  unfold reachable. revert w. induction cl as [|c cl IH]; intros w; simpl; [done|].
  rewrite filter_cons, IH.
  assert ((probe_child head c w).1 = alive_child alive c) as ->.
  { unfold probe_child, alive_child.
    destruct (stream_url c) as [[|a u]|]; [done| |done]. apply Hstable. }
  by destruct (alive_child alive c).
Qed.

Lemma recheck_group_stable alive g w :
  stable head alive →
  (recheck_group head g w).1 = repair_pure alive g.
Proof.
  intros Hstable.
  unfold recheck_group, repair_pure. rewrite check_childlist_spec. simpl.
  rewrite (reachable_stable alive) by done. f_equal. unfold check_main, alive_main.
  destruct (g_stream_url g) as [[|c u]|]; [done| |done]. apply Hstable.
Qed.

Lemma repair_all_stable alive items w :
  stable head alive →
  repair_all head items w =
    omap (λ item : list N * Group, (item.1,.) <$> repair_pure alive item.2) items.
Proof.
  intros Hstable.
  revert w. induction items as [|item items IH]; intros w; [done|].
  cbn [repair_all]. rewrite IH, (recheck_group_stable alive) by done.
  csimpl. by destruct (repair_pure alive item.2).
Qed.

End WithNetwork.

Lemma filter_filter_same {A} (P : A → Prop) `{∀ x, Decision (P x)} (l : list A) :
  filter P (filter P l) = filter P l.
Proof.
  induction l as [|x l IH]; [done|]. rewrite filter_cons.
  case_decide; [|done]. by rewrite filter_cons_True, IH.
Qed.

(** A repaired group is left as it is by a second repair. *)
Lemma repair_pure_fixed alive g g' :
  repair_pure alive g = Some g' → repair_pure alive g' = Some g'.
Proof.
  unfold repair_pure, repaired.
  destruct (alive_main alive g) eqn:Hmain.
  - intros [= <-]. simpl.
    assert (alive_main alive
              {| g_source_url := g_source_url g;
                 g_channel_name := g_channel_name g;
                 g_stream_url := g_stream_url g;
                 g_attributes := g_attributes g;
                 childlist := filter (λ c, alive_child alive c = true) (childlist g) |}
            = true) as -> by done.
    by rewrite filter_filter_same.
  - destruct (filter _ (childlist g)) as [|c cs] eqn:Hf; [done|].
    intros [= <-]. simpl.
    assert (alive_child alive c = true ∧
            filter (λ c, alive_child alive c = true) cs = cs) as [Hc Hcs].
    { pose proof (filter_filter_same (λ c, alive_child alive c = true)
                    (childlist g)) as Hff.
      rewrite Hf in Hff.
      assert (c ∈ filter (λ c, alive_child alive c = true) (childlist g)) as Hin
        by (rewrite Hf; apply list_elem_of_here).
      apply list_elem_of_filter in Hin as [Hc _]. split; [done|].
      rewrite filter_cons_True in Hff by done. by injection Hff. }
    assert (alive_main alive
              {| g_source_url := source_url c;
                 g_channel_name := g_channel_name g;
                 g_stream_url := stream_url c;
                 g_attributes := attributes c;
                 childlist := cs |} = true) as -> by exact Hc.
    by rewrite Hcs.
Qed.

Lemma omap_repair_idempotent alive (items : list (list N * Group)) :
  omap (λ item : list N * Group, (item.1,.) <$> repair_pure alive item.2)
    (omap (λ item : list N * Group, (item.1,.) <$> repair_pure alive item.2) items)
  = omap (λ item : list N * Group, (item.1,.) <$> repair_pure alive item.2) items.
Proof.
  induction items as [|[name g] items IH]; [done|]. csimpl.
  destruct (repair_pure alive g) as [g'|] eqn:Hg; csimpl; [|done].
  rewrite (repair_pure_fixed _ _ _ Hg). csimpl. by rewrite IH.
Qed.

End RecheckMoreFacts.

Module RecheckExtras.
Import Py Recheck RecheckSpec RecheckMoreSpec DictFacts RecheckFacts
  RecheckMoreFacts.

Section WithNetwork.
Context {World : Type} (head : list N → World → bool * World).

(** X14.  A group whose primary probes reachable is stored with its
    primary unchanged and with the members of its childlist that probe
    reachable, in their order, as its childlist. *)
Theorem reachable_primary_kept channels file0 w pre name g post :
  NoDup (Dict.keys channels) →
  channels = pre ++ (name, g) :: post →
  (check_main head g (world_after head pre w)).1 = true →
  Dict.get name
    (final_channels (recheck_arranged_channels head channels file0 w))
    = Some {| g_source_url := g_source_url g;
              g_channel_name := g_channel_name g;
              g_stream_url := g_stream_url g;
              g_attributes := g_attributes g;
              childlist :=
                reachable head (childlist g)
                  (check_main head g (world_after head pre w)).2 |}.
Proof.
  intros Hnd Heq Hmain.
  rewrite (recheck_get head channels file0 w pre name g post Hnd Heq).
  unfold recheck_group. rewrite check_childlist_spec. simpl.
  by rewrite Hmain.
Qed.

(** X15.  With distinct names in the input, the final mapping is made of
    the groups kept, repaired, in the order of the input, each under its
    own name: no entry overwrites another, the names are names of the
    input in their order, and the counter is the number of groups of the
    final mapping. *)
Theorem final_mapping_in_input_order channels file0 w :
  NoDup (Dict.keys channels) →
  final_channels (recheck_arranged_channels head channels file0 w)
    = repair_all head channels w ∧
  Dict.keys (final_channels (recheck_arranged_channels head channels file0 w))
    `sublist_of` Dict.keys channels ∧
  checked_groups (recheck_arranged_channels head channels file0 w)
    = length (final_channels (recheck_arranged_channels head channels file0 w)).
Proof.
  intros Hnd. unfold recheck_arranged_channels.
  destruct (run_final head (length channels) (init file0 w) channels Hnd)
    as [Hfinal Hchecked].
  { intros k _ Hk. by apply elem_of_nil in Hk. }
  simpl in Hfinal, Hchecked. rewrite Hfinal, Hchecked.
  split_and!; [done | apply repair_all_keys | done].
Qed.

(** X16.  Every group of the final mapping comes from the group of the
    same name of the input, keeps its channel name, and has for members,
    primary first, members of that group in their order: the repair only
    removes. *)
Theorem repair_only_removes channels file0 w name g' :
  (name, g') ∈ final_channels (recheck_arranged_channels head channels file0 w) →
  ∃ g, (name, g) ∈ channels ∧
       g_channel_name g' = g_channel_name g ∧
       Arrange.primary g' :: childlist g'
         `sublist_of` Arrange.primary g :: childlist g.
Proof.
  unfold recheck_arranged_channels.
  intros [Hin | (pre & g & post & -> & Hg)]%run_elem;
    [by apply elem_of_nil in Hin|].
  exists g. split.
  - apply elem_of_app. right. apply list_elem_of_here.
  - by eapply recheck_group_sublist.
Qed.

(** X17.  On a network whose answers do not change, a second run of
    [recheck_arranged_channels] on the final mapping of a first run gives
    that mapping again. *)
Theorem recheck_idempotent alive channels file0 w file1 w1 :
  stable head alive →
  NoDup (Dict.keys channels) →
  final_channels
    (recheck_arranged_channels head
       (final_channels (recheck_arranged_channels head channels file0 w))
       file1 w1)
    = final_channels (recheck_arranged_channels head channels file0 w).
Proof.
  intros Hstable Hnd.
  assert (∀ items f v, NoDup (Dict.keys items) →
            final_channels (recheck_arranged_channels head items f v)
            = omap (λ item : list N * Group,
                      (item.1,.) <$> repair_pure alive item.2) items) as Hrun.
  { intros items f v Hitems. unfold recheck_arranged_channels.
    destruct (run_final head (length items) (init f v) items Hitems) as [-> _].
    - intros k _ Hk. by apply elem_of_nil in Hk.
    - simpl. by apply repair_all_stable. }
  rewrite (Hrun _ file1 w1).
  - rewrite (Hrun channels file0 w Hnd). apply omap_repair_idempotent.
  - unfold recheck_arranged_channels.
    destruct (run_final head (length channels) (init file0 w) channels Hnd)
      as [-> _].
    + intros k _ Hk. by apply elem_of_nil in Hk.
    + simpl. eapply sublist_NoDup; [exact Hnd | apply repair_all_keys].
Qed.

(** X18.  At every point of a run over distinct names, once ten groups
    have been kept the output file holds the head of the mapping
    accumulated so far, short of fewer than ten groups. *)
Theorem snapshot_within_a_batch channels file0 w pre post :
  NoDup (Dict.keys channels) →
  channels = pre ++ post →
  10 ≤ checked_groups (run head (length channels) (init file0 w) pre) →
  ∃ m, output_file (run head (length channels) (init file0 w) pre) = Some m ∧
       m `prefix_of`
         final_channels (run head (length channels) (init file0 w) pre) ∧
       length (final_channels (run head (length channels) (init file0 w) pre))
         < length m + 10.
Proof.
  intros Hnd -> Hten. unfold Dict.keys in Hnd. rewrite fmap_app in Hnd.
  apply NoDup_app in Hnd as (Hpre & _ & _).
  destruct (run_snapshot head (length (pre ++ post)) file0 w pre Hpre Hten)
    as (m & Hm & Hprefix & Hlen).
  exists m. split_and!; [done..|].
  pose proof (Nat.mod_upper_bound
                (checked_groups (run head (length (pre ++ post)) (init file0 w) pre))
                10) as Hb.
  lia.
Qed.

End WithNetwork.

Lemma reachable_primary_kept_witness :
  Dict.get (lit "Live")
    (final_channels
       (recheck_arranged_channels MoreSamples.network_primary
          Samples.arranged None ()))
    = Some {| g_source_url := g_source_url Samples.g_live;
              g_channel_name := g_channel_name Samples.g_live;
              g_stream_url := g_stream_url Samples.g_live;
              g_attributes := g_attributes Samples.g_live;
              childlist :=
                reachable MoreSamples.network_primary
                  (childlist Samples.g_live) () |}.
Proof.
  apply (reachable_primary_kept MoreSamples.network_primary Samples.arranged
           None () [(lit "Dead", Samples.g_dead)] (lit "Live") Samples.g_live []).
  - apply (bool_decide_unpack _). vm_compute. exact I.
  - reflexivity.
  - vm_compute. reflexivity.
Defined.

Lemma final_mapping_in_input_order_witness :
  final_channels
    (recheck_arranged_channels Samples.network Samples.arranged None ())
    = repair_all Samples.network Samples.arranged () ∧
  Dict.keys
    (final_channels
       (recheck_arranged_channels Samples.network Samples.arranged None ()))
    `sublist_of` Dict.keys Samples.arranged ∧
  checked_groups
    (recheck_arranged_channels Samples.network Samples.arranged None ())
    = length
        (final_channels
           (recheck_arranged_channels Samples.network Samples.arranged None ())).
Proof.
  apply (final_mapping_in_input_order Samples.network Samples.arranged None ()).
  apply (bool_decide_unpack _). vm_compute. exact I.
Defined.

Lemma repair_only_removes_witness :
  ∃ g, (lit "Live", g) ∈ Samples.arranged ∧
       g_channel_name Samples.g_repaired = g_channel_name g ∧
       Arrange.primary Samples.g_repaired :: childlist Samples.g_repaired
         `sublist_of` Arrange.primary g :: childlist g.
Proof.
  apply (repair_only_removes Samples.network Samples.arranged None ()).
  vm_compute. apply list_elem_of_here.
Defined.

Lemma recheck_idempotent_witness :
  final_channels
    (recheck_arranged_channels Samples.network
       (final_channels
          (recheck_arranged_channels Samples.network Samples.arranged None ()))
       None ())
    = final_channels
        (recheck_arranged_channels Samples.network Samples.arranged None ()).
Proof.
  apply (recheck_idempotent Samples.network MoreSamples.alive_b_c).
  - intros url w. reflexivity.
  - apply (bool_decide_unpack _). vm_compute. exact I.
Defined.

Lemma snapshot_within_a_batch_witness :
  ∃ m, output_file
         (run Samples.network (length (MoreSamples.many 12)) (init None ())
            (MoreSamples.many 11)) = Some m ∧
       m `prefix_of`
         final_channels
           (run Samples.network (length (MoreSamples.many 12)) (init None ())
              (MoreSamples.many 11)) ∧
       length
         (final_channels
            (run Samples.network (length (MoreSamples.many 12)) (init None ())
               (MoreSamples.many 11)))
         < length m + 10.
Proof.
  apply (snapshot_within_a_batch Samples.network (MoreSamples.many 12) None ()
           (MoreSamples.many 11) (drop 11 (MoreSamples.many 12))).
  - apply (bool_decide_unpack _). vm_compute. exact I.
  - vm_compute. reflexivity.
  - apply (bool_decide_unpack _). vm_compute. exact I.
Defined.

End RecheckExtras.

(** * Further properties of [arrange_channel.py] *)

Module ArrangeMoreFacts.
Import Py Arrange ArrangeSpec ArrangeMoreSpec DictFacts ArrangeFacts.

Lemma reselect_name g g' : reselect g = Some g' → g_channel_name g' = g_channel_name g.
Proof.
  intros Hr. destruct (reselect_cases _ _ Hr)
    as [[-> _] | [[-> _] | (best & k & -> & _)]]; done.
Qed.

Lemma arrange_channels_keys channels groups :
  arrange_channels channels = Some groups →
  Dict.keys groups = Dict.keys (group_channels channels).
Proof.
  unfold arrange_channels, Dict.keys. intros Hm%mapM_Some_1.
  induction Hm as [|[n g] y l k Hf _ IH]; [done|].
  rewrite !fmap_cons, IH. f_equal. simpl in Hf.
  destruct (reselect g); by simplify_eq/=.
Qed.

Lemma members_nil name channels :
  members name channels = [] ↔ ∀ item, item ∈ channels → name_of item.2 ≠ name.
Proof.
  unfold members. split.
  - intros Hnil item Hin Hname.
    by apply (filter_nil_not_elem_of _ _ item Hnil Hname).
  - intros Hall. induction channels as [|x channels IH]; [done|].
    rewrite filter_cons_False by (apply Hall, list_elem_of_here).
    apply IH. intros item Hin. by apply Hall, list_elem_of_further.
Qed.

Lemma group_channels_keys_elem channels name :
  name ∈ Dict.keys (group_channels channels) ↔
  ∃ item, item ∈ channels ∧ name_of item.2 = name.
Proof.
  destruct (decide (name ∈ Dict.keys (group_channels channels))) as [Hin|Hnin].
  - split; [intros _ | done].
    destruct (members name channels) as [|item rest] eqn:Hm.
    + exfalso. apply get_None_keys in Hin; [done|].
      by rewrite group_channels_get, Hm.
    + assert (item ∈ members name channels) as Hitem
        by (rewrite Hm; apply list_elem_of_here).
      apply list_elem_of_filter in Hitem as [Hname Hitem]. by exists item.
  - split; [done|]. intros (item & Hitem & Hname). exfalso.
    apply get_None_keys in Hnin. rewrite group_channels_get in Hnin.
    destruct (members name channels) eqn:Hm; [|done].
    by apply (proj1 (members_nil name channels) Hm item).
Qed.

Lemma filter_all {A} (P : A → Prop) `{∀ x, Decision (P x)} (l : list A) :
  Forall P l → filter P l = l.
Proof.
  induction 1 as [|x l Hx _ IH]; [done|]. by rewrite filter_cons_True, IH.
Qed.

(** The members of a group after a promotion, against the partition. *)
Lemma promoted_members (first b : Child) (rest : list Child) :
  b ∈ rest →
  b :: (filter (λ e, stream_url e ≠ stream_url b) rest ++ [first])
    ⊆+ first :: rest ∧
  (NoDup (stream_url <$> rest) →
   b :: (filter (λ e, stream_url e ≠ stream_url b) rest ++ [first])
     ≡ₚ first :: rest).
Proof.
  intros [k Hk]%elem_of_Permutation.
  assert (filter (λ e, stream_url e ≠ stream_url b) rest
          ≡ₚ filter (λ e, stream_url e ≠ stream_url b) k) as Hf.
  { rewrite Hk. by rewrite filter_cons_False by (intros ?; done). }
  split.
  - rewrite Hf, Hk.
    rewrite (Permutation_app_comm _ [first]). simpl.
    rewrite (Permutation_swap b first). apply submseteq_skip, submseteq_skip.
    apply sublist_submseteq, sublist_filter.
  - intros Hnd. rewrite Hk in Hnd. rewrite fmap_cons in Hnd.
    apply NoDup_cons in Hnd as [Hb _].
    rewrite Hf, Hk, filter_all.
    + rewrite (Permutation_app_comm _ [first]). simpl. apply Permutation_swap.
    + apply Forall_forall. intros c Hc Hurl. apply Hb.
      apply list_elem_of_fmap. by exists c.
Qed.

(** ** When the run fails *)

Lemma grouped_records name items g0 :
  grouped name items = Some g0 →
  (λ item : list N * ChannelInfo, child_of item.2) <$> items
    = record <$> all_entries g0.
Proof.
  destruct items as [|first rest]; [done|]. intros [= <-].
  by rewrite all_entries_records.
Qed.

Lemma scan_fails_inv test es :
  scan test es = None →
  ∃ pre e post, es = pre ++ e :: post ∧ entry_stream_url e = None ∧
    Forall (λ x, ∃ u, entry_stream_url x = Some u ∧ test u = false) pre.
Proof.
  induction es as [|x es IH]; simpl; [done|].
  destruct (entry_stream_url x) as [u|] eqn:Hu.
  - destruct (test u) eqn:Ht; [done|].
    intros (pre & e & post & -> & He & Hpre)%IH.
    exists (x :: pre), e, post. split_and!; [done..|].
    constructor; [by exists u | done].
  - intros _. by exists [], x, es.
Qed.

Lemma scan_fails pre e post :
  entry_stream_url e = None →
  Forall (λ x, class_of (record x) ≠ Some 1) pre →
  scan https_v4 (pre ++ e :: post) = None.
Proof.
  intros He Hpre. induction Hpre as [|x pre Hx _ IH]; simpl; [by rewrite He|].
  destruct (entry_stream_url x) as [u|] eqn:Hu; [|done].
  destruct (https_v4 u) eqn:Ht; [|done]. destruct Hx.
  unfold class_of. rewrite <- entry_stream_url_record, Hu. simpl.
  by apply (test_of_class u 1).
Qed.

Lemma find_best_fails es : find_best es = None ↔ scan https_v4 es = None.
Proof.
  split.
  - intros Hf. destruct (scan https_v4 es) as [[e|]|] eqn:H1; [| |done].
    + unfold find_best, pass in Hf. by rewrite H1 in Hf.
    + apply (scan_none 1) in H1.
      destruct (find_best_is_Some es) as [r Hr]; [|congruence].
      eapply Forall_impl; [exact H1|]. intros x (u & -> & _). done.
  - intros H1. unfold find_best, pass. by rewrite H1.
Qed.

Lemma reselect_fails g : reselect g = None ↔ scan https_v4 (all_entries g) = None.
Proof.
  rewrite <- find_best_fails. unfold reselect.
  destruct (find_best (all_entries g)) as [[[|]|]|]; by split.
Qed.

(** The loops raise exactly on an unscannable store. *)
Lemma arrange_channels_None_iff channels :
  arrange_channels channels = None ↔ unscannable channels.
Proof.
  unfold arrange_channels. rewrite mapM_None, Exists_exists. split.
  - intros ([name g0] & Hin & Hf). simpl in Hf.
    assert (reselect g0 = None) as Hr by (by destruct (reselect g0)).
    apply reselect_fails, scan_fails_inv in Hr
      as (pre & e & post & Heq & He & Hpre).
    apply elem_get in Hin; [|apply group_channels_NoDup].
    rewrite group_channels_get in Hin.
    exists name, (record <$> pre), (record e), (record <$> post). split_and!.
    + unfold member_records. rewrite (grouped_records _ _ _ Hin).
      by rewrite Heq, fmap_app.
    + by rewrite <- entry_stream_url_record.
    + apply Forall_fmap. eapply Forall_impl; [exact Hpre|].
      intros x Hx. by apply (misses_class 1).
  - intros (name & pre & r & post & Hrec & Hr & Hpre).
    unfold member_records in Hrec.
    destruct (grouped name (members name channels)) as [g0|] eqn:Hg0.
    + exists (name, g0). split.
      * apply get_Some_elem. by rewrite group_channels_get.
      * simpl. assert (reselect g0 = None) as ->; [|done].
        apply reselect_fails.
        rewrite (grouped_records _ _ _ Hg0) in Hrec.
        apply fmap_app_inv in Hrec as (pre' & es & -> & Hes & ->).
        symmetry in Hes.
        apply fmap_cons_inv in Hes as (e & post' & -> & -> & ->).
        apply scan_fails.
        -- by rewrite entry_stream_url_record.
        -- rewrite Forall_fmap in Hpre. exact Hpre.
    + destruct (members name channels); [by destruct pre | done].
Qed.


End ArrangeMoreFacts.

Module ArrangeExtras.
Import Py Arrange ArrangeFile ArrangeSpec ArrangeMoreSpec DictFacts ArrangeFacts
  ArrangeMoreFacts.

(** X19.  The mapping built by [arrange_channels] has one group for each
    channel name of the store and for no other name, each group under its
    name once, and the [channel_name] of a group is the name it is stored
    under. *)
Theorem groups_are_the_names channels groups :
  arrange_channels channels = Some groups →
  NoDup (Dict.keys groups) ∧
  (∀ name, name ∈ Dict.keys groups ↔
           ∃ item, item ∈ channels ∧ name_of item.2 = name) ∧
  (∀ name g, (name, g) ∈ groups → g_channel_name g = name).
Proof.
  intros Ha. rewrite (arrange_channels_keys _ _ Ha). split_and!.
  - apply group_channels_NoDup.
  - apply group_channels_keys_elem.
  - intros name g Hin.
    destruct (arrange_channels_elem _ _ _ _ Ha Hin) as (g0 & Hg0 & Hr).
    rewrite (reselect_name _ _ Hr).
    destruct (members name channels); simpl in Hg0; [done|].
    by injection Hg0 as <-.
Qed.

(** X20.  The members of a group built by [arrange_channels], primary and
    childlist together, are records of the partition of its name, none
    of them invented or counted more often than the store has it; when the
    stream URLs of the partition are pairwise distinct they are exactly the
    records of the partition, rearranged. *)
Theorem members_are_conserved channels groups name g :
  arrange_channels channels = Some groups →
  (name, g) ∈ groups →
  primary g :: childlist g ⊆+ member_records name channels ∧
  (NoDup (stream_url <$> member_records name channels) →
   primary g :: childlist g ≡ₚ member_records name channels).
Proof.
  intros Ha Hin.
  destruct (arrange_channels_shape _ _ _ _ Ha Hin)
    as (first & rest & -> & [[-> ->] | (Hp & _ & ->)]); [done|].
  destruct (promoted_members first (primary g) rest Hp) as [Hsub Hperm].
  split; [exact Hsub|]. intros Hnd. apply Hperm.
  rewrite fmap_cons in Hnd. by apply NoDup_cons in Hnd as [_ ?].
Qed.

(** X21.  The priority pass leaves a group as the grouping made it, the
    first-seen member primary and the later members in the childlist in the
    order of the store, when no member of the partition has a class, and
    also when the first-seen member is of class 1. *)
Theorem group_left_unchanged channels groups name g first rest :
  arrange_channels channels = Some groups →
  (name, g) ∈ groups →
  member_records name channels = first :: rest →
  (∀ r, r ∈ first :: rest → class_of r = None) ∨ class_of first = Some 1 →
  primary g = first ∧ childlist g = rest.
Proof.
  intros Ha Hin Hrec Hcase.
  destruct (arrange_channels_group _ _ _ _ Ha Hin) as (g0 & Hrec0 & Hr).
  rewrite Hrec in Hrec0. injection Hrec0 as -> ->.
  destruct (reselect_cases _ _ Hr)
    as [[-> _] | [[-> _] | (best & k & -> & Hf)]]; [done..|].
  exfalso. destruct Hf as (pre & post & Heq & Hk & Hpre & Hleast).
  destruct Hcase as [Hnone | Hfirst].
  - rewrite Hnone in Hk; [done|]. rewrite <- all_entries_records, Heq.
    apply list_elem_of_fmap. exists (Alt best). split; [done|].
    apply elem_of_app. right. apply list_elem_of_here.
  - unfold all_entries in Heq. destruct pre as [|x pre]; [done|].
    simpl in Heq. injection Heq as <- _.
    apply Forall_cons in Hpre as [Hne _]. simpl in Hne.
    assert (k ≤ 1) as Hle.
    { rewrite Forall_forall in Hleast.
      apply (Hleast (Main g0)); [|done]. unfold all_entries.
      apply list_elem_of_here. }
    assert (1 ≤ k ≤ 4) as Hrange.
    { unfold class_of in Hk. destruct (stream_url (record (Alt best))); [|done].
      by eapply priority_class_range. }
    apply Hne. rewrite Hfirst. f_equal. lia.
Qed.

Section WithFile.
Context {World : Type}.
Context (dump : list (list N * Group) → World → bool * World).

(** X22.  A run of [arrange_channels] on a mapping that was read ends in
    its error handler exactly when some partition has a member without
    stream URL that no member of class 1 precedes, in which case a test
    of the priority pass raises and nothing is written, or when the loops
    build the grouped mapping and its write raises. *)
Theorem arrange_fails_iff channels w :
  ((arrange_and_save dump channels w).1 = error ↔
     unscannable channels ∨
     ∃ grouped, arrange_channels channels = Some grouped ∧
                (dump grouped w).1 = false) ∧
  (unscannable channels → arrange_and_save dump channels w = (error, w)).
Proof.
  unfold arrange_and_save.
  destruct (arrange_channels channels) as [grouped|] eqn:Ha.
  - assert (¬ unscannable channels) as Hno.
    { intros Hu%arrange_channels_None_iff. congruence. }
    split; [|by intros ?]. cbn [fst]. split.
    + intros Herr. right. exists grouped. split; [done|].
      by destruct (dump grouped w).1.
    + intros [Hu | (grouped' & [= <-] & ->)]; [by destruct Hno | done].
  - apply arrange_channels_None_iff in Ha. split; [|done].
    split; [by left | done].
Qed.

End WithFile.

Lemma groups_are_the_names_witness :
  NoDup (Dict.keys [(lit "Channel A", Samples.group_priority)]) ∧
  (∀ name, name ∈ Dict.keys [(lit "Channel A", Samples.group_priority)] ↔
           ∃ item, item ∈ Samples.store_priority ∧ name_of item.2 = name) ∧
  (∀ name g, (name, g) ∈ [(lit "Channel A", Samples.group_priority)] →
             g_channel_name g = name).
Proof.
  apply (groups_are_the_names Samples.store_priority).
  vm_compute. reflexivity.
Defined.

Lemma members_are_conserved_witness :
  primary Samples.group_priority :: childlist Samples.group_priority
    ≡ₚ member_records (lit "Channel A") Samples.store_priority.
Proof.
  apply (proj2 (members_are_conserved Samples.store_priority
                  [(lit "Channel A", Samples.group_priority)]
                  (lit "Channel A") Samples.group_priority
                  ltac:(vm_compute; reflexivity)
                  ltac:(apply list_elem_of_here))).
  apply (bool_decide_unpack _). vm_compute. exact I.
Defined.

Lemma group_left_unchanged_witness :
  primary Samples.group_twice = child_of Samples.i_https4 ∧
  childlist Samples.group_twice = [child_of Samples.i_https4].
Proof.
  apply (group_left_unchanged Samples.store_twice
           [(lit "Channel A", Samples.group_twice)] (lit "Channel A")).
  - vm_compute. reflexivity.
  - apply list_elem_of_here.
  - vm_compute. reflexivity.
  - right. vm_compute. reflexivity.
Defined.

Lemma arrange_fails_iff_witness :
  (arrange_and_save dump_done MoreSamples.store_no_url ()).1 = error.
Proof.
  apply (proj2 (proj1 (arrange_fails_iff dump_done MoreSamples.store_no_url ()))).
  left.
  exists (lit "Channel A"), [child_of Samples.i_http4],
    (child_of MoreSamples.i_no_url), [].
  split_and!.
  - vm_compute. reflexivity.
  - reflexivity.
  - repeat constructor. vm_compute. discriminate.
Defined.

End ArrangeExtras.

(** * Further properties of the [main] of [parse.py] *)

Module ParseMainFacts.
Import Py Parse ParseSpec ParseFile ParseMain DictFacts ParseFacts ParseMoreFacts.

Section WithDownload.
Context {World : Type} (get : list N → World → option (list N) * World).

(** The entries of a manifest stay when another manifest is parsed. *)
Lemma parse_and_save_other m3u_url content existing other j :
  other ≠ m3u_url →
  (parse_and_save m3u_url content existing ≫= Dict.get (channel_key other j))
    = existing ≫= Dict.get (channel_key other j).
Proof.
  intros Hother. unfold parse_and_save, parse_m3u_to_json.
  destruct (split_lines content) as [|first rest]; [done|].
  destruct (startswith (strip first) (lit "#EXTM3U")); [|done].
  destruct (Dict.get (channel_key other j)
              (channels (parse_lines m3u_url (first :: rest))))
    as [info|] eqn:Hget.
  - exfalso. apply get_Some_elem in Hget.
    assert (channel_key other j
              ∈ Dict.keys (channels (parse_lines m3u_url (first :: rest))))
      as Hin by (apply list_elem_of_fmap; by exists (channel_key other j, info)).
    destruct (keys_below_parse_lines m3u_url (first :: rest) _ Hin)
      as (i & _ & Heq).
    by apply channel_key_inj2 in Heq as [? _].
  - destruct existing as [existing|]; simpl; [|done].
    by rewrite get_update, Hget by apply parse_keys_NoDup.
Qed.

Lemma foldl_parse_one_other st manifests other j :
  other ∉ manifests.*2 →
  ((foldl (parse_one get) st manifests).1 ≫= Dict.get (channel_key other j))
    = st.1 ≫= Dict.get (channel_key other j).
Proof.
  revert st. induction manifests as [|item manifests IH]; intros st Hother; [done|].
  rewrite fmap_cons in Hother. apply not_elem_of_cons in Hother as [Hne Hother].
  simpl. rewrite IH by done. unfold parse_one. simpl.
  destruct (get item.2 st.2).1; [|done]. by apply parse_and_save_other.
Qed.

End WithDownload.
End ParseMainFacts.

Module ParseMainExtras.
Import Py Parse ParseSpec ParseFile ParseMain DictFacts ParseFacts ParseMoreFacts
  ParseMainFacts.

Section WithDownload.
Context {World : Type} (get : list N → World → option (list N) * World).

(** X23.  After [main], the store holds every entry of every manifest
    that was downloaded and had the header, under the key of that entry,
    provided no later line of [channels_url.json] names the same URL:
    manifests parsed later do not overwrite it. *)
Theorem main_keeps_every_manifest manifests w pre label m3u_url post
    content channels key info :
  manifests = pre ++ (label, m3u_url) :: post →
  m3u_url ∉ post.*2 →
  (get m3u_url (main get pre w).2).1 = Some content →
  parse_m3u_to_json m3u_url content = Some channels →
  (key, info) ∈ channels →
  (main get manifests w).1 ≫= Dict.get key = Some info.
Proof.
  intros -> Hlater Hget Hparse Hin. unfold main. rewrite foldl_app. simpl.
  fold (main get pre w).
  assert (∃ j, key = channel_key m3u_url j) as [j ->].
  { unfold parse_m3u_to_json in Hparse.
    destruct (split_lines content) as [|first rest]; [done|].
    destruct (startswith (strip first) (lit "#EXTM3U")); [|done].
    injection Hparse as <-.
    assert (key ∈ Dict.keys (channels (parse_lines m3u_url (first :: rest))))
      as Hk by (apply list_elem_of_fmap; by exists (key, info)).
    destruct (keys_below_parse_lines m3u_url (first :: rest) _ Hk)
      as (j & _ & ->). by exists j. }
  rewrite foldl_parse_one_other by done.
  unfold parse_one. simpl. rewrite Hget. unfold parse_and_save. rewrite Hparse.
  simpl.
  assert (NoDup (Dict.keys channels)) as Hnd.
  { unfold parse_m3u_to_json in Hparse.
    destruct (split_lines content) as [|first rest]; [done|].
    destruct (startswith (strip first) (lit "#EXTM3U")); [|done].
    injection Hparse as <-. apply parse_keys_NoDup. }
  destruct (main get pre w).1 as [existing|]; simpl.
  - by rewrite get_update, (elem_get _ _ _ Hnd Hin).
  - by apply elem_get.
Qed.

End WithDownload.

Lemma main_keeps_every_manifest_witness :
  (main MoreSamples.download MoreSamples.manifests ()).1
    ≫= Dict.get (lit "m1_0") = Some MoreSamples.entry_a.
Proof.
  apply (main_keeps_every_manifest MoreSamples.download MoreSamples.manifests ()
           [] (lit "a") (lit "m1") [(lit "b", lit "m2")]
           MoreSamples.manifest_text [(lit "m1_0", MoreSamples.entry_a)]).
  - reflexivity.
  - apply (bool_decide_unpack _). vm_compute. exact I.
  - vm_compute. reflexivity.
  - vm_compute. reflexivity.
  - apply list_elem_of_here.
Defined.

End ParseMainExtras.

(** * Further properties of [main.py] *)

Module SplitFacts.
Import Py Parse ParseSpec ParseMoreSpec ParseFile DictFacts ParseFacts
  ParseMoreFacts SplitSpec.

(** ** The loop of [split_m3u_by_channel] *)

Lemma split_step_metadata st raw :
  classify raw = Metadata →
  Split.step st raw =
    {| Split.channels := Split.channels st;
       Split.current_channel := Some (pending_channel raw) |}.
Proof.
  unfold classify, Split.step, pending_channel.
  destruct (strip raw) as [|c line]; [done|].
  destruct (startswith (c :: line) (lit "#EXTINF")); [done|].
  by destruct (startswith (c :: line) (lit "http")).
Qed.

Lemma split_step_ignored st raw : classify raw = Ignored → Split.step st raw = st.
Proof.
  unfold classify, Split.step. destruct (strip raw) as [|c line]; [done|].
  destruct (startswith (c :: line) (lit "#EXTINF")); [done|].
  by destruct (startswith (c :: line) (lit "http")).
Qed.

Lemma split_step_endpoint st raw :
  classify raw = Endpoint →
  Split.step st raw =
    match Split.current_channel st with
    | Some ch =>
        {| Split.channels :=
             Split.channels st ++ [{| Split.extinf := Split.extinf ch;
                                      Split.name := Split.name ch;
                                      Split.attributes := Split.attributes ch;
                                      Split.urls := Split.urls ch ++ [strip raw] |}];
           Split.current_channel := None |}
    | None => st
    end.
Proof.
  unfold classify, Split.step. destruct (strip raw) as [|c line]; [done|].
  destruct (startswith (c :: line) (lit "#EXTINF")); [done|].
  by destruct (startswith (c :: line) (lit "http")).
Qed.

Lemma from_lines_mono lines raw ch :
  from_lines lines ch → from_lines (lines ++ [raw]) ch.
Proof.
  intros (meta & raw' & ? & ? & ? & ? & ->). exists meta, raw'.
  rewrite !elem_of_app. tauto.
Qed.

Lemma loops_in_step m3u_url lines :
  in_step m3u_url lines (parse_lines m3u_url lines)
    (foldl Split.step {| Split.channels := []; Split.current_channel := None |} lines).
Proof.
  induction lines as [|raw lines IH] using rev_ind.
  { split; [done|]. split; [constructor|]. by left. }
  rewrite parse_lines_snoc, foldl_snoc.
  pose proof (keys_below_parse_lines m3u_url lines) as Hkeys.
  destruct IH as (Hch & Hfrom & Hcur).
  assert (Forall (from_lines (lines ++ [raw]))
            (Split.channels (foldl Split.step
               {| Split.channels := []; Split.current_channel := None |} lines)))
    as Hfrom'.
  { eapply Forall_impl; [exact Hfrom|]. intros ch. apply from_lines_mono. }
  destruct (classify raw) eqn:Hk.
  - rewrite step_metadata, split_step_metadata by done.
    split; [done|]. split; [exact Hfrom'|]. right. exists raw.
    split; [apply elem_of_app; right; apply list_elem_of_here|]. done.
  - rewrite step_endpoint, split_step_endpoint by done.
    destruct Hcur as [[Hp Hs]|(meta & Hmeta & Hkm & -> & ->)].
    + rewrite Hp, Hs. split; [done|]. split; [exact Hfrom'|]. by left.
    + split; [|split; [|by left]]; cbn [Parse.channels Split.channels].
      * rewrite set_fresh by by apply next_key_fresh.
        rewrite !fmap_app, Hch. done.
      * apply Forall_app. split; [exact Hfrom'|]. constructor; [|constructor].
        exists meta, raw. rewrite !elem_of_app.
        split; [tauto|]. split; [right; apply list_elem_of_here|]. done.
  - rewrite step_ignored, split_step_ignored by done.
    split; [done|]. split; [exact Hfrom'|].
    destruct Hcur as [?|(meta & Hmeta & ?)]; [by left|].
    right. exists meta. split; [apply elem_of_app; by left|]. done.
Qed.

(** ** The names of the files *)

Lemma str_of_nat_digits n : str_of_nat n = digits (Nat.to_uint n).
Proof.
  unfold str_of_nat, digits, NilZero.string_of_uint.
  pose proof (to_uint_nonnil n) as Hn. by destruct (Nat.to_uint n).
Qed.

Lemma zeros_digits k d :
  replicate k 48%N ++ digits d = digits (Nat.iter k Decimal.D0 d).
Proof.
  induction k as [|k IH]; [done|].
  cbn [replicate Nat.iter]. rewrite <- app_comm_cons, IH. reflexivity.
Qed.

Lemma digits_inj d1 d2 : digits d1 = digits d2 → d1 = d2.
Proof.
  revert d2. unfold digits.
  induction d1 as [|d1 IH|d1 IH|d1 IH|d1 IH|d1 IH|d1 IH|d1 IH|d1 IH|d1 IH|d1 IH];
    intros [|d2|d2|d2|d2|d2|d2|d2|d2|d2|d2];
    cbn [NilEmpty.string_of_uint list_ascii_of_string]; rewrite ?fmap_cons;
    try done; intros [= Heq]; f_equal; by apply IH.
Qed.

Lemma of_uint_zeros k d : Nat.of_uint (Nat.iter k Decimal.D0 d) = Nat.of_uint d.
Proof. induction k as [|k IH]; [done|]. cbn [Nat.iter]. exact IH. Qed.

Lemma digits_range d : Forall (λ c, (48 ≤ c ≤ 57)%N) (digits d).
Proof.
  unfold digits.
  induction d; cbn [NilEmpty.string_of_uint list_ascii_of_string];
    rewrite ?fmap_cons; constructor; (done || (cbn; lia)).
Qed.

Lemma pad3_digits n :
  Split.pad3 n = digits (Nat.iter (3 - length (str_of_nat n)) Decimal.D0 (Nat.to_uint n)).
Proof. unfold Split.pad3. by rewrite <- zeros_digits, <- str_of_nat_digits. Qed.

Lemma pad3_inj i j : Split.pad3 i = Split.pad3 j → i = j.
Proof.
  rewrite !pad3_digits. intros Heq%digits_inj.
  apply (f_equal Nat.of_uint) in Heq.
  by rewrite !of_uint_zeros, !DecimalNat.Unsigned.of_to in Heq.
Qed.

Lemma pad3_range n : Forall (λ c, (48 ≤ c ≤ 57)%N) (Split.pad3 n).
Proof. rewrite pad3_digits. apply digits_range. Qed.

Lemma sanitize_digits s :
  Forall (λ c, (48 ≤ c ≤ 57)%N) s → sanitize_filename s = s.
Proof.
  unfold sanitize_filename. induction 1 as [|c s Hc _ IH]; csimpl; [done|].
  rewrite IH. rewrite bool_decide_eq_false_2; [done|].
  unfold invalid_chars. rewrite !elem_of_cons, elem_of_nil. lia.
Qed.

Lemma file_name_parts i ch :
  Split.file_name i ch =
    Split.pad3 (i + 1) ++ 95%N :: sanitize_filename (Split.name ch) ++ lit ".m3u".
Proof.
  unfold Split.file_name. unfold sanitize_filename at 1.
  rewrite !fmap_app. fold (sanitize_filename (Split.pad3 (i + 1))).
  fold (sanitize_filename (Split.name ch)).
  by rewrite sanitize_digits by apply pad3_range.
Qed.

Lemma split_at_first (c : N) l1 r1 l2 r2 :
  c ∉ l1 → c ∉ l2 → l1 ++ c :: r1 = l2 ++ c :: r2 → l1 = l2.
Proof.
  revert l2. induction l1 as [|x l1 IH]; intros [|y l2] Hl1 Hl2; simpl.
  - done.
  - intros [= <- _]. destruct Hl2. apply list_elem_of_here.
  - intros [= -> _]. destruct Hl1. apply list_elem_of_here.
  - apply not_elem_of_cons in Hl1 as [_ Hl1].
    apply not_elem_of_cons in Hl2 as [_ Hl2].
    intros [= -> Heq]. f_equal. by apply IH with (l2 := l2).
Qed.

Lemma pad3_no_underscore n : 95%N ∉ Split.pad3 n.
Proof.
  intros Hin. pose proof (pad3_range n) as Hr.
  rewrite Forall_forall in Hr. apply Hr in Hin. lia.
Qed.

Lemma file_name_inj i ch j ch' :
  Split.file_name i ch = Split.file_name j ch' → i = j.
Proof.
  rewrite !file_name_parts.
  intros Heq%split_at_first; [|apply pad3_no_underscore ..].
  apply pad3_inj in Heq. lia.
Qed.

(** The loop of the files over files that keep the writes asked of
    them. *)
Lemma write_from_logged {World}
    (write_file : list N → list N → World → bool * World)
    i chans created log w :
  Forall (λ ch, Split.urls ch ≠ []) chans →
  (Split.write_from (logged_files write_file) i chans created (log, w)).1
    = (Split.write_from write_file i chans created w).1 ∧
  (Split.write_from (logged_files write_file) i chans created (log, w)).2.2
    = (Split.write_from write_file i chans created w).2 ∧
  (∃ n, (Split.write_from (logged_files write_file) i chans created (log, w)).2.1
          = log ++ take n (imap (λ j, file_of (i + j)) chans)) ∧
  ((Split.write_from (logged_files write_file) i chans created (log, w)).1 = None ∨
   ((Split.write_from (logged_files write_file) i chans created (log, w)).1
      = Some (created ++ imap (λ j, created_of (i + j)) chans) ∧
    (Split.write_from (logged_files write_file) i chans created (log, w)).2.1
      = log ++ imap (λ j, file_of (i + j)) chans)).
Proof.
  intros Hall. revert i created log w.
  induction Hall as [|ch chans Hch _ IH]; intros i created log w.
  { cbn. split; [done|]. split; [done|].
    split; [exists 0; by rewrite app_nil_r|].
    right. by rewrite !app_nil_r. }
  assert (∀ A (g : nat → Split.Channel → A),
            imap ((λ j, g (i + j)) ∘ S) chans = imap (λ j, g (S i + j)) chans)
    as Hshift.
  { intros A g. apply imap_ext. intros j x _. cbn. by rewrite Nat.add_succ_r. }
  cbn [Split.write_from imap].
  destruct (Split.urls ch) as [|u us] eqn:Hu; [done|].
  change (logged_files write_file ?f ?t (?l, ?w0))
    with ((write_file f t w0).1, (l ++ [(f, t)], (write_file f t w0).2)).
  cbn [fst snd]. rewrite !Hshift, Nat.add_0_r.
  destruct (write_file (Split.file_name i ch) (Split.file_text ch) w)
    as [[] w1] eqn:Hw; cbn [fst snd].
  - destruct (IH (S i)
                (created ++ [{| Split.filename := Split.file_name i ch;
                                Split.channel_name := Split.name ch;
                                Split.stream_count := length (u :: us) |}])
                (log ++ [(Split.file_name i ch, Split.file_text ch)]) w1)
      as (H1 & H2 & [n Hn] & H4).
    split; [exact H1|]. split; [exact H2|]. split.
    + exists (S n). rewrite Hn, <- app_assoc. done.
    + destruct H4 as [H4 | [H4 H5]]; [by left|]. right.
      rewrite H4, H5, <- !app_assoc. unfold created_of at 2. by rewrite Hu.
  - split; [done|]. split; [done|]. split; [by exists 1|]. by left.
Qed.

(** ** Reading a file back *)

Lemma lstrip_app_nonspace l c r :
  isspace c = false → lstrip (l ++ c :: r) = lstrip l ++ c :: r.
Proof.
  intros Hc. induction l as [|x l IH]; simpl; [by rewrite Hc|].
  by destruct (isspace x).
Qed.

Lemma lstrip_all_space l : Forall (λ c, isspace c = true) l → lstrip l = [].
Proof. induction 1 as [|c l Hc _ IH]; simpl; [done|]. by rewrite Hc. Qed.

Lemma lstrip_head s :
  match lstrip s with [] => True | c :: _ => isspace c = false end.
Proof.
  induction s as [|c s IH]; simpl; [done|].
  destruct (isspace c) eqn:Hc; [done|]. exact Hc.
Qed.

Lemma lstrip_fixed c s : isspace c = false → lstrip (c :: s) = c :: s.
Proof. intros Hc. simpl. by rewrite Hc. Qed.

Lemma lstrip_sublist s : lstrip s `sublist_of` s.
Proof.
  induction s as [|c s IH]; simpl; [done|].
  destruct (isspace c); [by apply sublist_cons|done].
Qed.

Lemma strip_elem c s : c ∈ strip s → c ∈ s.
Proof.
  unfold strip, rstrip. rewrite elem_of_reverse.
  intros Hc. eapply elem_of_sublist in Hc; [|apply lstrip_sublist].
  rewrite elem_of_reverse in Hc.
  eapply elem_of_sublist; [exact Hc|apply lstrip_sublist].
Qed.

Lemma trimmed_strip s : trimmed (strip s).
Proof.
  unfold strip, rstrip.
  pose proof (lstrip_head s) as Hhead.
  destruct (lstrip s) as [|c t]; [constructor|].
  pose proof (lstrip_head (reverse (c :: t))) as Hlast.
  rewrite reverse_cons in *.
  rewrite lstrip_app_nonspace in * by done.
  destruct (lstrip (reverse t)) as [|d u].
  - simpl. by constructor.
  - rewrite <- app_comm_cons, reverse_cons, reverse_app. simpl.
    by constructor.
Qed.

Lemma strip_trimmed_line s : trimmed s → strip (s ++ [10%N]) = s.
Proof.
  unfold strip, rstrip. intros [|c Hc|c t d Hc Hd].
  - done.
  - simpl. rewrite Hc. simpl. by rewrite Hc.
  - rewrite <- !app_comm_cons. rewrite lstrip_fixed by done.
    rewrite app_comm_cons, reverse_app. change (reverse [10%N]) with [10%N].
    cbn [app]. change (lstrip (10%N :: ?x)) with (lstrip x).
    rewrite app_comm_cons, reverse_app. change (reverse [d]) with [d].
    cbn [app]. rewrite lstrip_fixed by done.
    by rewrite reverse_cons, reverse_involutive.
Qed.

Lemma universal_newlines_id s : 13%N ∉ s → Playability.universal_newlines s = s.
Proof.
  induction s as [|c s IH]; [done|].
  intros [Hc Hs]%not_elem_of_cons. cbn [Playability.universal_newlines].
  rewrite decide_False by done. by rewrite IH.
Qed.

Lemma keepends_line l rest :
  10%N ∉ l →
  Playability.keepends (l ++ 10%N :: rest) = (l ++ [10%N]) :: Playability.keepends rest.
Proof.
  induction l as [|c l IH]; [done|].
  intros [Hc Hl]%not_elem_of_cons. cbn [app Playability.keepends].
  rewrite decide_False by done. by rewrite IH.
Qed.

Lemma split_lines_no_newline s l : l ∈ split_lines s → 10%N ∉ l.
Proof.
  revert l. induction s as [|c s IH]; intros l; simpl.
  - intros ->%list_elem_of_singleton. apply not_elem_of_nil.
  - case_decide as Hc.
    + intros [->|Hl]%elem_of_cons; [apply not_elem_of_nil|by apply IH].
    + destruct (split_lines s) as [|l0 ls].
      * intros ->%list_elem_of_singleton.
        intros [Heq|?%elem_of_nil]%elem_of_cons; [congruence|done].
      * intros [->|Hl]%elem_of_cons.
        -- apply not_elem_of_cons. split; [congruence|].
           apply IH, list_elem_of_here.
        -- apply IH. by apply list_elem_of_further.
Qed.

Lemma startswith_extinf_not_http s :
  startswith s (lit "#EXTINF") = true → startswith s (lit "http") = false.
Proof.
  change (lit "#EXTINF") with (35%N :: lit "EXTINF").
  change (lit "http") with (104%N :: lit "ttp").
  destruct s as [|c s]; [done|]. cbn [startswith].
  destruct (decide (35%N = c)) as [<-|]; [|done]. intros _.
  by rewrite decide_False.
Qed.

Lemma classify_metadata raw :
  classify raw = Metadata → startswith (strip raw) (lit "#EXTINF") = true.
Proof.
  unfold classify. destruct (strip raw) as [|c line]; [done|].
  destruct (startswith (c :: line) (lit "#EXTINF")); [done|].
  by destruct (startswith (c :: line) (lit "http")).
Qed.

End SplitFacts.

Module SplitExtras.
Import Py Parse ParseSpec ParseMoreSpec ParseFile DictFacts ParseFacts
  ParseMoreFacts SplitSpec SplitFacts.

(** X24.  On the same lines the loop of [split_m3u_by_channel] finds the
    channels [parse_m3u_to_json] stores, in the same order: each entry of
    the store has the name, the attributes and the one stream URL of the
    channel at its place, and each channel is made of a metadata line and
    of an endpoint line of the manifest, with exactly one URL. *)
Theorem split_agrees_with_parse m3u_url lines :
  (Parse.channels (parse_lines m3u_url lines)).*2
    = as_entry m3u_url <$> Split.split_channels lines ∧
  Forall (from_lines lines) (Split.split_channels lines).
Proof.
  destruct (loops_in_step m3u_url lines) as (Hch & Hfrom & _).
  split; [exact Hch | exact Hfrom].
Qed.

Section WithFiles.
Context {World : Type}.
Context (write_file : list N → list N → World → bool * World).

(** X25.  The files of the channels of a manifest.  The names computed
    for the channels found are pairwise distinct and end in [.m3u]; the
    loop of [split_m3u_by_channel], seen on files that keep the writes
    asked of them and behave otherwise as before, asks for the files of the
    channels in order, each at most once, so that no file of a run is
    written over by the run; and either a write raises and the run ends in
    its handler, or the files of all the channels have been asked for and
    [created_files] has one entry for each channel found. *)
Theorem channel_files_distinct lines w :
  NoDup (imap Split.file_name (Split.split_channels lines)) ∧
  Forall (λ f, lit ".m3u" `suffix_of` f)
    (imap Split.file_name (Split.split_channels lines)) ∧
  (Split.write_files (logged_files write_file)
     (Split.split_channels lines) ([], w)).1
    = (Split.write_files write_file (Split.split_channels lines) w).1 ∧
  (Split.write_files (logged_files write_file)
     (Split.split_channels lines) ([], w)).2.2
    = (Split.write_files write_file (Split.split_channels lines) w).2 ∧
  (Split.write_files (logged_files write_file)
     (Split.split_channels lines) ([], w)).2.1
    `prefix_of` imap file_of (Split.split_channels lines) ∧
  ((Split.write_files write_file (Split.split_channels lines) w).1 = None ∨
   ((Split.write_files write_file (Split.split_channels lines) w).1
      = Some (imap created_of (Split.split_channels lines)) ∧
    (Split.write_files (logged_files write_file)
       (Split.split_channels lines) ([], w)).2.1
      = imap file_of (Split.split_channels lines))).
Proof.
  destruct (loops_in_step (lit "") lines) as (_ & Hfrom & _).
  fold (Split.split_channels lines) in Hfrom.
  assert (Forall (λ ch, Split.urls ch ≠ []) (Split.split_channels lines))
    as Hurls.
  { eapply Forall_impl; [exact Hfrom|].
    by intros ch (meta & raw & _ & _ & _ & _ & ->). }
  destruct (write_from_logged write_file 0 (Split.split_channels lines) [] [] w
              Hurls) as (H1 & H2 & [n Hn] & H4).
  fold (Split.write_files (logged_files write_file)
          (Split.split_channels lines) ([], w)) in *.
  fold (Split.write_files write_file (Split.split_channels lines) w) in *.
  split_and!.
  - apply NoDup_alt. intros i j f.
    rewrite !list_lookup_imap.
    destruct (Split.split_channels lines !! i) as [ch|]; [|done].
    destruct (Split.split_channels lines !! j) as [ch'|]; [|done].
    simpl. intros [= <-] [= Heq]. symmetry. by eapply file_name_inj.
  - apply Forall_lookup. intros i f.
    rewrite list_lookup_imap.
    destruct (Split.split_channels lines !! i) as [ch|]; [|done].
    simpl. intros [= <-]. rewrite file_name_parts.
    eexists (_ ++ _ :: _). by rewrite <- app_assoc.
  - exact H1.
  - exact H2.
  - rewrite Hn. cbn [app].
    exists (drop n (imap file_of (Split.split_channels lines))).
    symmetry. apply take_drop.
  - rewrite <- H1. destruct H4 as [H4 | [H4 H5]]; [by left|]. right.
    split; [exact H4 | exact H5].
Qed.

End WithFiles.

(** X26.  A channel file is read back as it was meant: when neither the
    metadata line nor the URL of a channel found in a manifest has a
    carriage return inside, the file written for it holds exactly one
    stream URL, that of the channel, and [check_m3u_playability] on this
    file probes this URL and nothing else. *)
Theorem channel_file_read_back {World}
    (head : list N → World → option bool * World) content ch w :
  ch ∈ Split.split_channels (split_lines content) →
  13%N ∉ Split.extinf ch →
  (∀ url, url ∈ Split.urls ch → 13%N ∉ url) →
  ∃ url, Split.urls ch = [url] ∧
    Playability.stream_urls (Split.file_text ch) = [url] ∧
    Playability.check_m3u_playability head (Split.file_text ch) w
      = verdict head url w.
Proof.
  intros Hch Hcr_meta Hcr_url.
  destruct (loops_in_step (lit "") (split_lines content)) as (_ & Hfrom & _).
  fold (Split.split_channels (split_lines content)) in Hfrom.
  rewrite Forall_forall in Hfrom.
  destruct (Hfrom ch Hch) as (meta & raw & Hmeta & Hraw & Hkm & Hkr & ->).
  cbn [Split.extinf Split.urls channel_of] in *.
  specialize (Hcr_url (strip raw) (list_elem_of_here _ _)).
  assert (10%N ∉ strip meta) as Hnl_meta.
  { intros Hin%strip_elem. exact (split_lines_no_newline _ _ Hmeta Hin). }
  assert (10%N ∉ strip raw) as Hnl_raw.
  { intros Hin%strip_elem. exact (split_lines_no_newline _ _ Hraw Hin). }
  apply classify_metadata in Hkm.
  apply classify_endpoint in Hkr as [_ Hkr].
  assert (Playability.stream_urls (Split.file_text (channel_of meta raw))
          = [strip raw]) as Hurls.
  { unfold Playability.stream_urls, Playability.readlines, Split.file_text.
    cbn [Split.extinf Split.urls channel_of fmap list_fmap concat].
    rewrite app_nil_r. rewrite universal_newlines_id.
    2:{ assert (13%N ∉ [10%N]) as Hnl
          by (apply (bool_decide_unpack _); vm_compute; exact I).
        assert (13%N ∉ lit "#EXTM3U") as Hhead
          by (apply (bool_decide_unpack _); vm_compute; exact I).
        rewrite !not_elem_of_app. tauto. }
    change ([10%N] ++ ?t) with (10%N :: t).
    rewrite keepends_line
      by (apply (bool_decide_unpack _); vm_compute; exact I).
    change ([10%N] ++ ?t) with (10%N :: t).
    rewrite keepends_line by done.
    rewrite keepends_line by done.
    cbn [Playability.keepends fmap list_fmap].
    change (strip (lit "#EXTM3U" ++ [10%N])) with (lit "#EXTM3U").
    rewrite !strip_trimmed_line by apply trimmed_strip.
    rewrite filter_cons, decide_False by (vm_compute; discriminate).
    rewrite filter_cons, decide_False
      by (rewrite (startswith_extinf_not_http _ Hkm); discriminate).
    rewrite filter_cons, decide_True by done. by rewrite filter_nil. }
  exists (strip raw). split; [done|]. split; [exact Hurls|].
  unfold Playability.check_m3u_playability. by rewrite Hurls.
Qed.

Lemma channel_file_read_back_witness :
  ∃ url, Split.urls SplitSamples.news = [url] ∧
    Playability.stream_urls (Split.file_text SplitSamples.news) = [url] ∧
    Playability.check_m3u_playability SplitSamples.answers
        (Split.file_text SplitSamples.news) tt
      = verdict SplitSamples.answers url tt.
Proof.
  apply (channel_file_read_back SplitSamples.answers
           SplitSamples.manifest_crlf SplitSamples.news tt).
  - vm_compute. apply list_elem_of_here.
  - apply (bool_decide_unpack _). vm_compute. exact I.
  - intros url ->%list_elem_of_singleton.
    apply (bool_decide_unpack _). vm_compute. exact I.
Defined.

End SplitExtras.

(** * Properties of [sync_database.py] *)

Module SyncFacts.
Import Py Sync SyncSpec.

Lemma omap_length_le {A B} (f : A → option B) (l : list A) :
  length (omap f l) ≤ length l.
Proof.
  induction l as [|x l IH]; [done|]. csimpl.
  destruct (f x); cbn [length]; lia.
Qed.

Lemma sync_run_snoc {Value World}
    (execute : Request Value → World → option (list (gmap (list N) Value)) * World)
    st items item :
  run execute st (items ++ [item]) = step execute (run execute st items) item.
Proof. unfold run. by rewrite foldl_snoc. Qed.

Section WithDatabase.
Context {Value World : Type}.
Context (execute : Request Value → World → option (list (gmap (list N) Value)) * World).

(** What one turn of the loop does to the counters and to [errors]. *)
Lemma step_counts st item :
  let st' := step execute st item in
  (success_count st' = S (success_count st) ∧ error_count st' = error_count st
     ∧ errors st' = errors st) ∨
  (success_count st' = S (success_count st) ∧ error_count st' = S (error_count st)
     ∧ errors st' = errors st ++ [Raised item.1]) ∨
  (success_count st' = success_count st ∧ error_count st' = S (error_count st)
     ∧ errors st' = errors st ++ [InsertFailed item.1]).
Proof.
  unfold step. cbn zeta.
  destruct (insert_channel execute _ _).1 as [row|]; [|by right; right].
  destruct (decide (size row = 0)); [by right; right|].
  destruct (row !! lit "id"); [by left | by right; left].
Qed.

Lemma step_error_mono st item :
  error_count st ≤ error_count (step execute st item).
Proof.
  destruct (step_counts st item) as [(_ & -> & _)|[(_ & -> & _)|(_ & -> & _)]]; lia.
Qed.

Lemma run_error_mono st items :
  error_count st ≤ error_count (run execute st items).
Proof.
  induction items as [|item items IH] using rev_ind; [done|].
  rewrite sync_run_snoc. etransitivity; [exact IH|apply step_error_mono].
Qed.

(** The counters and the errors after a run. *)
Lemma run_counts items w :
  success_count (run execute (init w) items)
    + error_count (run execute (init w) items)
    = length items
      + length (filter (λ e, raised e = true)
                  (errors (run execute (init w) items))) ∧
  length (errors (run execute (init w) items))
    = error_count (run execute (init w) items) ∧
  error_key <$> errors (run execute (init w) items) `sublist_of` items.*1 ∧
  success_count (run execute (init w) items) ≤ length items.
Proof.
  induction items as [|item items IH] using rev_ind.
  { cbn. split; [done|]. split; [done|]. split; [constructor|done]. }
  rewrite sync_run_snoc. destruct IH as (Htotal & Hlen & Hsub & Hle).
  rewrite length_app, fmap_app. cbn [length fmap list_fmap].
  destruct (step_counts (run execute (init w) items) item)
    as [(-> & -> & ->)|[(-> & -> & ->)|(-> & -> & ->)]].
  - split; [lia|]. split; [done|]. split; [|lia].
    rewrite <- (app_nil_r (error_key <$> _)). apply sublist_app; [done|].
    by apply sublist_cons.
  - rewrite filter_app, fmap_app, !length_app, filter_cons_True by done.
    cbn [length fmap list_fmap error_key filter list_filter].
    split; [lia|]. split; [lia|]. split; [|lia]. by apply sublist_app.
  - rewrite filter_app, fmap_app, !length_app, filter_cons_False by done.
    cbn [length fmap list_fmap error_key filter list_filter].
    split; [lia|]. split; [lia|]. split; [|lia]. by apply sublist_app.
Qed.

(** The loop over the logged database. *)
Lemma insert_childlist_logged channel_id children log w :
  insert_childlist (logged execute) channel_id children (log, w) =
    (log ++ ((λ child, InsertSource (source_data_of channel_id child)) <$> children),
     insert_childlist execute channel_id children w).
Proof.
  unfold insert_childlist. revert log w.
  induction children as [|child children IH]; intros log w.
  - by rewrite app_nil_r.
  - cbn [foldl fmap list_fmap].
    change ((insert_channel_source (logged execute)
               (source_data_of channel_id child) (log, w)).2)
      with (log ++ [InsertSource (source_data_of channel_id child)],
            (insert_channel_source execute (source_data_of channel_id child) w).2).
    rewrite IH. by rewrite <- app_assoc.
Qed.

Lemma step_logged st item log :
  ∃ reqs,
    step (logged execute) (with_log log st) item =
      with_log (log ++ InsertChannel (channel_data_of item.1 item.2) :: reqs)
        (step execute st item) ∧
    omap channel_request reqs = [] ∧
    length reqs ≤ length (childlist item.2) ∧
    (error_count (step execute st item) = error_count st →
       omap source_request reqs = stream_url <$> childlist item.2).
Proof.
  unfold step. cbn zeta. unfold insert_channel, logged, with_log. cbn [fst snd world].
  destruct (execute (InsertChannel _) (world st)) as [data w'] eqn:Hex.
  cbn [fst snd].
  destruct (first_row data) as [row|]; cbn [success_count error_count errors world].
  2:{ exists []. split; [done|]. split; [done|]. split; [cbn [length]; lia|].
      cbn [error_count]. intros; lia. }
  destruct (decide (size row = 0)); cbn [success_count error_count errors world].
  { exists []. split; [done|]. split; [done|]. split; [cbn [length]; lia|].
    cbn [error_count]. intros; lia. }
  destruct (row !! lit "id") as [channel_id|];
    cbn [success_count error_count errors world].
  2:{ exists []. split; [done|]. split; [done|]. split; [cbn [length]; lia|].
      cbn [error_count]. intros; lia. }
  exists ((λ child, InsertSource (source_data_of channel_id child))
            <$> childlist item.2).
  change (λ req lw, ((execute req lw.2).1, (lw.1 ++ [req], (execute req lw.2).2)))
    with (logged execute).
  rewrite insert_childlist_logged, <- app_assoc.
  split; [done|]. split; [|split].
  - induction (childlist item.2) as [|child children IH]; [done|]. exact IH.
  - by rewrite length_fmap.
  - intros _. induction (childlist item.2) as [|child children IH]; [done|].
    csimpl. by rewrite IH.
Qed.

Lemma run_logged st items log :
  ∃ reqs,
    run (logged execute) (with_log log st) items =
      with_log (log ++ reqs) (run execute st items) ∧
    omap channel_request reqs = items.*1 ∧
    length (omap source_request reqs) ≤ length (all_children items) ∧
    (error_count (run execute st items) = error_count st →
       omap source_request reqs = all_children items).
Proof.
  induction items as [|item items IH] using rev_ind.
  { exists []. rewrite app_nil_r. done. }
  destruct IH as (reqs & Hrun & Hkeys & Hlen & Hall).
  rewrite !sync_run_snoc, Hrun.
  destruct (step_logged (run execute st items) item (log ++ reqs))
    as (reqs' & -> & Hkeys' & Hlen' & Hall').
  exists (reqs ++ InsertChannel (channel_data_of item.1 item.2) :: reqs').
  rewrite <- app_assoc. split; [done|].
  unfold all_children in *. rewrite !fmap_app, !omap_app, join_app.
  cbn [omap list_omap channel_request source_request fmap list_fmap mjoin].
  fold (omap (@channel_request Value) reqs'). fold (omap (@source_request Value) reqs').
  change (list_join (option (list N)) [?l]) with (l ++ []).
  rewrite app_nil_r, Hkeys, Hkeys'. split; [done|]. split.
  - rewrite !length_app, length_fmap.
    pose proof (omap_length_le (@source_request Value) reqs'). lia.
  - intros Herr.
    pose proof (run_error_mono st items). pose proof (step_error_mono (run execute st items) item).
    rewrite Hall, Hall' by lia. done.
Qed.

End WithDatabase.
End SyncFacts.

Module SyncExtras.
Import Py Sync SyncSpec SyncFacts.

Section WithDatabase.
Context {Value World : Type}.
Context (execute : Request Value → World → option (list (gmap (list N) Value)) * World).

(** X27.  The counters of [batch_insert_channels_from_json].  Whatever
    the database answers, a file that could be read gives a result in
    which [errors] has [error_count] entries, about groups of the file in
    the order of the file, and in which [total_processed], the sum of the
    two counters, is the number of groups plus the number of errors
    raised after the insert of the group: such a group is counted as a
    success and as an error. *)
Theorem sync_counts channels_data w :
  ∃ result w',
    batch_insert_channels_from_json execute (Some channels_data) w
      = (Some result, w') ∧
    total_processed result = r_success_count result + r_error_count result ∧
    total_processed result
      = length channels_data
        + length (filter (λ e, raised e = true) (r_errors result)) ∧
    length (r_errors result) = r_error_count result ∧
    error_key <$> r_errors result `sublist_of` channels_data.*1 ∧
    r_success_count result ≤ length channels_data.
Proof.
  eexists _, _. split; [reflexivity|].
  cbn [total_processed r_success_count r_error_count r_errors].
  split; [done|]. apply run_counts.
Qed.

(** X28.  The requests of a run, read off a database that keeps them:
    the counters, the errors and the database are those of the run
    without the list, every group of the file is sent to [channels]
    exactly once, in the order of the file and whatever became of the
    groups before it, and no more rows are sent to [channel_sources]
    than the file has alternates. *)
Theorem sync_requests channels_data w :
  let st := run execute (init w) channels_data in
  let st' := run (logged execute) (init ([], w)) channels_data in
  success_count st' = success_count st ∧
  error_count st' = error_count st ∧
  errors st' = errors st ∧
  (world st').2 = world st ∧
  omap channel_request (world st').1 = channels_data.*1 ∧
  length (omap source_request (world st').1)
    ≤ length (all_children channels_data).
Proof.
  cbn zeta.
  destruct (run_logged execute (init w) channels_data [])
    as (reqs & Hrun & Hkeys & Hlen & _).
  change (with_log [] (init w)) with (init (World := list (Request Value) * World) ([], w))
    in Hrun.
  rewrite Hrun. done.
Qed.

(** X29.  A run whose [error_count] is 0 has sent everything: every
    group has been counted as a success, and the rows sent to
    [channel_sources] are those of all the alternates of the file, in
    order. *)
Theorem sync_without_errors channels_data w :
  error_count (run execute (init w) channels_data) = 0 →
  success_count (run execute (init w) channels_data) = length channels_data ∧
  omap source_request
    (world (run (logged execute) (init ([], w)) channels_data)).1
    = all_children channels_data.
Proof.
  intros Herr.
  destruct (run_counts execute channels_data w) as (Htotal & Hlen & _).
  destruct (run_logged execute (init w) channels_data [])
    as (reqs & Hrun & _ & _ & Hall).
  change (with_log [] (init w)) with (init (World := list (Request Value) * World) ([], w))
    in Hrun.
  rewrite Hrun. cbn [world with_log fst]. split; [|by apply Hall].
  rewrite Herr in *. apply nil_length_inv in Hlen.
  rewrite Hlen in Htotal. cbn in Htotal. lia.
Qed.

End WithDatabase.

Lemma sync_without_errors_witness :
  success_count (run SyncSamples.always_7 (init tt) [(lit "a", Samples.g_live)])
    = length [(lit "a", Samples.g_live)] ∧
  omap source_request
    (world (run (logged SyncSamples.always_7) (init ([], tt))
              [(lit "a", Samples.g_live)])).1
    = all_children [(lit "a", Samples.g_live)].
Proof.
  apply (sync_without_errors SyncSamples.always_7 [(lit "a", Samples.g_live)] tt).
  vm_compute. reflexivity.
Defined.

End SyncExtras.
